(** * Opencode-TTS-Plugin: the local streaming pipeline, verified

    A shallow embedding of [src/local/speak.ts], [src/local/audio.ts] and
    [src/engine-http.ts]: the text chunker, the WAV sample encoder, temp-file
    cleanup, the player fallback engine with its last-working-player cache,
    the HTTP speak path, and the in-order playback loop of [speakLocal].
    After these come further facts about the same code, the variables the
    modules keep across calls (the tracked player process, the server probe,
    the model and the worker pools), and the string helpers and [speakText]
    of [src/index.ts]. *)

From Stdlib Require Import ZArith NArith QArith Qround Lia Lqa.
From stdpp Require Import gmap strings list.
From Equations Require Import Equations.

#[local] Set Warnings "-clear-no-such-hyp,-level-tolerance".
Local Open Scope nat_scope.

(** ** JavaScript strings

    A JS string is a sequence of UTF-16 code units; [length] counts code
    units.  [String.prototype.trim] and the regex class [\s] use the same set:
    WhiteSpace plus LineTerminator of ECMA-262. *)
Module JsString.

Abbreviation char16 := N (only parsing).
Abbreviation jsstring := (list N) (only parsing).

Definition of_string (s : string) : jsstring :=
  map Ascii.N_of_ascii (String.list_ascii_of_string s).

Definition is_space (c : char16) : bool :=
  ((9 <=? c) && (c <=? 13) || (c =? 32) || (c =? 160) || (c =? 5760)
   || (8192 <=? c) && (c <=? 8202) || (c =? 8232) || (c =? 8233)
   || (c =? 8239) || (c =? 8287) || (c =? 12288) || (c =? 65279))%N.

Definition LF : char16 := 10%N.
Definition SP : char16 := 32%N.

Definition is_nl (c : char16) : bool := (c =? LF)%N.

(** The class [[.!?\n]] of the segmenting regex, and its complement. *)
Definition is_term (c : char16) : bool :=
  ((c =? 46) || (c =? 33) || (c =? 63) || (c =? LF))%N.

Definition nonterm (c : char16) : bool := negb (is_term c).

Fixpoint takeW (p : char16 -> bool) (s : jsstring) : jsstring :=
  match s with
  | c :: r => if p c then c :: takeW p r else []
  | [] => []
  end.

Fixpoint dropW (p : char16 -> bool) (s : jsstring) : jsstring :=
  match s with
  | c :: r => if p c then dropW p r else s
  | [] => []
  end.

(** [s.trim()] *)
Definition trim (s : jsstring) : jsstring :=
  rev (dropW is_space (rev (dropW is_space s))).

(** [!s] on a string: only the empty string is falsy. *)
Definition falsy (s : jsstring) : bool :=
  match s with [] => true | _ => false end.

(** [s.split(/\s+/)]: the pieces between maximal whitespace runs; leading or
    trailing whitespace yields an empty first or last piece, as in JS.
    [cur] is the piece being read (reversed), [sep] tells that the scan is
    inside a separator run. *)
Fixpoint split_go (cur : jsstring) (sep : bool) (s : jsstring) : list jsstring :=
  match s with
  | [] => [rev cur]
  | c :: r =>
      if is_space c
      then (if sep then split_go cur true r else rev cur :: split_go [] true r)
      else split_go (c :: cur) false r
  end.

Definition split_ws (s : jsstring) : list jsstring := split_go [] false s.

(** What is left of a string when whitespace is ignored. *)
Definition strip_ws (s : jsstring) : jsstring :=
  filter (fun c => is_space c = false) s.

Lemma length_dropW p s : length (dropW p s) <= length s.
Proof.
  induction s as [|c r IH]; simpl; [lia|].
  destruct (p c); simpl; lia.
Qed.

Lemma takeW_dropW p s : takeW p s ++ dropW p s = s.
Proof.
  induction s as [|c r IH]; simpl; [done|].
  destruct (p c); simpl; [by rewrite IH | done].
Qed.

Lemma dropW_starts p s :
  match dropW p s with [] => True | c :: _ => p c = false end.
Proof.
  induction s as [|c r IH]; simpl; [done|].
  destruct (p c) eqn:E; [done | by simpl].
Qed.

Lemma takeW_all p s : dropW p s = [] -> takeW p s = s.
Proof.
  intros H. pose proof (takeW_dropW p s) as E.
  rewrite H, app_nil_r in E. done.
Qed.

Lemma length_trim s : length (trim s) <= length s.
Proof.
  unfold trim. rewrite length_rev.
  etrans; [apply length_dropW|]. rewrite length_rev. apply length_dropW.
Qed.

Lemma strip_ws_app s t : strip_ws (s ++ t) = strip_ws s ++ strip_ws t.
Proof. apply filter_app. Qed.

Lemma strip_ws_cons c s :
  strip_ws (c :: s) = if is_space c then strip_ws s else c :: strip_ws s.
Proof.
  unfold strip_ws. destruct (is_space c) eqn:E.
  - rewrite filter_cons_False; [done | congruence].
  - by rewrite filter_cons_True.
Qed.

Lemma strip_ws_rev s : strip_ws (rev s) = rev (strip_ws s).
Proof.
  induction s as [|c r IH]; simpl; [done|].
  rewrite strip_ws_app, IH, !strip_ws_cons.
  destruct (is_space c); simpl; [by rewrite app_nil_r | done].
Qed.

Lemma strip_ws_dropW s : strip_ws (dropW is_space s) = strip_ws s.
Proof.
  induction s as [|c r IH]; simpl; [done|].
  destruct (is_space c) eqn:E; rewrite ?IH, !strip_ws_cons, E; done.
Qed.

Lemma strip_ws_trim s : strip_ws (trim s) = strip_ws s.
Proof.
  unfold trim.
  by rewrite strip_ws_rev, strip_ws_dropW, strip_ws_rev, rev_involutive,
    strip_ws_dropW.
Qed.

(** A word has no whitespace in it. *)
Definition is_word (s : jsstring) : Prop := Forall (fun c => is_space c = false) s.

Lemma strip_ws_word s : is_word s -> strip_ws s = s.
Proof.
  induction 1 as [|c r Hc _ IH]; [done|].
  by rewrite strip_ws_cons, Hc, IH.
Qed.

Lemma split_go_words cur sep s :
  is_word cur -> Forall is_word (split_go cur sep s).
Proof.
  revert cur sep. induction s as [|c r IH]; intros cur sep Hcur; simpl.
  - constructor; [|constructor]. unfold is_word. rewrite <- (rev_involutive cur) in Hcur.
    apply Forall_forall. intros x Hx. unfold is_word in Hcur.
    rewrite Forall_forall in Hcur. apply Hcur. rewrite rev_involutive.
    apply list_elem_of_In. apply in_rev. by apply list_elem_of_In.
  - destruct (is_space c) eqn:E.
    + destruct sep; [by apply IH|].
      constructor; [|apply IH; constructor].
      apply Forall_forall. intros x Hx. unfold is_word in Hcur.
      rewrite Forall_forall in Hcur. apply Hcur.
      apply list_elem_of_In. apply in_rev. by apply list_elem_of_In.
    + apply IH. by constructor.
Qed.

Lemma concat_split_go cur sep s :
  concat (split_go cur sep s) = rev cur ++ strip_ws s.
Proof.
  revert cur sep. induction s as [|c r IH]; intros cur sep; simpl.
  - done.
  - rewrite strip_ws_cons. destruct (is_space c).
    + destruct sep; [apply IH|]. simpl. by rewrite IH.
    + rewrite IH. simpl. by rewrite <- app_assoc.
Qed.

Lemma split_ws_words s : Forall is_word (split_ws s).
Proof. apply split_go_words. constructor. Qed.

Lemma concat_split_ws s : concat (split_ws s) = strip_ws s.
Proof. unfold split_ws. by rewrite concat_split_go. Qed.

End JsString.

(** ** TextChunker: [splitText] of speak.ts *)
Module TextChunker.
Import JsString.

Definition maxLength : nat := 240.

(** [text.match(/[^.!?\n]+[.!?\n]*|[\n]+/g)]: all matches, left to right.
    At each position the first alternative is tried first (a greedy run of
    non-terminators, then a greedy run of terminators), then the second (a
    run of newlines); where neither matches, the scan moves one code unit
    on.  The empty list stands for [null]. *)
Equations? matchAll (s : jsstring) : list jsstring by wf (length s) lt :=
  matchAll [] := [];
  matchAll (c :: r) with is_term c => {
    | false :=
        (c :: takeW nonterm r ++ takeW is_term (dropW nonterm r))
          :: matchAll (dropW is_term (dropW nonterm r));
    | true with is_nl c => {
        | true := (c :: takeW is_nl r) :: matchAll (dropW is_nl r);
        | false := matchAll r } }.
Proof.
  all: pose proof (length_dropW is_term (dropW nonterm r));
    pose proof (length_dropW nonterm r);
    pose proof (length_dropW is_nl r); simpl; lia.
Qed.

(** One iteration of the inner [for (const word of words)] loop; the state is
    the pair of [chunks] and [current]. *)
Definition pushWord (st : list jsstring * jsstring) (word : jsstring)
  : list jsstring * jsstring :=
  let '(chunks, current) := st in
  if falsy word then (chunks, current)
  else if falsy current then (chunks, word)
  else if length current + length word + 1 <=? maxLength
       then (chunks, current ++ SP :: word)
       else (chunks ++ [current], word).

(** One iteration of the outer [for (const part of parts)] loop. *)
Definition splitPart (chunks : list jsstring) (part : jsstring) : list jsstring :=
  let trimmed := trim part in
  if falsy trimmed then chunks
  else if length trimmed <=? maxLength then chunks ++ [trimmed]
  else
    let words := split_ws trimmed in
    let '(chunks, current) := fold_left pushWord words (chunks, []) in
    if falsy current then chunks else chunks ++ [current].

(** [text.match(...) || [text]] *)
Definition parts (text : jsstring) : list jsstring :=
  match matchAll text with [] => [text] | ms => ms end.

Definition splitText (text : jsstring) : list jsstring :=
  fold_left splitPart (parts text) [].

(** *** Shape of the chunks *)

(** A chunk as the splitter may emit it: not empty, and within the limit
    unless it is one word that is itself longer than the limit. *)
Definition chunk_ok (c : jsstring) : Prop :=
  c <> [] /\ (length c <= maxLength \/ (is_word c /\ maxLength < length c)).

Definition pack_ok (st : list jsstring * jsstring) : Prop :=
  Forall chunk_ok st.1 /\ (st.2 = [] \/ chunk_ok st.2).

Lemma word_chunk_ok w : w <> [] -> is_word w -> chunk_ok w.
Proof.
  intros Hne Hw. split; [done|].
  destruct (le_lt_dec (length w) maxLength); [by left | by right].
Qed.

Lemma falsy_spec (s : jsstring) : falsy s = true <-> s = [].
Proof. by destruct s. Qed.

Lemma falsy_false (s : jsstring) : falsy s = false <-> s <> [].
Proof. by destruct s. Qed.

Lemma pushWord_ok st w : is_word w -> pack_ok st -> pack_ok (pushWord st w).
Proof.
  intros Hw [Hcs Hcur]. destruct st as [chunks current]. cbn [fst snd] in *.
  unfold pushWord. destruct (falsy w) eqn:Ew; [by split|].
  apply falsy_false in Ew.
  destruct (falsy current) eqn:Ec.
  - split; [done|]. right. by apply word_chunk_ok.
  - apply falsy_false in Ec. destruct Hcur as [?|Hcur]; [done|].
    destruct (Nat.leb _ maxLength) eqn:E.
    + apply Nat.leb_le in E. split; [done|]. right. split.
      * by destruct current.
      * left. cbn [snd]. rewrite length_app. cbn [length]. lia.
    + split; cbn [fst snd].
      * apply Forall_app. split; [done|]. by constructor.
      * right. by apply word_chunk_ok.
Qed.

Lemma fold_pushWord_ok ws st :
  Forall is_word ws -> pack_ok st -> pack_ok (fold_left pushWord ws st).
Proof.
  intros Hws. revert st. induction Hws as [|w ws Hw _ IH]; intros st Hst; simpl.
  - done.
  - apply IH. by apply pushWord_ok.
Qed.

Lemma splitPart_ok chunks part :
  Forall chunk_ok chunks -> Forall chunk_ok (splitPart chunks part).
Proof.
  intros Hcs. unfold splitPart.
  destruct (falsy (trim part)) eqn:Ef; [done|].
  assert (trim part <> []) as Hne.
  { intros E. apply falsy_spec in E. congruence. }
  destruct (length (trim part) <=? maxLength) eqn:El.
  - apply Nat.leb_le in El. apply Forall_app. split; [done|].
    constructor; [|constructor]. split; [done | by left].
  - pose proof (fold_pushWord_ok (split_ws (trim part)) (chunks, [])
                  (split_ws_words _)) as H.
    destruct (fold_left pushWord _ _) as [chunks' current].
    destruct H as [H1 H2]; [split; [done | by left]|]. simpl in *.
    destruct current as [|d current]; simpl; [done|].
    apply Forall_app. split; [done|]. constructor; [|constructor].
    by destruct H2.
Qed.

Lemma fold_splitPart_ok parts chunks :
  Forall chunk_ok chunks -> Forall chunk_ok (fold_left splitPart parts chunks).
Proof.
  revert chunks. induction parts as [|p parts IH]; intros chunks H; simpl.
  - done.
  - apply IH. by apply splitPart_ok.
Qed.

(** *** Long words *)

(** [w] has been taken by the inner loop: it is a chunk or is [current]. *)
Definition taken (w : jsstring) (st : list jsstring * jsstring) : Prop :=
  w ∈ st.1 \/ w = st.2.

Lemma pushWord_taken w st :
  maxLength < length w -> taken w (pushWord st w).
Proof.
  intros Hw. destruct st as [chunks current]. unfold pushWord, taken.
  destruct (falsy w) eqn:Ew.
  { apply falsy_spec in Ew. subst w. simpl in Hw. lia. }
  destruct (falsy current); [by right|].
  destruct (Nat.leb_spec (length current + length w + 1) maxLength); [lia|].
  by right.
Qed.

Lemma pushWord_keeps w st w' :
  maxLength < length w -> taken w st -> taken w (pushWord st w').
Proof.
  intros Hw Ht. destruct st as [chunks current]. unfold pushWord, taken in *.
  cbn [fst snd] in *.
  destruct (falsy w'); [done|].
  destruct (falsy current) eqn:Ec.
  - destruct Ht as [Ht| ->]; [by left|]. simpl in Hw. apply falsy_spec in Ec.
    subst. simpl in Hw. lia.
  - destruct (Nat.leb_spec (length current + length w' + 1) maxLength).
    + destruct Ht as [Ht| ->]; [by left | lia].
    + left. cbn [fst]. apply elem_of_app. destruct Ht as [Ht| ->]; [by left|].
      right. by apply list_elem_of_singleton.
Qed.

Lemma fold_pushWord_keeps w ws st :
  maxLength < length w -> taken w st -> taken w (fold_left pushWord ws st).
Proof.
  intros Hw. revert st. induction ws as [|w' ws IH]; intros st Ht; [done|].
  simpl. apply IH. by apply pushWord_keeps.
Qed.

Lemma fold_pushWord_taken w ws st :
  maxLength < length w -> w ∈ ws -> taken w (fold_left pushWord ws st).
Proof.
  intros Hw. revert st. induction ws as [|w' ws IH]; intros st Hin.
  - by apply elem_of_nil in Hin.
  - simpl. apply elem_of_cons in Hin as [<-|Hin].
    + apply fold_pushWord_keeps; [done|]. by apply pushWord_taken.
    + by apply IH.
Qed.

Lemma pushWord_chunks x st w : x ∈ st.1 -> x ∈ (pushWord st w).1.
Proof.
  destruct st as [chunks current]. unfold pushWord. cbn [fst]. intros Hx.
  repeat case_match; cbn [fst]; try done.
  apply elem_of_app. by left.
Qed.

Lemma fold_pushWord_chunks x ws st : x ∈ st.1 -> x ∈ (fold_left pushWord ws st).1.
Proof.
  revert st. induction ws as [|w ws IH]; intros st H; [done|].
  simpl. apply IH. by apply pushWord_chunks.
Qed.

Lemma splitPart_chunks x chunks part : x ∈ chunks -> x ∈ splitPart chunks part.
Proof.
  intros H. unfold splitPart.
  destruct (falsy (trim part)); [done|].
  destruct (Nat.leb _ maxLength); [apply elem_of_app; by left|].
  pose proof (fold_pushWord_chunks x (split_ws (trim part)) (chunks, []) H) as H'.
  destruct (fold_left pushWord _ _) as [chunks' current]. cbn [fst] in H'.
  destruct (falsy current); [done|]. apply elem_of_app. by left.
Qed.

Lemma fold_splitPart_chunks x ps chunks :
  x ∈ chunks -> x ∈ fold_left splitPart ps chunks.
Proof.
  revert chunks. induction ps as [|p ps IH]; intros chunks H; [done|].
  simpl. apply IH. by apply splitPart_chunks.
Qed.

Lemma length_strip_ws s : length (strip_ws s) <= length s.
Proof. apply length_filter. Qed.

Lemma length_word_of (ws : list jsstring) (w : jsstring) :
  w ∈ ws -> length w <= length (concat ws).
Proof.
  induction ws as [|w' ws IH]; intros Hin.
  - by apply elem_of_nil in Hin.
  - simpl. rewrite length_app. apply elem_of_cons in Hin as [->|Hin]; [lia|].
    specialize (IH Hin). lia.
Qed.

Lemma splitPart_long_word w chunks part :
  w ∈ split_ws (trim part) -> maxLength < length w -> w ∈ splitPart chunks part.
Proof.
  intros Hin Hw. unfold splitPart.
  pose proof (length_word_of _ _ Hin) as Hlen.
  rewrite concat_split_ws in Hlen. pose proof (length_strip_ws (trim part)).
  destruct (falsy (trim part)) eqn:Ef.
  { apply falsy_spec in Ef. rewrite Ef in *. simpl in *. lia. }
  destruct (Nat.leb_spec (length (trim part)) maxLength); [lia|].
  pose proof (fold_pushWord_taken w (split_ws (trim part)) (chunks, []) Hw Hin) as H'.
  destruct (fold_left pushWord _ _) as [chunks' current].
  destruct H' as [H'|H']; cbn [fst snd] in H'.
  - destruct (falsy current); [done|]. apply elem_of_app. by left.
  - subst current. destruct (falsy w) eqn:Ew.
    + apply falsy_spec in Ew. subst. simpl in Hw. lia.
    + apply elem_of_app. right. by apply list_elem_of_singleton.
Qed.

Lemma fold_splitPart_long_word w part ps chunks :
  part ∈ ps -> w ∈ split_ws (trim part) -> maxLength < length w ->
  w ∈ fold_left splitPart ps chunks.
Proof.
  revert chunks. induction ps as [|p ps IH]; intros chunks Hp Hin Hw.
  - by apply elem_of_nil in Hp.
  - simpl. apply elem_of_cons in Hp as [<-|Hp].
    + apply fold_splitPart_chunks. by apply splitPart_long_word.
    + by apply IH.
Qed.

(** *** What the chunks keep of the text *)

(** The non-whitespace content gathered so far by the inner loop. *)
Definition packed (st : list jsstring * jsstring) : jsstring :=
  strip_ws (concat st.1 ++ st.2).

Lemma pushWord_packed st w :
  is_word w -> packed (pushWord st w) = packed st ++ w.
Proof.
  intros Hw. destruct st as [chunks current]. unfold pushWord, packed.
  destruct (falsy w) eqn:Ew.
  { apply falsy_spec in Ew. subst w. by rewrite app_nil_r. }
  destruct (falsy current) eqn:Ec; cbn [fst snd].
  - apply falsy_spec in Ec. subst current.
    rewrite !strip_ws_app, app_nil_r. f_equal. by apply strip_ws_word.
  - destruct (Nat.leb _ maxLength); cbn [fst snd].
    + rewrite !strip_ws_app, <- app_assoc. do 2 f_equal.
      rewrite strip_ws_cons. change (is_space SP) with true.
      by apply strip_ws_word.
    + rewrite concat_app. cbn [concat]. rewrite app_nil_r.
      by rewrite !strip_ws_app, (strip_ws_word w Hw).
Qed.

Lemma fold_pushWord_packed ws st :
  Forall is_word ws ->
  packed (fold_left pushWord ws st) = packed st ++ concat ws.
Proof.
  intros Hws. revert st. induction Hws as [|w ws Hw _ IH]; intros st; simpl.
  - by rewrite app_nil_r.
  - by rewrite IH, pushWord_packed, <- app_assoc.
Qed.

Lemma splitPart_strip chunks part :
  strip_ws (concat (splitPart chunks part))
  = strip_ws (concat chunks) ++ strip_ws part.
Proof.
  unfold splitPart. rewrite <- (strip_ws_trim part).
  destruct (falsy (trim part)) eqn:Ef.
  - apply falsy_spec in Ef. rewrite Ef. by rewrite app_nil_r.
  - destruct (length (trim part) <=? maxLength).
    + rewrite concat_app. simpl. by rewrite app_nil_r, strip_ws_app.
    + pose proof (fold_pushWord_packed (split_ws (trim part)) (chunks, [])
                    (split_ws_words _)) as H.
      destruct (fold_left pushWord _ _) as [chunks' current].
      unfold packed in H. simpl in H. rewrite app_nil_r, concat_split_ws in H.
      destruct current as [|d current]; simpl.
      * by rewrite app_nil_r in H.
      * rewrite concat_app. simpl. by rewrite app_nil_r.
Qed.

Lemma fold_splitPart_strip parts chunks :
  strip_ws (concat (fold_left splitPart parts chunks))
  = strip_ws (concat chunks) ++ strip_ws (concat parts).
Proof.
  revert chunks. induction parts as [|p parts IH]; intros chunks; simpl.
  - by rewrite app_nil_r.
  - by rewrite IH, splitPart_strip, strip_ws_app, <- app_assoc.
Qed.

(** *** The segmenting regex *)

(** The text is empty or its first code unit is not a terminator. *)
Definition starts_plain (s : jsstring) : Prop :=
  match s with [] => True | c :: _ => is_term c = false end.

Lemma matchAll_concat s : starts_plain s -> concat (matchAll s) = s.
Proof.
  funelim (matchAll s); intros Hs; simpl in Hs; try congruence.
  - done.
  - simpl. f_equal.
    match goal with IH : starts_plain _ -> _ |- _ => rewrite IH end.
    + rewrite <- app_assoc, takeW_dropW. apply takeW_dropW.
    + apply (dropW_starts is_term).
Qed.

(** On a text that is a single segment, a run of non-terminators followed
    only by terminators, the regex has exactly one match: the whole text. *)
Definition single_segment (text : jsstring) : bool :=
  match text with
  | [] => false
  | c :: r => nonterm c && falsy (dropW is_term (dropW nonterm r))
  end.

Lemma matchAll_single text : single_segment text = true -> matchAll text = [text].
Proof.
  destruct text as [|c r]; simpl; [done|].
  intros H. apply andb_prop in H as [Hc Hr]. apply falsy_spec in Hr.
  unfold nonterm in Hc. apply negb_true_iff in Hc.
  simp matchAll. rewrite Hc. simpl. rewrite Hr. simp matchAll.
  do 2 f_equal. rewrite (takeW_all is_term _ Hr). apply takeW_dropW.
Qed.

(** *** Properties of [splitText] *)

Example splitText_hello_world :
  splitText (of_string "Hello. World!") = [of_string "Hello."; of_string "World!"].
Proof. reflexivity. Qed.

(** A word longer than the limit comes out whole; its neighbours are packed
    around it. *)
Example splitText_long_word :
  splitText (of_string "go " ++ repeat 97%N 250 ++ of_string " on")
  = [of_string "go"; repeat 97%N 250; of_string "on"].
Proof. vm_compute. reflexivity. Qed.

(** C5: for every input text, every chunk returned by [splitText] is a
    non-empty string, and its length is at most the limit of 240 unless the
    chunk is a single word (no whitespace in it) that is itself longer than
    the limit; and every word longer than the limit, of any part the text is
    cut into, is returned whole as a chunk. *)
Theorem splitText_chunks_nonempty_bounded (text : jsstring) :
  Forall (fun c => c <> [] /\
                   (length c <= 240 \/ (is_word c /\ 240 < length c)))
         (splitText text) /\
  (forall part w, part ∈ parts text -> w ∈ split_ws (trim part) ->
                  240 < length w -> w ∈ splitText text).
Proof.
  change 240 with maxLength. split.
  - apply (fold_splitPart_ok _ []). constructor.
  - intros part w Hp Hin Hw. by apply (fold_splitPart_long_word w part).
Qed.

Lemma splitText_chunks_nonempty_bounded_witness :
  repeat 97%N 250 ∈ splitText (of_string "go " ++ repeat 97%N 250 ++ of_string " on").
Proof.
  apply (proj2 (splitText_chunks_nonempty_bounded
                  (of_string "go " ++ repeat 97%N 250 ++ of_string " on"))
               (of_string "go " ++ repeat 97%N 250 ++ of_string " on")).
  - vm_compute. constructor.
  - vm_compute. constructor 2. constructor 1.
  - vm_compute. lia.
Defined.

(** For a text that does not begin with a sentence terminator (. ! ? or
    newline), the chunks concatenated in order hold, whitespace ignored,
    exactly the text's content: no code unit is dropped and none is
    duplicated. *)
Lemma splitText_content (text : jsstring) :
  starts_plain text ->
  strip_ws (concat (splitText text)) = strip_ws text.
Proof.
  intros Hs. unfold splitText. rewrite fold_splitPart_strip. simpl.
  f_equal. unfold parts. destruct (matchAll text) eqn:E.
  - simpl. apply app_nil_r.
  - rewrite <- E. by apply matchAll_concat.
Qed.

(** C7, as stated, fails: a text under the limit with two sentences yields
    two chunks, and the empty text yields none. *)
Lemma splitText_short_text_two_chunks :
  length (of_string "Hello. World!") < 240 /\
  splitText (of_string "Hello. World!") = [of_string "Hello."; of_string "World!"] /\
  splitText (of_string "Hello. World!") <> [trim (of_string "Hello. World!")].
Proof. split; [vm_compute; lia | split; [reflexivity | discriminate]]. Qed.

(** C7, amended: for every input text of length at most the limit of 240
    that is a single segment (it starts with a non-terminator and nothing
    follows its first run of terminators) and is not only whitespace,
    [splitText] returns exactly one chunk, the trimmed input. *)
Theorem splitText_single_segment (text : jsstring) :
  length text <= 240 ->
  single_segment text = true ->
  trim text <> [] ->
  splitText text = [trim text].
Proof.
  intros Hlen Hseg Hne. unfold splitText, parts.
  rewrite (matchAll_single text Hseg). cbn [fold_left]. unfold splitPart.
  apply falsy_false in Hne. rewrite Hne.
  assert (Nat.leb (length (trim text)) maxLength = true) as ->; [|done].
  apply Nat.leb_le. pose proof (length_trim text). unfold maxLength. lia.
Qed.

Lemma splitText_single_segment_witness :
  splitText (of_string "  Hello there, world!") = [of_string "Hello there, world!"].
Proof.
  apply (splitText_single_segment (of_string "  Hello there, world!")).
  - vm_compute. lia.
  - reflexivity.
  - discriminate.
Defined.

End TextChunker.

(** ** TempFileManager, the encoder: [writeWav] of audio.ts

    The samples come from a [Float32Array].  A finite float32 is a dyadic
    rational with at most 24 significant bits; clamping returns an operand,
    the product by 0x8000 is a scaling by a power of two and the product by
    0x7fff has at most 39 significant bits, so binary64 computes every value
    of the sample loop exactly.  Finite numbers are therefore exact
    rationals here; NaN and the infinities are kept as such. *)
Module Wav.

Inductive number := NaN | Inf (negative : bool) | Fin (q : Q).

Definition Qltb (a b : Q) : bool := negb (Qle_bool b a).

(** [a < b] *)
Definition lt (a b : number) : bool :=
  match a, b with
  | NaN, _ | _, NaN => false
  | Inf true, Inf true => false
  | Inf true, _ => true
  | Inf false, _ => false
  | Fin _, Inf negative => negb negative
  | Fin x, Fin y => Qltb x y
  end.

Definition Math_min (a b : number) : number :=
  match a, b with
  | NaN, _ | _, NaN => NaN
  | _, _ => if lt b a then b else a
  end.

Definition Math_max (a b : number) : number :=
  match a, b with
  | NaN, _ | _, NaN => NaN
  | _, _ => if lt a b then b else a
  end.

(** [a * b] *)
Definition mul (a b : number) : number :=
  match a, b with
  | NaN, _ | _, NaN => NaN
  | Fin x, Fin y => Fin (x * y)
  | Inf n, Fin y | Fin y, Inf n =>
      if Qeq_bool y 0 then NaN else Inf (xorb n (Qltb y 0))
  | Inf n, Inf m => Inf (xorb n m)
  end.

(** Truncation toward zero, then reduction modulo 2^16 into the signed range:
    the conversion [DataView.prototype.setInt16] applies to its argument. *)
Definition Qtrunc (q : Q) : Z :=
  if Qltb q 0 then Qceiling q else Qfloor q.

Definition wrap16 (z : Z) : Z :=
  let m := (z mod 65536)%Z in
  if (m <? 32768)%Z then m else (m - 65536)%Z.

Definition ToInt16 (v : number) : Z :=
  match v with
  | Fin q => wrap16 (Qtrunc q)
  | _ => 0%Z
  end.

(** [Math.max(-1, Math.min(1, samples[i]))] *)
Definition clamp (x : number) : number :=
  Math_max (Fin (inject_Z (-1))) (Math_min (Fin (inject_Z 1)) x).

(** [s < 0 ? s * 0x8000 : s * 0x7fff] *)
Definition scaled (x : number) : number :=
  let s := clamp x in
  if lt s (Fin (inject_Z 0)) then mul s (Fin (inject_Z 32768))
  else mul s (Fin (inject_Z 32767)).

(** The 16-bit value [view.setInt16] stores for sample [x]. *)
Definition encodeSample (x : number) : Z := ToInt16 (scaled x).

Definition u16le (v : Z) : list Z :=
  let u := (v mod 65536)%Z in [(u mod 256)%Z; (u / 256)%Z].

Definition u32le (v : Z) : list Z :=
  let u := (v mod 4294967296)%Z in
  [(u mod 256)%Z; (u / 256 mod 256)%Z; (u / 65536 mod 256)%Z; (u / 16777216)%Z].

Definition writeString (str : string) : list Z :=
  map (fun a => Z.of_N (Ascii.N_of_ascii a)) (String.list_ascii_of_string str).

(** The buffer [writeWav] hands to [Bun.write]: the 44-byte header, then two
    bytes per sample. *)
Definition writeWav (samples : list number) (sampleRate : Z) : list Z :=
  let numChannels := 1%Z in
  let bitsPerSample := 16%Z in
  let bytesPerSample := (bitsPerSample / 8)%Z in
  let dataSize := (Z.of_nat (length samples) * bytesPerSample)%Z in
  let fileSize := (36 + dataSize)%Z in
  writeString "RIFF" ++ u32le fileSize ++ writeString "WAVE"
  ++ writeString "fmt " ++ u32le 16 ++ u16le 1 ++ u16le numChannels
  ++ u32le sampleRate ++ u32le (sampleRate * numChannels * bytesPerSample)
  ++ u16le (numChannels * bytesPerSample) ++ u16le bitsPerSample
  ++ writeString "data" ++ u32le dataSize
  ++ flat_map (fun x => u16le (encodeSample x)) samples.

Lemma Qltb_lt a b : Qltb a b = true <-> (a < b)%Q.
Proof.
  unfold Qltb. rewrite negb_true_iff. split.
  - intros H. apply Qnot_le_lt. intros Hle. apply Qle_bool_iff in Hle. congruence.
  - intros H. destruct (Qle_bool b a) eqn:E; [|done].
    apply Qle_bool_iff in E. apply Qle_not_lt in E. contradiction.
Qed.

Lemma Qltb_ge a b : Qltb a b = false <-> (b <= a)%Q.
Proof.
  unfold Qltb. rewrite negb_false_iff. apply Qle_bool_iff.
Qed.

Lemma wrap16_small z : (-32768 <= z <= 32767)%Z -> wrap16 z = z.
Proof.
  intros H. unfold wrap16. destruct (Z_lt_le_dec z 0).
  - replace (z mod 65536)%Z with (z + 65536)%Z.
    + destruct (Z.ltb_spec (z + 65536) 32768); lia.
    + apply (Z.mod_unique _ _ (-1)); lia.
  - rewrite Z.mod_small by lia. destruct (Z.ltb_spec z 32768); lia.
Qed.

Lemma wrap16_range z : (-32768 <= wrap16 z <= 32767)%Z.
Proof.
  unfold wrap16. pose proof (Z.mod_pos_bound z 65536 ltac:(lia)).
  destruct (Z.ltb_spec (z mod 65536) 32768); lia.
Qed.

Lemma Qtrunc_range v :
  (inject_Z (-32768) <= v <= inject_Z 32767)%Q ->
  (-32768 <= Qtrunc v <= 32767)%Z.
Proof.
  intros [Hlo Hhi]. unfold Qtrunc. destruct (Qltb v 0) eqn:E.
  - apply Qltb_lt in E. split.
    + rewrite <- (Qceiling_Z (-32768)). by apply Qceiling_resp_le.
    + etrans; [apply (Qceiling_resp_le v 0); by apply Qlt_le_weak|]. done.
  - apply Qltb_ge in E. split.
    + etrans; [|apply (Qfloor_resp_le 0 v E)]. done.
    + rewrite <- (Qfloor_Z 32767). by apply Qfloor_resp_le.
Qed.

Lemma clamp_fin q :
  exists s, clamp (Fin q) = Fin s /\ (inject_Z (-1) <= s <= inject_Z 1)%Q.
Proof.
  unfold clamp. cbn [Math_min lt].
  destruct (Qltb q (inject_Z 1)) eqn:E1; cbn [Math_max lt].
  - destruct (Qltb (inject_Z (-1)) q) eqn:E2.
    + exists q. split; [done|]. apply Qltb_lt in E1, E2. split; by apply Qlt_le_weak.
    + exists (inject_Z (-1)). split; [done|]. split; [apply Qle_refl | done].
  - change (Qltb (inject_Z (-1)) (inject_Z 1)) with true. cbn.
    exists (inject_Z 1). split; [done|]. split; [done | apply Qle_refl].
Qed.

Lemma scaled_of_clamped x s :
  clamp x = Fin s -> (inject_Z (-1) <= s <= inject_Z 1)%Q ->
  exists v, scaled x = Fin v /\ (inject_Z (-32768) <= v <= inject_Z 32767)%Q.
Proof.
  intros Hc [Hlo Hhi]. unfold scaled. rewrite Hc. cbn [lt].
  destruct (Qltb s (inject_Z 0)) eqn:E; cbn [mul].
  - apply Qltb_lt in E. eexists; split; [done|].
    unfold inject_Z in *. split; lra.
  - apply Qltb_ge in E. eexists; split; [done|].
    unfold inject_Z in *. split; lra.
Qed.

Example encodeSample_half : encodeSample (Fin (1 # 2)) = 16383%Z.
Proof. reflexivity. Qed.

Example encodeSample_too_low : encodeSample (Fin (-3 # 2)) = (-32768)%Z.
Proof. reflexivity. Qed.

Example encodeSample_too_high : encodeSample (Inf false) = 32767%Z.
Proof. reflexivity. Qed.

(** What the clamp prevents: twice full scale, converted unclamped, wraps. *)
Example ToInt16_wraps : ToInt16 (mul (Fin (inject_Z 2)) (Fin (inject_Z 32767))) = (-2)%Z.
Proof. reflexivity. Qed.

Lemma length_writeWav samples sampleRate :
  length (writeWav samples sampleRate) = 44 + 2 * length samples.
Proof.
  unfold writeWav. rewrite !length_app. cbn [length u32le u16le writeString map
    String.list_ascii_of_string].
  assert (length (flat_map (fun x => u16le (encodeSample x)) samples)
          = 2 * length samples) as ->; [|lia].
  induction samples as [|x xs IH]; simpl; lia.
Qed.

End Wav.

(** ** Promises and exceptions

    An awaited call either returns or throws; the computation threads a state
    [S] (a log of effects, or the module's variables).  [try_catch] is
    [try { ... } catch { ... }]. *)
Module Async.

Inductive exn := Error (message : string).

Inductive result (A : Type) := Returned (a : A) | Thrown (e : exn).
Arguments Returned {A} a.
Arguments Thrown {A} e.

Definition M (S A : Type) : Type := S -> S * result A.

Definition ret {S A} (a : A) : M S A := fun s => (s, Returned a).
Definition throw {S A} (e : exn) : M S A := fun s => (s, Thrown e).

Definition bind {S A B} (m : M S A) (k : A -> M S B) : M S B :=
  fun s => match m s with
           | (s', Returned a) => k a s'
           | (s', Thrown e) => (s', Thrown e)
           end.

Definition try_catch {S A} (body : M S A) (handler : exn -> M S A) : M S A :=
  fun s => match body s with
           | (s', Returned a) => (s', Returned a)
           | (s', Thrown e) => handler e s'
           end.

Definition get {S} : M S S := fun s => (s, Returned s).
Definition modify {S} (f : S -> S) : M S unit := fun s => (f s, Returned tt).

End Async.

Notation "x <- m ;; k" := (Async.bind m (fun x => k))
  (at level 100, m at next level, right associativity).

(** ** TempFileManager, cleanup: [cleanupFiles] of speak.ts *)
Module TempFiles.
Import Async.

(** The file system as cleanup sees it: the paths that exist, and the paths
    whose removal the system refuses (no permission, a directory, ...). *)
Record disk := { present : gset string; locked : gset string }.

Definition remove (file : string) (d : disk) : disk :=
  {| present := present d ∖ {[file]}; locked := locked d |}.

Definition create (file : string) (d : disk) : disk :=
  {| present := present d ∪ {[file]}; locked := locked d |}.

(** [unlink(file)] of fs/promises: rejects when the path does not exist or
    cannot be removed. *)
Definition unlink (file : string) : M disk unit :=
  fun d =>
    if decide (file ∈ present d) then
      if decide (file ∈ locked d) then (d, Thrown (Error "EPERM"))
      else (remove file d, Returned tt)
    else (d, Thrown (Error "ENOENT")).

(** [files.map((file) => unlink(file).catch(() => {}))]: the settled promises,
    one per file.  The removals are independent of each other; they are
    taken in array order. *)
Fixpoint unlink_each (files : list string) (d : disk) : disk * list (result unit) :=
  match files with
  | [] => (d, [])
  | file :: rest =>
      let '(d1, r) := try_catch (unlink file) (fun _ => ret tt) d in
      let '(d2, rs) := unlink_each rest d1 in
      (d2, r :: rs)
  end.

(** [Promise.all]: rejects with the first rejection, if there is one. *)
Fixpoint Promise_all (ps : list (result unit)) : result unit :=
  match ps with
  | [] => Returned tt
  | Returned _ :: rest => Promise_all rest
  | Thrown e :: _ => Thrown e
  end.

Definition cleanupFiles (files : list string) : M disk unit :=
  fun d =>
    match files with
    | [] => (d, Returned tt)
    | _ => let '(d', ps) := unlink_each files d in (d', Promise_all ps)
    end.

Lemma unlink_caught file d :
  exists d1, try_catch (unlink file) (fun _ => ret tt) d = (d1, Returned tt)
    /\ present d1 = present d ∖ ({[file]} ∖ locked d)
    /\ locked d1 = locked d.
Proof.
  unfold try_catch, unlink, ret. repeat case_decide.
  - exists d. split; [done|]. split; [set_solver | done].
  - exists (remove file d). split; [done|]. split; [set_solver | done].
  - exists d. split; [done|]. split; [set_solver | done].
Qed.

Lemma unlink_each_fst files d :
  present (unlink_each files d).1 = present d ∖ (list_to_set files ∖ locked d)
  /\ locked (unlink_each files d).1 = locked d.
Proof.
  revert d. induction files as [|f fs IH]; intros d; simpl.
  - split; [set_solver | done].
  - destruct (unlink_caught f d) as (d1 & -> & Hp & Hl).
    specialize (IH d1). destruct (unlink_each fs d1) as [d2 rs]. simpl in *.
    destruct IH as [IH1 IH2]. rewrite IH1, IH2, Hp, Hl. split; [|done].
    apply set_eq. intros x. set_unfold. naive_solver.
Qed.

Lemma unlink_each_settled files d :
  Forall (fun r => r = Returned tt) (unlink_each files d).2.
Proof.
  revert d. induction files as [|f fs IH]; intros d; simpl; [constructor|].
  destruct (unlink_caught f d) as (d1 & -> & _).
  specialize (IH d1). destruct (unlink_each fs d1) as [d2 rs]. simpl in *.
  by constructor.
Qed.

Lemma Promise_all_settled ps :
  Forall (fun r => r = Returned tt) ps -> Promise_all ps = Returned tt.
Proof. induction 1 as [|r ps -> _ IH]; simpl; done. Qed.

Lemma cleanupFiles_resolves files d : (cleanupFiles files d).2 = Returned tt.
Proof.
  unfold cleanupFiles. destruct files as [|f fs]; [done|].
  pose proof (unlink_each_settled (f :: fs) d) as H.
  destruct (unlink_each (f :: fs) d) as [d' ps]. simpl in *.
  by apply Promise_all_settled.
Qed.

Lemma cleanupFiles_disk files d :
  present (cleanupFiles files d).1 = present d ∖ (list_to_set files ∖ locked d)
  /\ locked (cleanupFiles files d).1 = locked d.
Proof.
  unfold cleanupFiles. destruct files as [|f fs].
  - simpl. split; [set_solver | done].
  - pose proof (unlink_each_fst (f :: fs) d) as H.
    destruct (unlink_each (f :: fs) d) as [d' ps]. done.
Qed.

Lemma disk_eq d1 d2 : present d1 = present d2 -> locked d1 = locked d2 -> d1 = d2.
Proof. destruct d1, d2; simpl; congruence. Qed.

(** C9: cleanup never raises, whatever the paths and the disk: every
    deletion error is swallowed on its own, so each file that can be removed
    is removed even when other deletions fail, files not in the list are left
    alone, and a second cleanup of the same list, which finds the files
    already deleted, resolves as well and changes nothing. *)
Theorem cleanupFiles_never_raises (files : list string) (d : disk) :
  let d1 := (cleanupFiles files d).1 in
  (cleanupFiles files d).2 = Returned tt /\
  (forall file, file ∈ files -> file ∉ locked d -> file ∉ present d1) /\
  (forall file, file ∉ files -> (file ∈ present d1 <-> file ∈ present d)) /\
  cleanupFiles files d1 = (d1, Returned tt).
Proof.
  intros d1. pose proof (cleanupFiles_disk files d) as [Hp Hl]. fold d1 in Hp, Hl.
  split; [apply cleanupFiles_resolves|].
  split; [|split].
  - intros file Hin Hnl. rewrite Hp. set_unfold. naive_solver.
  - intros file Hnin. rewrite Hp. set_unfold. naive_solver.
  - pose proof (cleanupFiles_disk files d1) as [Hp1 Hl1].
    pose proof (cleanupFiles_resolves files d1) as Hr.
    destruct (cleanupFiles files d1) as [d2 r]. simpl in *. subst r. f_equal.
    apply disk_eq; [|congruence].
    rewrite Hp1, Hp, Hl. apply set_eq. intros x. set_unfold. naive_solver.
Qed.

Lemma cleanupFiles_never_raises_witness :
  "/tmp/b.wav" ∉ present
    (cleanupFiles ["/tmp/a.wav"; "/tmp/b.wav"; "/tmp/c.wav"]
       {| present := {["/tmp/a.wav"; "/tmp/b.wav"]}; locked := {["/tmp/a.wav"]} |}).1.
Proof.
  apply (proj1 (proj2 (cleanupFiles_never_raises
           ["/tmp/a.wav"; "/tmp/b.wav"; "/tmp/c.wav"]
           {| present := {["/tmp/a.wav"; "/tmp/b.wav"]}; locked := {["/tmp/a.wav"]} |}))).
  - constructor 2. constructor 1.
  - simpl. intros H. apply elem_of_singleton in H. discriminate.
Defined.

End TempFiles.

(** ** PlayerFallbackEngine: [playAudio] and [tryPlayers] of audio.ts *)
Module Player.
Import Async.

Record player := { cmd : list string; name : string }.

(** What becomes of one [Bun.spawn]: the process exits with a code, or the
    spawn itself throws (the executable is not there). *)
Inductive outcome := Exited (code : Z) | SpawnFailed.

(** The variables of the audio module, with the commands attempted so far
    and the toasts shown. *)
Record audio := {
  lastWorkingPlayer : option string;
  attempts : list (list string);
  toasts : list string }.

Definition set_lastWorkingPlayer (v : option string) (st : audio) : audio :=
  {| lastWorkingPlayer := v; attempts := attempts st; toasts := toasts st |}.

Definition add_attempt (c : list string) (st : audio) : audio :=
  {| lastWorkingPlayer := lastWorkingPlayer st;
     attempts := attempts st ++ [c]; toasts := toasts st |}.

Definition add_toast (m : string) (st : audio) : audio :=
  {| lastWorkingPlayer := lastWorkingPlayer st;
     attempts := attempts st; toasts := toasts st ++ [m] |}.

Definition ffplay (filePath : string) : player :=
  {| cmd := ["ffplay"; "-autoexit"; "-nodisp"; "-loglevel"; "quiet"; filePath];
     name := "ffplay" |}.

(** The candidate list [playAudio] builds for [process.platform]. *)
Definition players_for (platform filePath : string) : list player :=
  if String.eqb platform "darwin" then
    [ {| cmd := ["afplay"; filePath]; name := "afplay" |}; ffplay filePath ]
  else if String.eqb platform "win32" then
    [ {| cmd := ["powershell"; "-c";
                 "(New-Object Media.SoundPlayer '" +:+ filePath +:+ "').PlaySync()"];
         name := "Media.SoundPlayer" |};
      ffplay filePath;
      {| cmd := ["wmplayer"; "/close"; "/prefetch:1"; filePath];
         name := "Windows Media Player" |} ]
  else
    [ {| cmd := ["paplay"; filePath]; name := "paplay" |};
      {| cmd := ["aplay"; filePath]; name := "aplay" |};
      {| cmd := ["mpv"; "--no-video"; "--no-terminal"; filePath]; name := "mpv" |};
      ffplay filePath ].

Definition includes (l : list string) (s : string) : bool := existsb (String.eqb s) l.

Definition getInstallHelp (platform : string) (failedPlayers : list string) : string :=
  if String.eqb platform "darwin" then
    if includes failedPlayers "ffplay"
    then "TTS audio failed. Install ffmpeg: brew install ffmpeg"
    else "TTS audio playback failed. Try: brew install ffmpeg"
  else if String.eqb platform "win32" then
    if includes failedPlayers "ffplay"
    then "TTS audio failed. Install ffmpeg: winget install ffmpeg"
    else "TTS audio playback failed. Try: winget install ffmpeg.Gyan"
  else if String.eqb platform "linux" then
    if includes failedPlayers "paplay" && includes failedPlayers "aplay"
    then "TTS audio failed. Install: sudo apt install pulseaudio-utils alsa-utils"
    else if includes failedPlayers "ffplay" && includes failedPlayers "mpv"
    then "TTS audio failed. Install: sudo apt install ffmpeg"
    else "TTS audio playback failed. Install: sudo apt install pulseaudio-utils alsa-utils ffmpeg"
  else "TTS audio playback failed. Install ffmpeg or a system audio player".

(** A string in a condition: the empty string is falsy. *)
Definition truthy (s : string) : bool := negb (String.eqb s "").

Section Engine.

(** The environment: what the k-th command attempted in this process does. *)
Variable world : nat -> outcome.

(** [runCommand]: no [try] around [Bun.spawn], so a spawn failure leaves
    the function as an exception. *)
Definition runCommand (c : list string) : M audio Z :=
  fun st =>
    match world (length (attempts st)) with
    | Exited code => (add_attempt c st, Returned code)
    | SpawnFailed => (add_attempt c st, Thrown (Error "spawn failed"))
    end.

(** The cache-hit block of [tryPlayers]; [true] when the cached player has
    played and the function returns. *)
Definition tryCached (players : list player) : M audio bool :=
  st <- get ;;
  match lastWorkingPlayer st with
  | Some last =>
      if truthy last then
        match List.find (fun p => String.eqb (name p) last) players with
        | Some cached =>
            status <- runCommand (cmd cached) ;;
            if (status =? 0)%Z then ret true
            else (_ <- modify (set_lastWorkingPlayer None) ;; ret false)
        | None => ret false
        end
      else ret false
  | None => ret false
  end.

(** The loop over the candidates; [None] when one has played and the
    function returns, else the names gathered in [errors]. *)
Fixpoint tryInOrder (players : list player) (errors : list string)
  : M audio (option (list string)) :=
  match players with
  | [] => ret (Some errors)
  | player :: rest =>
      status <- runCommand (cmd player) ;;
      if (status =? 0)%Z
      then (_ <- modify (set_lastWorkingPlayer (Some (name player))) ;; ret None)
      else tryInOrder rest (errors ++ [name player])
  end.

(** [client] is [None] when no toast client was passed, else tells whether
    [showToast] resolves. *)
Definition showToast (client : option bool) (message : string) : M audio unit :=
  match client with
  | Some ok =>
      try_catch
        (_ <- modify (add_toast message) ;;
         if ok then ret tt else throw (Error "toast failed"))
        (fun _ => ret tt)
  | None => ret tt
  end.

Definition tryPlayers (players : list player) (platform : string)
    (client : option bool) : M audio unit :=
  hit <- tryCached players ;;
  if hit then ret tt
  else
    failed <- tryInOrder players [] ;;
    match failed with
    | None => ret tt
    | Some errors =>
        let errorMsg := getInstallHelp platform errors in
        _ <- showToast client errorMsg ;;
        throw (Error ("All audio players failed: " +:+ String.concat ", " errors))
    end.

Definition playAudio (platform filePath : string) (client : option bool)
  : M audio unit :=
  tryPlayers (players_for platform filePath) platform client.

(** *** What one call does *)

Definition extend (cs : list (list string)) (st : audio) : audio :=
  {| lastWorkingPlayer := lastWorkingPlayer st;
     attempts := attempts st ++ cs; toasts := toasts st |}.

(** The attempts numbered [n], [n+1], ..., [n+m-1] all exit non-zero. *)
Definition all_fail (n m : nat) : Prop :=
  forall k, k < m -> exists c, world (n + k) = Exited c /\ c <> 0%Z.

Lemma all_fail_S n m :
  (exists c, world n = Exited c /\ c <> 0%Z) -> all_fail (S n) m -> all_fail n (S m).
Proof.
  intros H0 H k Hk. destruct k as [|k].
  - by rewrite Nat.add_0_r.
  - rewrite Nat.add_succ_r. apply H. lia.
Qed.

Lemma extend_add c cs st : extend cs (add_attempt c st) = extend (c :: cs) st.
Proof. unfold extend, add_attempt. simpl. by rewrite <- app_assoc. Qed.

Lemma tryInOrder_spec players errors st :
  match tryInOrder players errors st with
  | (st', Returned None) =>
      exists pre p post, players = pre ++ p :: post /\
        all_fail (length (attempts st)) (length pre) /\
        world (length (attempts st) + length pre) = Exited 0 /\
        st' = set_lastWorkingPlayer (Some (name p)) (extend (map cmd (pre ++ [p])) st)
  | (st', Returned (Some errs)) =>
      all_fail (length (attempts st)) (length players) /\
      errs = errors ++ map name players /\
      st' = extend (map cmd players) st
  | (st', Thrown _) =>
      exists pre p post, players = pre ++ p :: post /\
        all_fail (length (attempts st)) (length pre) /\
        world (length (attempts st) + length pre) = SpawnFailed /\
        st' = extend (map cmd (pre ++ [p])) st
  end.
Proof.
  revert errors st. induction players as [|p ps IH]; intros errors st.
  - simpl. split; [intros k Hk; lia|]. split; [by rewrite app_nil_r|].
    destruct st; unfold extend; simpl. by rewrite app_nil_r.
  - cbn [tryInOrder]. unfold bind at 1. unfold runCommand.
    destruct (world (length (attempts st))) as [code|] eqn:Ew.
    + destruct (Z.eqb_spec code 0) as [->|Hne].
      * simpl. exists [], p, ps. split; [done|]. split; [intros k Hk; simpl in Hk; lia|].
        split; [by rewrite Nat.add_0_r|]. done.
      * specialize (IH (errors ++ [name p]) (add_attempt (cmd p) st)).
        assert (length (attempts (add_attempt (cmd p) st)) = S (length (attempts st))) as Hn.
        { simpl. rewrite length_app. simpl. lia. }
        rewrite Hn in IH.
        destruct (tryInOrder ps _ _) as [st' [[errs|]|e]].
        -- destruct IH as (Hall & -> & ->). split; [|split].
           ++ apply all_fail_S; [eauto | done].
           ++ simpl. by rewrite <- app_assoc.
           ++ apply extend_add.
        -- destruct IH as (pre & q & post & -> & Hall & Hq & ->).
           exists (p :: pre), q, post. split; [done|]. split; [|split].
           ++ apply all_fail_S; [eauto | done].
           ++ simpl. by rewrite Nat.add_succ_r.
           ++ by rewrite extend_add.
        -- destruct IH as (pre & q & post & -> & Hall & Hq & ->).
           exists (p :: pre), q, post. split; [done|]. split; [|split].
           ++ apply all_fail_S; [eauto | done].
           ++ simpl. by rewrite Nat.add_succ_r.
           ++ by rewrite extend_add.
    + exists [], p, ps. split; [done|]. split; [intros k Hk; simpl in Hk; lia|].
      split; [by rewrite Nat.add_0_r | done].
Qed.

Lemma showToast_spec client message st :
  exists st', showToast client message st = (st', Returned tt) /\
    lastWorkingPlayer st' = lastWorkingPlayer st /\ attempts st' = attempts st.
Proof.
  destruct client as [[]|]; cbn; eauto.
Qed.

(** The candidate the cache designates: the first one of that name. *)
Definition cached_player (players : list player) (st : audio) : option player :=
  match lastWorkingPlayer st with
  | Some last =>
      if truthy last
      then List.find (fun p => String.eqb (name p) last) players
      else None
  | None => None
  end.

Lemma tryCached_cold players st :
  cached_player players st = None -> tryCached players st = (st, Returned false).
Proof.
  unfold cached_player, tryCached, bind, get. intros H.
  destruct (lastWorkingPlayer st) as [last|]; [|done].
  destruct (truthy last); [|done]. by rewrite H.
Qed.

Lemma tryCached_warm players st cached :
  cached_player players st = Some cached ->
  tryCached players st =
    match world (length (attempts st)) with
    | Exited code =>
        if (code =? 0)%Z then (add_attempt (cmd cached) st, Returned true)
        else (set_lastWorkingPlayer None (add_attempt (cmd cached) st), Returned false)
    | SpawnFailed => (add_attempt (cmd cached) st, Thrown (Error "spawn failed"))
    end.
Proof.
  unfold cached_player, tryCached, bind, get. intros H.
  destruct (lastWorkingPlayer st) as [last|]; [|done].
  destruct (truthy last); [|done]. rewrite H. unfold runCommand.
  destruct (world _) as [code|]; [|done]. by destruct (code =? 0)%Z.
Qed.

(** The end of [tryPlayers], after the loop. *)
Definition finish (platform : string) (client : option bool)
    (r : audio * result (option (list string))) : audio * result unit :=
  match r with
  | (st, Returned None) => (st, Returned tt)
  | (st, Returned (Some errors)) =>
      ((showToast client (getInstallHelp platform errors) st).1,
       Thrown (Error ("All audio players failed: " +:+ String.concat ", " errors)))
  | (st, Thrown e) => (st, Thrown e)
  end.

Lemma tryPlayers_unfold players platform client st :
  tryPlayers players platform client st =
    match tryCached players st with
    | (st1, Returned true) => (st1, Returned tt)
    | (st1, Returned false) => finish platform client (tryInOrder players [] st1)
    | (st1, Thrown e) => (st1, Thrown e)
    end.
Proof.
  unfold tryPlayers, bind at 1.
  destruct (tryCached players st) as [st1 [[]|e]]; [done| |done].
  unfold bind at 1, finish.
  destruct (tryInOrder players [] st1) as [st2 [[errors|]|e]]; [|done|done].
  unfold bind. destruct (showToast_spec client (getInstallHelp platform errors) st2)
    as (st3 & -> & _). done.
Qed.

Lemma last_extend cs c st : last (attempts (extend (cs ++ [c]) st)) = Some c.
Proof. simpl. rewrite app_assoc. apply last_snoc. Qed.

(** A call that succeeds leaves the name of the candidate that played in the
    cache; that candidate's command is the last one attempted and it exited
    with code 0. *)
Lemma tryPlayers_success players platform client st st1 :
  tryPlayers players platform client st = (st1, Returned tt) ->
  exists x, In x players /\ lastWorkingPlayer st1 = Some (name x) /\
    last (attempts st1) = Some (cmd x) /\
    exists n, S n = length (attempts st1) /\ world n = Exited 0.
Proof.
  rewrite tryPlayers_unfold.
  destruct (cached_player players st) as [cached|] eqn:Ec.
  - rewrite (tryCached_warm _ _ _ Ec).
    unfold cached_player in Ec.
    destruct (lastWorkingPlayer st) as [lw|] eqn:El; [|done].
    destruct (truthy lw); [|done]. apply find_some in Ec as [Hin Hname].
    apply String.eqb_eq in Hname.
    destruct (world (length (attempts st))) as [code|] eqn:Ew; [|done].
    destruct (Z.eqb_spec code 0) as [->|Hne].
    + intros [= <-]. exists cached. split; [done|]. simpl. rewrite El, Hname.
      split; [done|]. split; [apply last_snoc|].
      exists (length (attempts st)). split; [|done]. rewrite length_app. simpl. lia.
    + pose proof (tryInOrder_spec players []
         (set_lastWorkingPlayer None (add_attempt (cmd cached) st))) as H.
      destruct (tryInOrder players [] _) as [st2 [[errors|]|e]]; simpl; [done| |done].
      intros [= <-]. destruct H as (pre & p & post & -> & _ & Hp & ->).
      exists p. split; [apply in_elt|]. split; [done|]. split; [|eexists; split; [|exact Hp]].
      * rewrite map_app. apply last_extend.
      * simpl. rewrite !length_app, length_map, length_app. simpl. lia.
  - rewrite (tryCached_cold _ _ Ec).
    pose proof (tryInOrder_spec players [] st) as H.
    destruct (tryInOrder players [] st) as [st2 [[errors|]|e]]; simpl; [done| |done].
    intros [= <-]. destruct H as (pre & p & post & -> & _ & Hp & ->).
    exists p. split; [apply in_elt|]. split; [done|]. split; [|eexists; split; [|exact Hp]].
    * rewrite map_app. apply last_extend.
    * simpl. rewrite !length_app, length_map, length_app. simpl. lia.
Qed.

(** What the call after a success does, [st1] being the state the success
    left and [cached] the candidate its cache designates. *)
Lemma tryPlayers_warm players platform client st1 cached :
  cached_player players st1 = Some cached ->
  let n := length (attempts st1) in
  let next := tryPlayers players platform client st1 in
  (exists rest, attempts next.1 = attempts st1 ++ cmd cached :: rest) /\
  (world n = Exited 0 -> next = (add_attempt (cmd cached) st1, Returned tt)) /\
  (forall c, world n = Exited c -> c <> 0%Z ->
     match next with
     | (st2, Returned _) =>
         exists pre p post, players = pre ++ p :: post /\
           all_fail (S n) (length pre) /\
           world (S n + length pre) = Exited 0 /\
           attempts st2 = attempts st1 ++ cmd cached :: map cmd (pre ++ [p]) /\
           lastWorkingPlayer st2 = Some (name p)
     | (st2, Thrown e) =>
         lastWorkingPlayer st2 = None /\
         ((all_fail (S n) (length players) /\
           attempts st2 = attempts st1 ++ cmd cached :: map cmd players /\
           e = Error ("All audio players failed: "
                      +:+ String.concat ", " (map name players)))
          \/ exists k, k < length players /\ world (S n + k) = SpawnFailed)
     end).
Proof.
  intros Hc n next. subst next. rewrite tryPlayers_unfold, (tryCached_warm _ _ _ Hc).
  fold n.
  assert (length (attempts (set_lastWorkingPlayer None (add_attempt (cmd cached) st1)))
          = S n) as Hn.
  { simpl. rewrite length_app. simpl. lia. }
  pose proof (tryInOrder_spec players []
     (set_lastWorkingPlayer None (add_attempt (cmd cached) st1))) as H.
  rewrite Hn in H.
  destruct (world n) as [code|] eqn:Ew.
  - destruct (Z.eqb_spec code 0) as [->|Hne].
    + split; [by exists []|]. split; [done|]. intros c [= <-] Hc0. done.
    + destruct (tryInOrder players [] _) as [st2 [[errors|]|e]]; cbn [finish].
      * destruct H as (Hall & -> & ->). cbn [app].
        destruct (showToast_spec client
          (getInstallHelp platform (map name players))
          (extend (map cmd players)
             (set_lastWorkingPlayer None (add_attempt (cmd cached) st1))))
          as (st3 & E3 & Hl3 & Ha3).
        rewrite E3. cbn [fst snd]. simpl in Hl3, Ha3.
        split; [|split; [by intros [= ?]; subst|]].
        -- exists (map cmd players). rewrite Ha3. by rewrite <- app_assoc.
        -- intros c _ _. split; [done|]. left. split; [done|].
           split; [|done]. rewrite Ha3. by rewrite <- app_assoc.
      * destruct H as (pre & p & post & -> & Hall & Hp & ->). simpl.
        split; [|split; [by intros [= ?]; subst|]].
        -- eexists. by rewrite <- app_assoc.
        -- intros c _ _. exists pre, p, post. split; [done|]. split; [done|].
           split; [done|]. split; [|done]. by rewrite <- app_assoc.
      * destruct H as (pre & p & post & -> & Hall & Hp & ->). simpl.
        split; [|split; [by intros [= ?]; subst|]].
        -- eexists. by rewrite <- app_assoc.
        -- intros c _ _. split; [done|]. right. exists (length pre).
           split; [|done]. rewrite length_app. simpl. lia.
  - split; [by exists []|]. done.
Qed.

End Engine.

(** *** The cache across successive calls *)

Definition fresh : audio :=
  {| lastWorkingPlayer := None; attempts := []; toasts := [] |}.

(** C3, as stated, fails at its last part.  First scenario: aplay plays
    (attempts 0 and 1), then as cached player exits 1 (attempt 2), and in the
    fall-through of that same call paplay exits 1 and aplay exits 0 (attempts
    3 and 4): the cache holds aplay again and the next call (attempt 5)
    retries it first.  Second scenario: paplay, first in declared order,
    plays, then nothing plays any more: the cache is cleared and the call
    after the failure starts the declared order, that is with paplay. *)
Lemma tryPlayers_retries_failed_player_first :
  let players := players_for "linux" "/tmp/a.wav" in
  let paplay := ["paplay"; "/tmp/a.wav"] in
  let aplay := ["aplay"; "/tmp/a.wav"] in
  (let world k := match k with 0 | 2 | 3 => Exited 1 | _ => Exited 0 end in
   let call st := (tryPlayers world players "linux" None st).1 in
   lastWorkingPlayer (call fresh) = Some "aplay" /\
   attempts (call (call fresh)) = attempts (call fresh) ++ [aplay; paplay; aplay] /\
   attempts (call (call (call fresh))) = attempts (call (call fresh)) ++ [aplay]) /\
  (let world k := match k with 0 => Exited 0 | _ => Exited 1 end in
   let call st := (tryPlayers world players "linux" None st).1 in
   lastWorkingPlayer (call fresh) = Some "paplay" /\
   (exists rest, attempts (call (call fresh)) = attempts (call fresh) ++ paplay :: rest) /\
   lastWorkingPlayer (call (call fresh)) = None /\
   exists rest, attempts (call (call (call fresh)))
                = attempts (call (call fresh)) ++ paplay :: rest).
Proof.
  split.
  - split; [reflexivity|]. split; reflexivity.
  - split; [reflexivity|]. split; [eexists; reflexivity|].
    split; [reflexivity|]. eexists; reflexivity.
Qed.

Lemma players_for_named platform filePath :
  Forall (fun p => name p <> "") (players_for platform filePath).
Proof.
  unfold players_for. repeat case_match; repeat constructor; discriminate.
Qed.

(** The candidates [playAudio] builds on one platform have the same names in
    the same order, whatever the file. *)
Lemma players_for_names platform filePath filePath' :
  map name (players_for platform filePath) = map name (players_for platform filePath').
Proof. unfold players_for. by repeat case_match. Qed.

Lemma find_name_some (players : list player) (last : string) :
  (exists y, In y players /\ name y = last) ->
  exists cached, List.find (fun p => String.eqb (name p) last) players = Some cached.
Proof.
  intros (y & Hin & Hy).
  destruct (List.find (fun p => String.eqb (name p) last) players) as [cached|] eqn:Ef;
    [by exists cached|].
  pose proof (find_none _ _ Ef y Hin) as H. simpl in H.
  rewrite Hy, String.eqb_refl in H. done.
Qed.

(** C3, amended: after a playback succeeds with candidate X, the cache holds
    X's name, and the next call, whatever the candidate list it is given (the
    list [playAudio] builds for another file, on the same platform, has a
    candidate of that name), attempts first the candidate found by that name
    in its list; if it exits 0 the call returns at once; if it exits
    non-zero, the cache is cleared and the same call goes on to attempt every
    candidate in declared order (X included), stops at the first that exits 0
    and sets the cache to its name, or raises with the cache left empty.  So
    the call after X's failure attempts first whichever candidate won that
    fall-through, or starts the declared order if none did.  A next call
    whose list has no candidate of that name goes through its list in
    declared order. *)
Theorem tryPlayers_cache (world : nat -> outcome) (players players' : list player)
    (platform : string) (client : option bool) (st st1 : audio) :
  tryPlayers world players platform client st = (st1, Returned tt) ->
  exists x,
    In x players /\ last (attempts st1) = Some (cmd x) /\
    lastWorkingPlayer st1 = Some (name x) /\
    ((exists y, In y players' /\ name y = name x) ->
     exists cached,
       List.find (fun p => String.eqb (name p) (name x)) players' = Some cached) /\
    (forall filePath filePath',
       players = players_for platform filePath ->
       players' = players_for platform filePath' ->
       name x <> "" /\
       exists cached,
         List.find (fun p => String.eqb (name p) (name x)) players' = Some cached) /\
    (name x <> "" ->
     let n := length (attempts st1) in
     let next := tryPlayers world players' platform client st1 in
     match List.find (fun p => String.eqb (name p) (name x)) players' with
     | Some cached =>
       In cached players' /\ name cached = name x /\
       (exists rest, attempts next.1 = attempts st1 ++ cmd cached :: rest) /\
       (world n = Exited 0 -> next = (add_attempt (cmd cached) st1, Returned tt)) /\
       (forall c, world n = Exited c -> c <> 0%Z ->
          match next with
          | (st2, Returned _) =>
              exists pre p post, players' = pre ++ p :: post /\
                all_fail world (S n) (length pre) /\
                world (S n + length pre) = Exited 0 /\
                attempts st2 = attempts st1 ++ cmd cached :: map cmd (pre ++ [p]) /\
                lastWorkingPlayer st2 = Some (name p)
          | (st2, Thrown e) =>
              lastWorkingPlayer st2 = None /\
              ((all_fail world (S n) (length players') /\
                attempts st2 = attempts st1 ++ cmd cached :: map cmd players' /\
                e = Error ("All audio players failed: "
                           +:+ String.concat ", " (map name players')))
               \/ exists k, k < length players' /\ world (S n + k) = SpawnFailed)
          end)
     | None => next = finish platform client (tryInOrder world players' [] st1)
     end).
Proof.
  intros Hok.
  destruct (tryPlayers_success world players platform client st st1 Hok)
    as (x & Hin & Hl & Hlast & _).
  exists x. split; [done|]. split; [done|]. split; [done|].
  split; [apply find_name_some|]. split.
  - intros filePath filePath' -> ->. split.
    + pose proof (players_for_named platform filePath) as Hn.
      rewrite Forall_forall in Hn. apply Hn. by apply list_elem_of_In.
    + apply find_name_some.
      assert (In (name x) (map name (players_for platform filePath'))) as Hx.
      { rewrite (players_for_names platform filePath' filePath). by apply in_map. }
      apply in_map_iff in Hx as (y & Hy & Hiny). by exists y.
  - intros Hname n next.
    assert (cached_player players' st1
            = List.find (fun p => String.eqb (name p) (name x)) players') as Hc.
    { unfold cached_player. rewrite Hl. unfold truthy.
      apply String.eqb_neq in Hname. by rewrite Hname. }
    destruct (List.find (fun p => String.eqb (name p) (name x)) players')
      as [cached|] eqn:Ef.
    + apply find_some in Ef as [Hinc Hnc]. apply String.eqb_eq in Hnc.
      split; [done|]. split; [done|]. by apply tryPlayers_warm.
    + subst next. by rewrite tryPlayers_unfold, (tryCached_cold _ _ _ Hc).
Qed.

Lemma tryPlayers_cache_witness :
  let world := fun k : nat => match k with 0 => Exited 1 | _ => Exited 0 end in
  let st1 := (playAudio world "linux" "/tmp/a.wav" None fresh).1 in
  lastWorkingPlayer st1 = Some "aplay" /\
  attempts (playAudio world "linux" "/tmp/b.wav" None st1).1
  = attempts st1 ++ [["aplay"; "/tmp/b.wav"]].
Proof.
  intros world st1.
  destruct (tryPlayers_cache world (players_for "linux" "/tmp/a.wav")
              (players_for "linux" "/tmp/b.wav") "linux" None fresh st1 eq_refl)
    as (x & Hin & _ & Hl & _ & _ & Hnext).
  assert (name x = "aplay") as Hx.
  { change (Some "aplay" = Some (name x)) in Hl. by injection Hl. }
  split; [reflexivity|].
  rewrite Hx in Hnext. specialize (Hnext ltac:(discriminate)).
  cbv zeta in Hnext.
  change (List.find (fun p => String.eqb (name p) "aplay")
            (players_for "linux" "/tmp/b.wav"))
    with (Some {| cmd := ["aplay"; "/tmp/b.wav"]; name := "aplay" |}) in Hnext.
  destruct Hnext as (_ & _ & _ & H0 & _).
  unfold playAudio. by rewrite (H0 eq_refl).
Defined.

(** With exit codes only and nothing cached, a call raises exactly when every
    candidate exits non-zero, and the error lists their names. *)
Lemma tryPlayers_raises_iff world players platform client st e :
  cached_player players st = None ->
  (forall k, world k <> SpawnFailed) ->
  (tryPlayers world players platform client st).2 = Thrown e <->
  all_fail world (length (attempts st)) (length players) /\
  e = Error ("All audio players failed: " +:+ String.concat ", " (map name players)).
Proof.
  intros Hc Hw. rewrite tryPlayers_unfold, (tryCached_cold _ _ _ Hc).
  pose proof (tryInOrder_spec world players [] st) as H.
  destruct (tryInOrder world players [] st) as [st' [[errs|]|e']]; cbn [finish snd].
  - destruct H as (Hall & -> & _). cbn [app]. split.
    + by intros [= <-].
    + by intros [_ ->].
  - destruct H as (pre & p & post & -> & _ & Hp & _). split; [done|].
    intros [Hall _]. destruct (Hall (length pre)) as (c & Hc' & Hne).
    + rewrite length_app. simpl. lia.
    + congruence.
  - destruct H as (pre & p & post & _ & _ & Hp & _). by destruct (Hw _ Hp).
Qed.

(** C4: paplay is not installed, so its spawn fails; aplay would play.  The
    call does not go on to aplay: the spawn error leaves [tryPlayers] at
    once, with one attempt made and no aggregate of names. *)
Theorem tryPlayers_spawn_failure_escapes :
  tryPlayers (fun k => match k with 0 => SpawnFailed | _ => Exited 0 end)
    (players_for "linux" "/tmp/a.wav") "linux" None fresh
  = ({| lastWorkingPlayer := None; attempts := [["paplay"; "/tmp/a.wav"]];
        toasts := [] |},
     Thrown (Error "spawn failed")).
Proof. reflexivity. Qed.

(** With exit codes only, the same list fails as the claim says. *)
Example tryPlayers_all_exit_1 :
  (tryPlayers (fun _ => Exited 1) (players_for "linux" "/tmp/a.wav") "linux" None fresh).2
  = Thrown (Error "All audio players failed: paplay, aplay, mpv, ffplay").
Proof. reflexivity. Qed.

End Player.

(** ** Configuration: types.ts *)
Module Types.

Inductive TtsBackend := local | http.
Inductive TtsSpeakMode := idle | message.
Inductive HttpFormat := wav | mp3 | pcm.

Record TtsConfig := {
  backend : TtsBackend;
  httpUrl : string;
  speakOn : TtsSpeakMode;
  voice : string;
  speed : Q;
  enabled : bool;
  httpFormat : HttpFormat;
  maxWorkers : Z }.

Definition DEFAULT_CONFIG : TtsConfig :=
  {| backend := local; httpUrl := "http://localhost:8880"; httpFormat := wav;
     speakOn := message; voice := "af_heart"; speed := 1; enabled := false;
     maxWorkers := 2 |}.

End Types.

(** ** The HTTP backend: [speakHttp] and [playAudio] of engine-http.ts *)
Module Http.
Import Async JsString Types.

(** What the call does to the outside, in order. *)
Inductive effect :=
| Fetch (url : string)
| ReadBody
| WriteFile (path : string)
| Shell (command : string).

(** The environment of one call.  [join] is [path.join] of the platform,
    which puts the separator of the platform between its arguments and
    normalises the result.  [fetch_response] is [None] when [fetch] rejects,
    else the [ok] flag of the response; the other fields tell whether the
    step resolves. *)
Record world := {
  platform : string;
  tmpdir : string;
  join : string -> string -> string;
  now : string;
  fetch_response : option bool;
  body_ok : bool;
  write_ok : bool;
  shell_ok : string -> bool }.

Definition dquote : string := String (Ascii.ascii_of_nat 34) EmptyString.

Section Call.
Variable w : world.

Definition step (e : effect) (ok : bool) : M (list effect) unit :=
  fun log => (log ++ [e], if ok then Returned tt else Thrown (Error "rejected")).

Definition fetch (url : string) : M (list effect) bool :=
  fun log =>
    (log ++ [Fetch url],
     match fetch_response w with
     | Some ok => Returned ok
     | None => Thrown (Error "fetch failed")
     end).

(** [await $`command`.quiet()]: throws when the command fails. *)
Definition shell (command : string) : M (list effect) unit :=
  step (Shell command) (shell_ok w command).

Definition playAudio (filePath : string) : M (list effect) unit :=
  try_catch
    (if String.eqb (platform w) "darwin" then shell ("afplay " +:+ filePath)
     else if String.eqb (platform w) "win32" then
       shell ("powershell -c " +:+ dquote +:+ "(New-Object Media.SoundPlayer '"
              +:+ filePath +:+ "').PlaySync()" +:+ dquote)
     else
       try_catch (shell ("paplay " +:+ filePath))
         (fun _ =>
            try_catch (shell ("aplay " +:+ filePath))
              (fun _ => shell ("mpv --no-video " +:+ filePath))))
    (fun _ => ret tt).

Definition speakHttp (text : jsstring) (config : TtsConfig) : M (list effect) unit :=
  if negb (enabled config) || falsy text || (length (trim text) =? 0)
  then ret tt
  else
    try_catch
      (ok <- fetch (httpUrl config +:+ "/v1/audio/speech") ;;
       if negb ok then ret tt
       else
         _ <- step ReadBody (body_ok w) ;;
         let ext := match httpFormat config with mp3 => "mp3" | _ => "wav" end in
         let audioPath :=
           join w (tmpdir w) ("opencode-tts-" +:+ now w +:+ "." +:+ ext) in
         _ <- step (WriteFile audioPath) (write_ok w) ;;
         playAudio audioPath)
      (fun _ => ret tt).

End Call.

Lemma try_catch_swallow {S} (body : M S unit) (s : S) :
  (try_catch body (fun _ => ret tt) s).2 = Returned tt.
Proof. unfold try_catch, ret. by destruct (body s) as [s' [[]|e]]. Qed.

(** C10: with the HTTP backend, a speak call never rejects, whatever the
    input and whatever the environment does: a disabled config or an empty or
    whitespace-only text returns at once with nothing done, and a failing
    fetch, a non-OK response, a failing write and a playback that fails with
    every player all end in a resolved promise. *)
Theorem speakHttp_never_rejects (w : world) (text : jsstring) (config : TtsConfig)
    (log : list effect) :
  (speakHttp w text config log).2 = Returned tt /\
  (enabled config = false \/ trim text = [] ->
   speakHttp w text config log = (log, Returned tt)).
Proof.
  unfold speakHttp. split.
  - destruct (negb (enabled config) || falsy text || (length (trim text) =? 0));
      [done | apply try_catch_swallow].
  - intros [H|H].
    + by rewrite H.
    + rewrite H. simpl. by rewrite !orb_true_r.
Qed.

Lemma speakHttp_never_rejects_witness :
  speakHttp {| platform := "linux"; tmpdir := "/tmp";
               join := fun dir file => dir +:+ "/" +:+ file;
               now := "1700000000000"; fetch_response := None;
               body_ok := false; write_ok := false; shell_ok := fun _ => false |}
            (of_string "   ") DEFAULT_CONFIG []
  = ([], Returned tt).
Proof.
  apply (proj2 (speakHttp_never_rejects _ (of_string "   ") DEFAULT_CONFIG [])).
  left. reflexivity.
Defined.

End Http.

(** ** StreamingPlaybackCoordinator: [speakLocal] of speak.ts

    [speakLocal] is an async function: it runs until it awaits something that
    has not settled, and resumes when that settles.  The model is the state
    of the suspended call together with the variables it shares with the
    rest of the process, and [react], which tells what one outside event
    does to them. *)
Module Local.
Import Async JsString TextChunker TempFiles Types.

(** How a generation ends: with the path of the file written, or failed. *)
Inductive task_result := Generated (path : string) | Failed.

Inductive event :=
| InitDone (ready : bool)                  (* [initLocalTts] settles *)
| TaskSettled (i : nat) (r : task_result)  (* the generation of chunk [i] settles *)
| PlayExited (ok : bool)                   (* [playAudio] resolves or rejects *)
| Cancel                                   (* [cancelLocalSpeak()] *)
| SetEnabled (b : bool)                    (* [config.enabled = b] *)
| PoolLost.                                (* a pool's startup has failed: [pool = null] *)

(** [playDirect] or [playFromWorkers] *)
Inductive mode := Direct | Workers.

(** Where the call is suspended. *)
Inductive point :=
| AwaitInit
| AwaitTask (m : mode) (i : nat)
| AwaitPlay (m : mode) (i : nat)
| Done (r : result unit).

(** What is observed of playback. *)
Inductive obs :=
| PlayStart (i : nat) (path : string)
| PlayEnd (i : nat) (ok : bool).

Record state := {
  pc : point;
  enabled : bool;                    (* [config.enabled] *)
  cancelToken : nat;
  localModel : bool;                 (* [localModel] is not null *)
  pool : bool;                       (* [pool] is not null *)
  settled : gmap nat task_result;    (* [tasks], those that have settled *)
  files : list string;
  fs : disk;
  produced : list string;            (* every file written for this call *)
  log : list obs }.

Definition set_pc (p : point) (st : state) : state :=
  {| pc := p; enabled := enabled st; cancelToken := cancelToken st;
     localModel := localModel st; pool := pool st; settled := settled st;
     files := files st; fs := fs st; produced := produced st; log := log st |}.

Definition set_enabled (b : bool) (st : state) : state :=
  {| pc := pc st; enabled := b; cancelToken := cancelToken st;
     localModel := localModel st; pool := pool st; settled := settled st;
     files := files st; fs := fs st; produced := produced st; log := log st |}.

(** [cancelLocalSpeak]: the token is bumped and the pool shut down. *)
Definition cancelLocalSpeak (st : state) : state :=
  {| pc := pc st; enabled := enabled st; cancelToken := cancelToken st + 1;
     localModel := localModel st; pool := false; settled := settled st;
     files := files st; fs := fs st; produced := produced st; log := log st |}.

(** The [catch] that [initLocalTts] puts on the [ready] of a pool: it sets
    [pool] to null, whichever pool is the current one by then.  It may run
    while this call waits, or have run before the call began (then
    [initLocalTts] returned the promise of that time, [poolInit], with [pool]
    already null); either way the call finds [pool] null when it reads it. *)
Definition pool_lost (st : state) : state :=
  {| pc := pc st; enabled := enabled st; cancelToken := cancelToken st;
     localModel := localModel st; pool := false; settled := settled st;
     files := files st; fs := fs st; produced := produced st; log := log st |}.

(** What the settling of [initLocalTts] leaves behind.  With
    [maxWorkers <= 0] it resolves to [true] exactly when [localModel] is set.
    With workers, a promise that resolves to [false] comes from the [catch],
    which has set [pool] to null; one that resolves to [true] sets
    [poolReady] only, so [pool] is what it was: the promise can resolve to
    [true] while [pool] is null. *)
Definition initLocalTts (maxWorkers : Z) (ready : bool) (st : state) : state :=
  {| pc := pc st; enabled := enabled st; cancelToken := cancelToken st;
     localModel := if (maxWorkers <=? 0)%Z then ready else localModel st;
     pool := if (maxWorkers <=? 0)%Z then pool st else pool st && ready;
     settled := settled st;
     files := files st; fs := fs st; produced := produced st; log := log st |}.

Definition push_file (path : string) (st : state) : state :=
  {| pc := pc st; enabled := enabled st; cancelToken := cancelToken st;
     localModel := localModel st; pool := pool st; settled := settled st;
     files := files st ++ [path]; fs := fs st; produced := produced st;
     log := log st |}.

Definition set_fs (d : disk) (st : state) : state :=
  {| pc := pc st; enabled := enabled st; cancelToken := cancelToken st;
     localModel := localModel st; pool := pool st; settled := settled st;
     files := files st; fs := d; produced := produced st; log := log st |}.

Definition add_log (o : obs) (st : state) : state :=
  {| pc := pc st; enabled := enabled st; cancelToken := cancelToken st;
     localModel := localModel st; pool := pool st; settled := settled st;
     files := files st; fs := fs st; produced := produced st;
     log := log st ++ [o] |}.

(** Modelled from the spec: the worker pool (the module behind
    [createWorkerPool]) is missing.  As the spec says of [enqueue], a task
    resolves when the chunk's audio is generated and written to a file, and
    it resolves with that file's path.  Without workers the file is the one
    [writeTempWav] has written. *)
Definition written (r : task_result) (st : state) : state :=
  match r with
  | Generated path =>
      {| pc := pc st; enabled := enabled st; cancelToken := cancelToken st;
         localModel := localModel st; pool := pool st; settled := settled st;
         files := files st; fs := create path (fs st);
         produced := produced st ++ [path]; log := log st |}
  | Failed => st
  end.

Definition settle (i : nat) (r : task_result) (st : state) : state :=
  {| pc := pc st; enabled := enabled st; cancelToken := cancelToken st;
     localModel := localModel st; pool := pool st;
     settled := <[i := r]> (settled st);
     files := files st; fs := fs st; produced := produced st; log := log st |}.

Section Call.

(** The trimmed text, [config.maxWorkers] and the token captured at the start
    of the call. *)
Variables (trimmed : jsstring) (maxWorkers : Z) (token : nat).

Definition chunks : list jsstring := splitText trimmed.

(** [!config.enabled || token !== cancelToken] *)
Definition stopped (st : state) : bool :=
  negb (enabled st) || negb (token =? cancelToken st).

(** The loop is left: [.finally(async () => { await cleanupFiles(files) })]
    runs, then the call settles as the loop did, or as the cleanup did if
    that rejected. *)
Definition leave (r : result unit) (st : state) : state :=
  let '(d, c) := cleanupFiles (files st) (fs st) in
  set_pc (Done (match c with Thrown e => Thrown e | Returned _ => r end))
         (set_fs d st).

(** From the settling of the awaited generation to the call of [playAudio]. *)
Definition on_result (m : mode) (i : nat) (r : task_result) (st : state) : state :=
  match r with
  | Failed => leave (Thrown (Error "generation failed")) st
  | Generated path =>
      let st := push_file path st in
      if stopped st then leave (Returned tt) st
      else set_pc (AwaitPlay m i) (add_log (PlayStart i path) st)
  end.

(** From the loop test to the await of the generation. *)
Definition loop_head (m : mode) (i : nat) (st : state) : state :=
  if i <? length chunks then
    if stopped st then leave (Returned tt) st
    else
      match m with
      | Direct => set_pc (AwaitTask Direct i) st
      | Workers =>
          match settled st !! i with
          | Some r => on_result Workers i r st
          | None => set_pc (AwaitTask Workers i) st
          end
      end
  else leave (Returned tt) st.

(** [speakLocal] from the return of [await initLocalTts(config)] on. *)
Definition after_init (ready : bool) (st : state) : state :=
  let st := initLocalTts maxWorkers ready st in
  if negb ready then set_pc (Done (Returned tt)) st
  else if negb (token =? cancelToken st) then set_pc (Done (Returned tt)) st
  else if length chunks =? 0 then set_pc (Done (Returned tt)) st
  else if negb (token =? cancelToken st) then set_pc (Done (Returned tt)) st
  else if (maxWorkers <=? 0)%Z && localModel st then loop_head Direct 0 st
  else if negb (pool st) || negb (token =? cancelToken st)
       then set_pc (Done (Returned tt)) st
  else loop_head Workers 0 st.

(** A task of the pool can settle once: it must exist and be pending. *)
Definition pending (j : nat) (st : state) : bool :=
  (j <? length chunks) && bool_decide (settled st !! j = None).

(** What one event does.  The shared variables change whatever the call is
    doing; the call itself moves only when the event is the one it awaits,
    and then runs on to its next await or to its end.  A task of the pool
    may settle while another one is awaited or played; without workers only
    the generation in progress can settle.  Once the call is done nothing
    of its state changes any more. *)
Definition react (st : state) (e : event) : state :=
  match pc st, e with
  | Done _, _ => st
  | _, Cancel => cancelLocalSpeak st
  | _, SetEnabled b => set_enabled b st
  | _, PoolLost => pool_lost st
  | AwaitInit, InitDone ready => after_init ready st
  | AwaitTask Direct i, TaskSettled j r =>
      if j =? i then on_result Direct i r (written r st) else st
  | AwaitTask Workers i, TaskSettled j r =>
      if pending j st then
        let st := settle j r (written r st) in
        if j =? i then on_result Workers i r st else st
      else st
  | AwaitPlay Workers i, TaskSettled j r =>
      if pending j st then settle j r (written r st) else st
  | AwaitPlay m i, PlayExited ok =>
      let st := add_log (PlayEnd i ok) st in
      if ok then loop_head m (S i) st
      else leave (Thrown (Error "All audio players failed")) st
  | _, _ => st
  end.

End Call.

(** [speakLocal(text, config)], called when the token is [cancelToken] and
    the disk is [d], up to its first await.  With workers, [initLocalTts]
    has returned with the pool it found or created, unless a pool's startup
    has failed, which is the event [PoolLost]. *)
Definition speakLocal (text : jsstring) (config : TtsConfig)
    (cancelToken : nat) (d : disk) : state :=
  let st := {| pc := AwaitInit; enabled := Types.enabled config;
               cancelToken := cancelToken; localModel := false;
               pool := negb (Types.maxWorkers config <=? 0)%Z;
               settled := ∅; files := []; fs := d; produced := []; log := [] |} in
  if negb (Types.enabled config) then set_pc (Done (Returned tt)) st
  else if falsy (trim text) then set_pc (Done (Returned tt)) st
  else st.

(** The call driven by the events [evs]. *)
Definition run (text : jsstring) (config : TtsConfig) (cancelToken : nat)
    (d : disk) (evs : list event) : state :=
  fold_left (react (trim text) (Types.maxWorkers config) cancelToken) evs
            (speakLocal text config cancelToken d).

(** The chunk indices [playAudio] was called for, in order. *)
Definition plays (st : state) : list nat :=
  omap (fun o => match o with PlayStart i _ => Some i | PlayEnd _ _ => None end)
       (log st).

(** *** The order of playback *)

Definition shape (o : obs) : nat * bool :=
  match o with PlayStart i _ => (i, false) | PlayEnd i _ => (i, true) end.

(** [n] chunks played in turn from index [a] on: each one started, then
    ended, before the next is started. *)
Fixpoint turns (a n : nat) : list (nat * bool) :=
  match n with
  | 0 => []
  | S n => (a, false) :: (a, true) :: turns (S a) n
  end.

Definition starts (l : list (nat * bool)) : list nat :=
  omap (fun x : nat * bool => if x.2 then None else Some x.1) l.

Lemma turns_app a i j : turns a (i + j) = turns a i ++ turns (a + i) j.
Proof.
  revert a. induction i as [|i IH]; intros a; simpl.
  - by rewrite Nat.add_0_r.
  - rewrite IH. by rewrite Nat.add_succ_r.
Qed.

Lemma turns_S a n : turns a (S n) = turns a n ++ [(a + n, false); (a + n, true)].
Proof. replace (S n) with (n + 1) by lia. by rewrite turns_app. Qed.

Lemma turns_prefix i n : i <= n -> turns 0 i `prefix_of` turns 0 n.
Proof.
  intros H. replace n with (i + (n - i)) by lia. rewrite turns_app.
  by apply prefix_app_r.
Qed.


Lemma starts_turns a n : starts (turns a n) = seq a n.
Proof.
  revert a. induction n as [|n IH]; intros a; [done|].
  cbn. f_equal. apply IH.
Qed.


Lemma plays_starts st : plays st = starts (map shape (log st)).
Proof.
  unfold plays, starts. induction (log st) as [|o l IH]; [done|].
  destruct o; cbn; by rewrite IH.
Qed.

Section Order.
Variables (trimmed : jsstring) (maxWorkers : Z) (token : nat).

Local Abbreviation N := (length (chunks trimmed)) (only parsing).
Local Abbreviation react := (Local.react trimmed maxWorkers token) (only parsing).

Lemma leave_spec r st :
  leave r st = set_pc (Done r) (set_fs (cleanupFiles (files st) (fs st)).1 st).
Proof.
  unfold leave. pose proof (cleanupFiles_resolves (files st) (fs st)) as H.
  destruct (cleanupFiles (files st) (fs st)) as [d c]. simpl in *. by subst c.
Qed.

(** Where the call stands, the playback log is the turns of the chunks before
    the current one, with the current one started if it is playing. *)
Definition in_order (st : state) : Prop :=
  match pc st with
  | AwaitInit => log st = []
  | AwaitTask _ i => map shape (log st) = turns 0 i /\ i < N
  | AwaitPlay _ i => map shape (log st) = turns 0 i ++ [(i, false)] /\ i < N
  | Done _ => map shape (log st) `prefix_of` turns 0 N
  end.

Lemma leave_in_order r st i :
  map shape (log st) = turns 0 i -> i <= N -> in_order (leave r st).
Proof.
  intros Hl Hi. rewrite leave_spec. unfold in_order. simpl.
  rewrite Hl. by apply turns_prefix.
Qed.

Lemma on_result_in_order m i r st :
  map shape (log st) = turns 0 i -> i < N ->
  in_order (on_result token m i r st).
Proof.
  intros Hl Hi. unfold on_result. destruct r as [path|].
  - destruct (stopped token (push_file path st)).
    + apply (leave_in_order _ _ i); [done | lia].
    + unfold in_order. simpl. rewrite map_app, Hl. done.
  - apply (leave_in_order _ _ i); [done | lia].
Qed.

Lemma loop_head_in_order m i st :
  map shape (log st) = turns 0 i -> i <= N ->
  in_order (loop_head trimmed token m i st).
Proof.
  intros Hl Hi. unfold loop_head.
  destruct (Nat.ltb_spec i N) as [Hlt|Hge]; [|by apply (leave_in_order _ _ i)].
  destruct (stopped token st); [by apply (leave_in_order _ _ i)|].
  destruct m.
  - unfold in_order. simpl. done.
  - destruct (settled st !! i) as [r|].
    + by apply on_result_in_order.
    + unfold in_order. simpl. done.
Qed.

Lemma after_init_in_order ready st :
  log st = [] -> in_order (after_init trimmed maxWorkers token ready st).
Proof.
  intros Hl. unfold after_init.
  assert (forall st', log st' = [] -> in_order (set_pc (Done (Returned tt)) st')) as Hd.
  { intros st' H. unfold in_order. simpl. rewrite H. apply prefix_nil. }
  assert (forall m st', log st' = [] -> in_order (loop_head trimmed token m 0 st')) as Hh.
  { intros m st' H. apply loop_head_in_order; [by rewrite H | lia]. }
  destruct (negb ready); [by apply Hd|].
  destruct (negb (token =? _)); [by apply Hd|].
  destruct (N =? 0); [by apply Hd|].
  destruct (_ && _); [by apply Hh|].
  destruct (_ || _); [by apply Hd | by apply Hh].
Qed.

Lemma react_in_order st e : in_order st -> in_order (react st e).
Proof.
  intros H. unfold Local.react.
  destruct (pc st) as [|m i|m i|r] eqn:Epc; [| | |done]; unfold in_order in H;
    rewrite Epc in H.
  - destruct e; try (unfold in_order; simpl; by rewrite ?Epc); [].
    by apply after_init_in_order.
  - destruct H as [Hl Hi].
    destruct m, e; try (unfold in_order; simpl; by rewrite ?Epc).
    + destruct (Nat.eqb_spec i0 i) as [->|]; [|unfold in_order; by rewrite Epc].
      apply on_result_in_order; [by destruct r | done].
    + destruct (pending trimmed i0 st); [|unfold in_order; by rewrite Epc].
      destruct (Nat.eqb_spec i0 i) as [->|].
      * apply on_result_in_order; [by destruct r | done].
      * unfold in_order. destruct r; simpl; by rewrite Epc.
  - destruct H as [Hl Hi].
    assert (forall ok, map shape (log (add_log (PlayEnd i ok) st)) = turns 0 (S i))
      as Hend.
    { intros ok. cbn [log add_log]. rewrite map_app, Hl, turns_S, <- app_assoc. done. }
    destruct m, e; try (unfold in_order; simpl; by rewrite ?Epc).
    + destruct ok.
      * apply loop_head_in_order; [apply Hend | lia].
      * apply (leave_in_order _ _ (S i)); [apply Hend | lia].
    + destruct (pending trimmed i0 st); [|unfold in_order; by rewrite Epc].
      unfold in_order. destruct r; simpl; by rewrite Epc.
    + destruct ok.
      * apply loop_head_in_order; [apply Hend | lia].
      * apply (leave_in_order _ _ (S i)); [apply Hend | lia].
Qed.


(** *** Runs in which nothing goes wrong *)

(** Events of a call that is neither cancelled nor disabled and in which the
    backend gets ready, no pool fails to start, every generation resolves
    and every playback succeeds. *)
Definition benign (e : event) : Prop :=
  match e with
  | Cancel | SetEnabled false | InitDone false | PoolLost
  | TaskSettled _ Failed | PlayExited false => False
  | _ => True
  end.

Definition healthy (st : state) : Prop :=
  enabled st = true /\ cancelToken st = token /\
  (forall j, settled st !! j <> Some Failed) /\
  (forall r, pc st = Done r -> r = Returned tt /\ map shape (log st) = turns 0 N) /\
  (pc st = AwaitInit -> (0 < maxWorkers)%Z -> pool st = true).

Lemma healthy_going st : healthy st -> stopped token st = false.
Proof.
  intros (He & Hc & _). unfold stopped. rewrite He, Hc, Nat.eqb_refl. done.
Qed.

Lemma leave_healthy st :
  healthy st -> map shape (log st) = turns 0 N -> healthy (leave (Returned tt) st).
Proof.
  intros (He & Hc & Hs & _) Hl. rewrite leave_spec.
  split; [done|]. split; [done|]. split; [done|]. split; [|done].
  simpl. by intros r [= <-].
Qed.

Lemma on_result_healthy m i path st :
  healthy st -> healthy (on_result token m i (Generated path) st).
Proof.
  intros H. unfold on_result.
  assert (stopped token (push_file path st) = false) as ->.
  { by apply healthy_going in H. }
  destruct H as (He & Hc & Hs & _). by repeat split.
Qed.

Lemma loop_head_healthy m i st :
  healthy st -> map shape (log st) = turns 0 i -> i <= N ->
  healthy (loop_head trimmed token m i st).
Proof.
  intros H Hl Hi. unfold loop_head.
  destruct (Nat.ltb_spec i N) as [Hlt|Hge].
  - rewrite (healthy_going _ H). destruct m.
    + destruct H as (He & Hc & Hs & _). by repeat split.
    + destruct (settled st !! i) as [[path|]|] eqn:E.
      * by apply on_result_healthy.
      * destruct H as (_ & _ & Hs & _). by destruct (Hs i).
      * destruct H as (He & Hc & Hs & _). by repeat split.
  - apply leave_healthy; [done|]. by replace N with i by lia.
Qed.

Lemma healthy_same st st' :
  enabled st' = enabled st -> cancelToken st' = cancelToken st ->
  settled st' = settled st -> pc st' = pc st -> log st' = log st ->
  pool st' = pool st ->
  healthy st -> healthy st'.
Proof.
  intros E1 E2 E3 E4 E5 E6 (He & Hc & Hs & Hd). unfold healthy.
  rewrite E1, E2, E3, E4, E5, E6. done.
Qed.

Lemma healthy_settle j path st :
  healthy st -> (forall r, pc st <> Done r) ->
  healthy (settle j (Generated path) (written (Generated path) st)).
Proof.
  intros (He & Hc & Hs & Hd & Hi) Hp. split; [done|]. split; [done|].
  split; [|split].
  - intros k. simpl. destruct (decide (j = k)) as [->|Hne].
    + by rewrite lookup_insert_eq.
    + rewrite lookup_insert_ne by done. apply Hs.
  - intros r Hr. simpl in Hr. by destruct (Hp r).
  - exact Hi.
Qed.

Lemma healthy_enable st : healthy st -> healthy (set_enabled true st).
Proof.
  intros (He & Hc & Hs & Hd). split; [done|]. split; [done|]. split; [done|].
  exact Hd.
Qed.

Lemma react_healthy st e :
  in_order st -> healthy st -> benign e -> healthy (react st e).
Proof.
  intros Hord H Hb. unfold Local.react.
  destruct (pc st) as [|m i|m i|r] eqn:Epc; [| | |done]; unfold in_order in Hord;
    rewrite Epc in Hord.
  - destruct e as [[]| | | |[]|]; try done.
    + unfold after_init.
      pose proof H as (He & Hc & Hs & Hd & Hpool). specialize (Hpool Epc).
      assert (healthy (initLocalTts maxWorkers true st)) as H'.
      { split; [done|]. split; [done|]. split; [done|]. split; [done|].
        intros _ Hw. cbn [pool initLocalTts].
        destruct (Z.leb_spec maxWorkers 0); [lia|]. by rewrite Hpool. }
      assert (log (initLocalTts maxWorkers true st) = []) as Hl by done.
      cbn [negb].
      assert (token =? cancelToken (initLocalTts maxWorkers true st) = true) as ->.
      { simpl. rewrite Hc. apply Nat.eqb_refl. }
      cbn [negb]. destruct (Nat.eqb_spec N 0) as [H0|H0].
      * repeat split; try done; simpl in *; [congruence|].
        by rewrite Hord, H0.
      * cbn [localModel pool initLocalTts].
        destruct (Z.leb_spec maxWorkers 0); cbn [andb orb negb].
        -- apply loop_head_healthy; [done | by rewrite Hl | lia].
        -- rewrite Hpool by done. cbn [andb orb negb].
           apply loop_head_healthy; [done | by rewrite Hl | lia].
    + by apply healthy_enable.
  - destruct Hord as [Hl Hi].
    assert (forall r, pc st <> Done r) as Hnd by (intros r; congruence).
    destruct m, e as [?|j [path|]|?| |[]|]; try done;
      try (by apply healthy_enable); try (revert H; by apply healthy_same).
    + destruct (Nat.eqb_spec j i) as [->|]; [|done].
      apply on_result_healthy. revert H. by apply healthy_same.
    + destruct (pending trimmed j st) eqn:Ep; [|done].
      pose proof (healthy_settle j path st H Hnd) as H'.
      destruct (Nat.eqb_spec j i) as [->|]; [|done].
      by apply on_result_healthy.
  - destruct Hord as [Hl Hi].
    assert (forall r, pc st <> Done r) as Hnd by (intros r; congruence).
    assert (healthy (add_log (PlayEnd i true) st)) as Hlog.
    { destruct H as (He & Hc & Hs & Hd & _).
      split; [done|]. split; [done|]. split; [done|]. split.
      - intros r Hr. simpl in Hr. by destruct (Hnd r).
      - simpl. by rewrite Epc. }
    assert (map shape (log (add_log (PlayEnd i true) st)) = turns 0 (S i)) as Hend.
    { cbn [log add_log]. rewrite map_app, Hl, turns_S, <- app_assoc. done. }
    destruct m, e as [?|j [path|]|[]| |[]|]; try done;
      try (by apply healthy_enable); try (revert H; by apply healthy_same).
    + apply loop_head_healthy; [done | done | lia].
    + destruct (pending trimmed j st) eqn:Ep; [|done].
      by apply healthy_settle.
    + apply loop_head_healthy; [done | done | lia].
Qed.

(** *** Cleanup and cancellation *)

Definition workers_pc (st : state) : bool :=
  match pc st with
  | AwaitTask Workers _ | AwaitPlay Workers _ => true
  | _ => false
  end.

(** Between two events: once the call is done, every file it held in [files]
    is gone, unless the system refuses to remove it; without workers
    ([maxWorkers <= 0]) [files] holds every file produced for the call. *)
Definition tidy (st : state) : Prop :=
  (forall r, pc st = Done r ->
     forall p, p ∈ files st -> p ∉ locked (fs st) -> p ∉ present (fs st)) /\
  ((maxWorkers <= 0)%Z -> produced st = files st /\ workers_pc st = false) /\
  token <= cancelToken st /\
  (pc st = AwaitInit -> files st = []).

Lemma leave_tidy r st :
  ((maxWorkers <= 0)%Z -> produced st = files st) -> token <= cancelToken st ->
  tidy (leave r st).
Proof.
  intros Hp Ht. rewrite leave_spec. split; [|split; [|split]]; simpl; try done.
  - intros _ _ p Hin Hl.
    pose proof (cleanupFiles_disk (files st) (fs st)) as [E1 E2].
    rewrite E2 in Hl. rewrite E1. set_unfold. naive_solver.
  - intros Hw. split; [by apply Hp | done].
Qed.

Lemma on_result_tidy m i r st :
  (m = Workers -> ~ (maxWorkers <= 0)%Z) -> token <= cancelToken st ->
  ((maxWorkers <= 0)%Z ->
   produced st = files st ++ match r with Generated path => [path] | Failed => [] end) ->
  tidy (on_result token m i r st).
Proof.
  intros Hm Ht Hp. unfold on_result. destruct r as [path|].
  - destruct (stopped token (push_file path st)).
    + apply leave_tidy; simpl; done.
    + split; [|split; [|split]]; simpl; try done.
      intros Hw. split; [by apply Hp|]. unfold workers_pc. simpl.
      destruct m; [done|]. by destruct Hm.
  - apply leave_tidy; [|done]. intros Hw. rewrite (Hp Hw). by rewrite app_nil_r.
Qed.

Lemma loop_head_tidy m i st :
  (m = Workers -> ~ (maxWorkers <= 0)%Z) -> token <= cancelToken st ->
  ((maxWorkers <= 0)%Z -> produced st = files st) ->
  tidy (loop_head trimmed token m i st).
Proof.
  intros Hm Ht Hp. unfold loop_head.
  destruct (i <? N); [|by apply leave_tidy].
  destruct (stopped token st); [by apply leave_tidy|].
  destruct m.
  - split; [|split; [|split]]; simpl; try done.
    intros Hw. split; [by apply Hp | done].
  - destruct (settled st !! i) as [r|].
    + apply on_result_tidy; [done | done |]. intros Hw. by destruct Hm.
    + split; [|split; [|split]]; simpl; try done.
      intros Hw. by destruct Hm.
Qed.

Lemma react_tidy st e : tidy st -> tidy (react st e).
Proof.
  intros Htidy. pose proof Htidy as (Hd & Hp & Ht & Hi). unfold Local.react.
  destruct (pc st) as [|m i|m i|r] eqn:Epc; [| | |done].
  - specialize (Hi eq_refl).
    assert (forall b, tidy (set_enabled b st)) as Hen.
    { intros b. split; [|split; [|split]]; simpl; try done.
      intros r. by rewrite Epc. }
    destruct e; try done.
    + unfold after_init.
      assert (forall st', files st' = [] -> token <= cancelToken st' ->
                ((maxWorkers <= 0)%Z -> produced st' = files st') ->
                tidy (set_pc (Done (Returned tt)) st')) as Hdone.
      { intros st' Hf Ht' Hp'. split; [|split; [|split]]; simpl; try done.
        - intros _ _ p. rewrite Hf. by intros ?%elem_of_nil.
        - intros Hw. split; [by apply Hp' | done]. }
      assert ((maxWorkers <= 0)%Z ->
              produced (initLocalTts maxWorkers ready st)
              = files (initLocalTts maxWorkers ready st)) as Hp'.
      { intros Hw. by apply Hp. }
      destruct (negb ready) eqn:Er; [by apply Hdone|].
      destruct (negb (token =? _)); [by apply Hdone|].
      destruct (N =? 0); [by apply Hdone|].
      destruct (_ && _) eqn:Ed; [by apply loop_head_tidy|].
      destruct (_ || _); [by apply Hdone|].
      apply loop_head_tidy; [|done|done].
      intros _ Hw. cbn [localModel initLocalTts] in Ed.
      apply Z.leb_le in Hw. rewrite Hw in Ed.
      apply negb_false_iff in Er. by rewrite Er in Ed.
    + split; [|split; [|split]]; simpl; try done.
      * intros r. by rewrite Epc.
      * lia.
  - assert (m = Workers -> ~ (maxWorkers <= 0)%Z) as Hm.
    { intros -> Hw. destruct (Hp Hw) as [_ H]. unfold workers_pc in H.
      by rewrite Epc in H. }
    assert (forall st', pc st' = pc st -> files st' = files st ->
              token <= cancelToken st' ->
              ((maxWorkers <= 0)%Z -> produced st' = produced st) -> tidy st') as Hsame.
    { intros st' E1 E2 Ht' Hp'. split; [|split; [|split]].
      - intros r. by rewrite E1, Epc.
      - intros Hw. rewrite (Hp' Hw), E2. unfold workers_pc. rewrite E1.
        by apply Hp.
      - done.
      - by rewrite E1, Epc. }
    destruct m, e; try (by apply Hsame); try (apply Hsame; simpl; try done; lia).
    + destruct (i0 =? i); [|by apply Hsame].
      apply on_result_tidy; [done | by destruct r |].
      intros Hw. destruct (Hp Hw) as [E _]. destruct r; simpl; [|by rewrite app_nil_r].
      by rewrite E.
    + destruct (pending trimmed i0 st); [|by apply Hsame].
      destruct (i0 =? i).
      * apply on_result_tidy; [done | by destruct r |].
        intros Hw. by destruct Hm.
      * apply Hsame; try (by destruct r). intros Hw. by destruct Hm.
  - assert (m = Workers -> ~ (maxWorkers <= 0)%Z) as Hm.
    { intros -> Hw. destruct (Hp Hw) as [_ H]. unfold workers_pc in H.
      by rewrite Epc in H. }
    assert (forall st', pc st' = pc st -> files st' = files st ->
              token <= cancelToken st' ->
              ((maxWorkers <= 0)%Z -> produced st' = produced st) -> tidy st') as Hsame.
    { intros st' E1 E2 Ht' Hp'. split; [|split; [|split]].
      - intros r. by rewrite E1, Epc.
      - intros Hw. rewrite (Hp' Hw), E2. unfold workers_pc. rewrite E1.
        by apply Hp.
      - done.
      - by rewrite E1, Epc. }
    assert (forall ok, tidy (if ok : bool
              then loop_head trimmed token m (S i) (add_log (PlayEnd i ok) st)
              else leave (Thrown (Error "All audio players failed"))
                     (add_log (PlayEnd i ok) st))) as Hexit.
    { intros [].
      - apply loop_head_tidy; [done | done |]. intros Hw. by apply Hp.
      - apply leave_tidy; [|done]. intros Hw. by apply Hp. }
    destruct m, e; try (by apply Hsame); try (apply Hsame; simpl; try done; lia);
      try apply Hexit.
    destruct (pending trimmed i0 st); [|by apply Hsame].
    apply Hsame; try (by destruct r). intros Hw. by destruct Hm.
Qed.


(** *** What the call waits for *)






End Order.

(** *** Whole runs *)

Section Runs.
Variables (text : jsstring) (config : TtsConfig) (tok : nat) (d : disk).

Local Abbreviation steps :=
  (fold_left (react (trim text) (Types.maxWorkers config) tok)) (only parsing).

Lemma steps_done evs st r : pc st = Done r -> steps evs st = st.
Proof.
  intros H. induction evs as [|e evs IH]; [done|]. simpl.
  assert (react (trim text) (Types.maxWorkers config) tok st e = st) as ->; [|done].
  unfold react. by rewrite H.
Qed.


Lemma steps_healthy evs st :
  in_order (trim text) st -> healthy (trim text) (Types.maxWorkers config) tok st -> Forall benign evs ->
  healthy (trim text) (Types.maxWorkers config) tok (steps evs st).
Proof.
  revert st. induction evs as [|e evs IH]; intros st Ho Hh Hb; [done|].
  inversion Hb; subst. simpl. apply IH; [by apply react_in_order | | done].
  by apply react_healthy.
Qed.


Lemma steps_tidy evs st :
  tidy (Types.maxWorkers config) tok st ->
  tidy (Types.maxWorkers config) tok (steps evs st).
Proof.
  revert st. induction evs as [|e evs IH]; intros st H; [done|].
  simpl. apply IH. by apply react_tidy.
Qed.


Lemma splitText_empty : splitText [] = [].
Proof. reflexivity. Qed.

Lemma speakLocal_in_order : in_order (trim text) (speakLocal text config tok d).
Proof.
  unfold speakLocal, in_order.
  destruct (negb _); [apply prefix_nil|].
  destruct (falsy _); [apply prefix_nil | done].
Qed.

Lemma speakLocal_healthy :
  Types.enabled config = true -> healthy (trim text) (Types.maxWorkers config) tok (speakLocal text config tok d).
Proof.
  intros He. unfold speakLocal. rewrite He. cbn [negb].
  destruct (falsy (trim text)) eqn:Ef.
  - apply falsy_spec in Ef. split; [done|]. split; [done|]. split; [|split].
    + intros j. simpl. by rewrite lookup_empty.
    + simpl. intros r [= <-]. split; [done|].
      unfold chunks. by rewrite Ef, splitText_empty.
    + done.
  - split; [done|]. split; [done|]. split; [|split; [done|]].
    + intros j. simpl. by rewrite lookup_empty.
    + intros _ Hw. simpl. destruct (Z.leb_spec (Types.maxWorkers config) 0); [lia|done].
Qed.


Lemma speakLocal_tidy : tidy (Types.maxWorkers config) tok (speakLocal text config tok d).
Proof.
  unfold speakLocal.
  destruct (negb _); [|destruct (falsy _)].
  all: split; [|split; [|split]]; simpl; try done.
  all: intros _ _ q; by intros ?%elem_of_nil.
Qed.

End Runs.

(** *** Every order of completion leads to the end *)

Section Completion.
Variables (trimmed : jsstring) (maxWorkers : Z) (tok : nat).

Local Abbreviation N := (length (chunks trimmed)) (only parsing).
Local Abbreviation steps := (fold_left (react trimmed maxWorkers tok)) (only parsing).


Lemma going_not_stopped st :
  enabled st = true -> cancelToken st = tok -> stopped tok st = false.
Proof. intros He Hc. unfold stopped. by rewrite He, Hc, Nat.eqb_refl. Qed.






End Completion.

(** *** Playback order and cancellation *)

Definition two_workers : TtsConfig :=
  {| backend := local; httpUrl := "http://localhost:8880"; httpFormat := wav;
     speakOn := message; voice := "af_heart"; speed := 1%Q;
     Types.enabled := true; Types.maxWorkers := 2 |}.

Definition no_workers : TtsConfig :=
  {| backend := local; httpUrl := "http://localhost:8880"; httpFormat := wav;
     speakOn := message; voice := "af_heart"; speed := 1%Q;
     Types.enabled := true; Types.maxWorkers := 0 |}.

Definition empty_disk : disk := {| present := ∅; locked := ∅ |}.


(** The startup of an earlier pool fails while the call waits for its own
    pool: the [catch] sets [pool] to null, the pool the call waits for gets
    ready, and the call finds no pool and returns.  It resolves, neither
    cancelled nor disabled, and has played nothing. *)
Example pool_failure_plays_nothing :
  let st := run (of_string "Hello. World!") two_workers 0 empty_disk
              [PoolLost; InitDone true] in
  pc st = Done (Returned tt) /\ plays st = [].
Proof. vm_compute. by split. Qed.









End Local.

(** ** More on [splitText]: edges of the chunks, blank input, greedy packing *)
Module ChunkerFacts.
Import JsString TextChunker.

(** The string is empty or does not start with whitespace. *)
Definition starts_clean (s : jsstring) : Prop :=
  match s with [] => True | c :: _ => is_space c = false end.

(** No whitespace at either end. *)
Definition edge_ok (s : jsstring) : Prop := starts_clean s /\ starts_clean (rev s).

Lemma dropW_clean s : starts_clean s -> dropW is_space s = s.
Proof. destruct s as [|c r]; simpl; [done|]. by intros ->. Qed.

Lemma edge_ok_trim s : edge_ok s -> trim s = s.
Proof.
  intros [H1 H2]. unfold trim.
  by rewrite (dropW_clean s H1), (dropW_clean _ H2), rev_involutive.
Qed.

Lemma starts_clean_app s t : s <> [] -> starts_clean s -> starts_clean (s ++ t).
Proof. by destruct s. Qed.

Lemma rev_nonempty (s : jsstring) : s <> [] -> rev s <> [].
Proof.
  intros H E. apply H. rewrite <- (rev_involutive s), E. done.
Qed.

Lemma trim_edge_ok s : edge_ok (trim s).
Proof.
  unfold edge_ok, trim. rewrite rev_involutive. split.
  - pose proof (takeW_dropW is_space (rev (dropW is_space s))) as E.
    apply (f_equal (@rev N)) in E. rewrite rev_app_distr, rev_involutive in E.
    pose proof (dropW_starts is_space s) as Hs.
    destruct (rev (dropW is_space (rev (dropW is_space s)))) as [|c r] eqn:Er; [done|].
    simpl in E. rewrite <- E in Hs. done.
  - apply (dropW_starts is_space).
Qed.

Lemma word_edge_ok w : is_word w -> edge_ok w.
Proof.
  intros Hw. split.
  - destruct Hw; [done|]. done.
  - assert (is_word (rev w)) as Hr.
    { apply Forall_forall. intros x Hx. unfold is_word in Hw.
      rewrite Forall_forall in Hw. apply Hw.
      apply list_elem_of_In, in_rev. by apply list_elem_of_In. }
    destruct Hr; [done|]. done.
Qed.

Lemma join_edge_ok a w :
  a <> [] -> w <> [] -> edge_ok a -> is_word w -> edge_ok (a ++ SP :: w).
Proof.
  intros Ha Hw [H1 H2] Hword. split.
  - by apply starts_clean_app.
  - rewrite rev_app_distr. simpl. rewrite <- app_assoc.
    apply starts_clean_app; [by apply rev_nonempty|].
    by apply (word_edge_ok w).
Qed.

Definition pack_edges (st : list jsstring * jsstring) : Prop :=
  Forall edge_ok st.1 /\ edge_ok st.2.

Lemma pushWord_edges st w : is_word w -> pack_edges st -> pack_edges (pushWord st w).
Proof.
  intros Hw [Hcs Hcur]. destruct st as [chunks current]. cbn [fst snd] in *.
  unfold pushWord. destruct (falsy w) eqn:Ew; [by split|].
  apply falsy_false in Ew.
  destruct (falsy current) eqn:Ec.
  - split; [done|]. by apply word_edge_ok.
  - apply falsy_false in Ec. destruct (Nat.leb _ maxLength).
    + split; [done|]. by apply join_edge_ok.
    + split; [|by apply word_edge_ok]. cbn [fst].
      apply Forall_app. split; [done|]. by constructor.
Qed.

Lemma fold_pushWord_edges ws st :
  Forall is_word ws -> pack_edges st -> pack_edges (fold_left pushWord ws st).
Proof.
  intros Hws. revert st. induction Hws as [|w ws Hw _ IH]; intros st Hst; [done|].
  simpl. apply IH. by apply pushWord_edges.
Qed.

Lemma splitPart_edges chunks part :
  Forall edge_ok chunks -> Forall edge_ok (splitPart chunks part).
Proof.
  intros Hcs. unfold splitPart.
  destruct (falsy (trim part)); [done|].
  destruct (Nat.leb _ maxLength).
  - apply Forall_app. split; [done|]. constructor; [apply trim_edge_ok | done].
  - pose proof (fold_pushWord_edges (split_ws (trim part)) (chunks, [])
                  (split_ws_words _)) as H.
    destruct (fold_left pushWord _ _) as [chunks' current].
    destruct H as [H1 H2]; [by split|]. cbn [fst snd] in *.
    destruct (falsy current); [done|].
    apply Forall_app. split; [done|]. by constructor.
Qed.

(** X1: every chunk [splitText] returns is trimmed: it neither starts nor
    ends with whitespace, so trimming it again changes nothing. *)
Theorem splitText_chunks_trimmed (text : jsstring) :
  Forall (fun c => trim c = c /\ starts_clean c /\ starts_clean (rev c))
         (splitText text).
Proof.
  assert (Forall edge_ok (splitText text)) as H.
  { unfold splitText. generalize (parts text). intros ps.
    assert (Forall edge_ok (@nil (list N))) as Hnil by constructor.
    revert Hnil. generalize (@nil (list N)).
    induction ps as [|p ps IH]; intros acc Hacc; [done|].
    simpl. apply IH. by apply splitPart_edges. }
  eapply Forall_impl; [exact H|]. intros c Hc. split; [by apply edge_ok_trim | exact Hc].
Qed.

(** *** Blank input *)

Definition blank (s : jsstring) : Prop := Forall (fun c => is_space c = true) s.

Lemma Forall_takeW (P : N -> Prop) p s : Forall P s -> Forall P (takeW p s).
Proof.
  induction 1 as [|c r Hc _ IH]; simpl; [constructor|].
  destruct (p c); by constructor.
Qed.

Lemma Forall_dropW (P : N -> Prop) p s : Forall P s -> Forall P (dropW p s).
Proof.
  induction 1 as [|c r Hc Hr IH]; simpl; [constructor|].
  destruct (p c); [done | by constructor].
Qed.

Lemma matchAll_Forall (P : N -> Prop) s :
  Forall P s -> Forall (Forall P) (matchAll s).
Proof.
  funelim (matchAll s); intros Hs.
  - constructor.
  - apply Forall_cons in Hs as [Hc Hr]. constructor.
    + constructor; [done|]. apply Forall_app. split.
      * by apply Forall_takeW.
      * by apply Forall_takeW, Forall_dropW.
    + match goal with IH : forall Q, Forall Q _ -> _ |- _ => apply IH end.
      by apply Forall_dropW, Forall_dropW.
  - apply Forall_cons in Hs as [Hc Hr]. constructor.
    + constructor; [done|]. by apply Forall_takeW.
    + match goal with IH : forall Q, Forall Q _ -> _ |- _ => apply IH end.
      by apply Forall_dropW.
  - apply Forall_cons in Hs as [Hc Hr].
    match goal with IH : forall Q, Forall Q _ -> _ |- _ => by apply IH end.
Qed.

Lemma blank_dropW s : blank s -> dropW is_space s = [].
Proof. induction 1 as [|c r Hc _ IH]; simpl; [done|]. by rewrite Hc. Qed.

Lemma blank_trim s : blank s -> trim s = [].
Proof. intros H. unfold trim. by rewrite (blank_dropW s H). Qed.

Lemma strip_ws_nil_blank s : strip_ws s = [] -> blank s.
Proof.
  induction s as [|c r IH]; [constructor|].
  rewrite strip_ws_cons. destruct (is_space c) eqn:E; [|done].
  intros H. constructor; [done | by apply IH].
Qed.

Lemma fold_splitPart_blank ps acc :
  Forall blank ps -> fold_left splitPart ps acc = acc.
Proof.
  intros H. revert acc. induction H as [|p ps Hp _ IH]; intros acc; [done|].
  simpl. rewrite <- (IH acc) at 2. f_equal.
  unfold splitPart. by rewrite (blank_trim p Hp).
Qed.

(** X2: a text of whitespace only (the empty text included) yields no chunk;
    and a text that does not begin with a terminator yields no chunk only if
    it is of whitespace only. *)
Theorem splitText_blank (text : jsstring) :
  (blank text -> splitText text = []) /\
  (starts_plain text -> splitText text = [] -> blank text).
Proof.
  split.
  - intros Hb. unfold splitText. apply fold_splitPart_blank.
    unfold parts. pose proof (matchAll_Forall _ text Hb) as H.
    destruct (matchAll text); [by constructor | done].
  - intros Hs He. apply strip_ws_nil_blank.
    pose proof (fold_splitPart_strip (parts text) []) as H.
    fold (splitText text) in H. rewrite He in H. simpl in H.
    assert (concat (parts text) = text) as Ec.
    { unfold parts. destruct (matchAll text) eqn:E.
      - simpl. by rewrite app_nil_r.
      - rewrite <- E. by apply matchAll_concat. }
    by rewrite Ec in H.
Qed.

Lemma splitText_blank_witness :
  splitText (of_string "  ") = [] /\
  (splitText (of_string "a") = [] -> blank (of_string "a")).
Proof.
  split.
  - apply (proj1 (splitText_blank (of_string "  "))). repeat constructor.
  - apply (proj2 (splitText_blank (of_string "a"))). reflexivity.
Defined.

(** *** Greedy packing *)

(** No two neighbours of the list would fit into one chunk, joined by a
    space. *)
Definition neighbours_full (l : list jsstring) : Prop :=
  forall i a b, l !! i = Some a -> l !! S i = Some b ->
                maxLength < length a + length b + 1.

Lemma neighbours_full_snoc l c :
  neighbours_full l ->
  (forall a, last l = Some a -> maxLength < length a + length c + 1) ->
  neighbours_full (l ++ [c]).
Proof.
  intros Hl Hc i a b Ha Hb.
  destruct (decide (S i < length l)) as [Hlt|Hge].
  - rewrite lookup_app_l in Ha by lia. rewrite lookup_app_l in Hb by done.
    by apply (Hl i).
  - assert (S i = length l) as Hi.
    { apply lookup_lt_Some in Hb. rewrite length_app in Hb. simpl in Hb. lia. }
    rewrite lookup_app_l in Ha by lia.
    rewrite lookup_app_r in Hb by lia. rewrite Hi, Nat.sub_diag in Hb.
    injection Hb as <-. apply Hc. rewrite last_lookup.
    replace (pred (length l)) with i by lia. done.
Qed.

(** The new chunks [new] cut so far from the part and [current]: neighbours
    do not fit together, and neither do the last chunk and [current]. *)
Definition packed_tight (new : list jsstring) (current : jsstring) : Prop :=
  neighbours_full new /\
  (forall a, last new = Some a -> maxLength < length a + length current + 1) /\
  (current = [] -> new = []).

Lemma pushWord_tight chunks new current w :
  packed_tight new current ->
  exists new' current',
    pushWord (chunks ++ new, current) w = (chunks ++ new', current') /\
    packed_tight new' current'.
Proof.
  intros (Hn & Hl & He). unfold pushWord.
  destruct (falsy w) eqn:Ew; [by exists new, current|].
  apply falsy_false in Ew.
  destruct (falsy current) eqn:Ec.
  - apply falsy_spec in Ec. rewrite (He Ec). exists [], w. split; [done|].
    split; [by intros i a b ?|]. split; [done|]. done.
  - apply falsy_false in Ec.
    destruct (Nat.leb_spec (length current + length w + 1) maxLength).
    + exists new, (current ++ SP :: w). split; [done|]. split; [done|]. split.
      * intros a Ha. specialize (Hl a Ha). rewrite length_app. simpl. lia.
      * by destruct current.
    + exists (new ++ [current]), w. split; [by rewrite app_assoc|].
      split; [by apply neighbours_full_snoc|]. split.
      * intros a. rewrite last_snoc. intros [= <-]. lia.
      * done.
Qed.

Lemma fold_pushWord_tight ws chunks new current :
  packed_tight new current ->
  exists new' current',
    fold_left pushWord ws (chunks ++ new, current) = (chunks ++ new', current') /\
    packed_tight new' current'.
Proof.
  revert new current. induction ws as [|w ws IH]; intros new current H.
  - by exists new, current.
  - cbn [fold_left].
    destruct (pushWord_tight chunks new current w H) as (n1 & c1 & -> & H1).
    by apply IH.
Qed.

Lemma splitPart_tight chunks part :
  exists new, splitPart chunks part = chunks ++ new /\ neighbours_full new.
Proof.
  unfold splitPart. destruct (falsy (trim part)).
  { exists []. split; [by rewrite app_nil_r | by intros i a b ?]. }
  destruct (Nat.leb _ maxLength).
  { exists [trim part]. split; [done|]. intros i a b Ha Hb.
    apply lookup_lt_Some in Hb. simpl in Hb. lia. }
  destruct (fold_pushWord_tight (split_ws (trim part)) chunks [] [])
    as (new & current & E & Hn & Hl & He).
  { split; [by intros i a b ?|]. split; done. }
  rewrite app_nil_r in E. rewrite E.
  destruct (falsy current).
  - by exists new.
  - exists (new ++ [current]). split; [by rewrite app_assoc|].
    by apply neighbours_full_snoc.
Qed.

Lemma splitPart_app chunks part : splitPart chunks part = chunks ++ splitPart [] part.
Proof.
  unfold splitPart. destruct (falsy (trim part)); [by rewrite app_nil_r|].
  destruct (Nat.leb _ maxLength); [done|].
  assert (forall ws new current,
            fold_left pushWord ws (chunks ++ new, current)
            = (chunks ++ (fold_left pushWord ws (new, current)).1,
               (fold_left pushWord ws (new, current)).2)) as H.
  { induction ws as [|w ws IH]; intros new current; [done|]. cbn [fold_left].
    assert (pushWord (chunks ++ new, current) w
            = (chunks ++ (pushWord (new, current) w).1, (pushWord (new, current) w).2))
      as ->.
    { unfold pushWord. repeat case_match; cbn [fst snd]; by rewrite ?app_assoc. }
    destruct (pushWord (new, current) w) as [n1 c1]. apply IH. }
  specialize (H (split_ws (trim part)) [] []). rewrite app_nil_r in H. rewrite H.
  destruct (fold_left pushWord (split_ws (trim part)) ([], [])) as [new current].
  cbn [fst snd]. destruct (falsy current); [done|]. by rewrite app_assoc.
Qed.

Lemma fold_splitPart_flat ps acc :
  fold_left splitPart ps acc = acc ++ flat_map (splitPart []) ps.
Proof.
  revert acc. induction ps as [|p ps IH]; intros acc; simpl.
  - by rewrite app_nil_r.
  - by rewrite IH, (splitPart_app acc p), app_assoc.
Qed.

(** X3: the chunks are those of the parts, one part after the other, and the
    chunks cut from one part are packed greedily: no two neighbours among
    them would fit, joined by a space, within the limit of 240. *)
Theorem splitText_greedy (text : jsstring) :
  splitText text = flat_map (splitPart []) (parts text) /\
  (forall part i a b,
     splitPart [] part !! i = Some a -> splitPart [] part !! S i = Some b ->
     240 < length a + length b + 1).
Proof.
  split.
  - unfold splitText. by rewrite fold_splitPart_flat.
  - intros part. destruct (splitPart_tight [] part) as (new & -> & H). exact H.
Qed.

Example splitPart_two_long_words :
  map (@length N) (splitPart [] (repeat 97%N 200 ++ of_string " " ++ repeat 98%N 100
                              ++ of_string " " ++ repeat 99%N 139))
  = [200; 240].
Proof. vm_compute. reflexivity. Qed.

Lemma splitText_greedy_witness :
  240 < length (repeat 97%N 200) + length (repeat 98%N 100 ++ 32%N :: repeat 99%N 139) + 1.
Proof.
  apply (proj2 (splitText_greedy [])
           (repeat 97%N 200 ++ of_string " " ++ repeat 98%N 100
              ++ of_string " " ++ repeat 99%N 139) 0).
  - vm_compute. reflexivity.
  - vm_compute. reflexivity.
Defined.

End ChunkerFacts.

(** ** More on [writeWav]: reading the file back *)
Module WavFacts.
Import Wav.

(** An unsigned little-endian field read back from its bytes. *)
Definition le (bytes : list Z) : Z := foldr (fun b acc => (b + 256 * acc)%Z) 0%Z bytes.

(** A 16-bit field read as a signed number (two's complement). *)
Definition int16 (u : Z) : Z := if (u <? 32768)%Z then u else (u - 65536)%Z.

(** The field of [n] bytes at [offset]. *)
Definition field (offset n : nat) (buffer : list Z) : list Z := take n (drop offset buffer).

Definition is_byte (b : Z) : Prop := (0 <= b < 256)%Z.

Lemma u16le_bytes v : Forall is_byte (u16le v).
Proof.
  unfold u16le, is_byte. repeat constructor;
    pose proof (Z.mod_pos_bound v 65536 ltac:(lia));
    Z.div_mod_to_equations; lia.
Qed.

Lemma u32le_bytes v : Forall is_byte (u32le v).
Proof.
  unfold u32le, is_byte. repeat constructor;
    pose proof (Z.mod_pos_bound v 4294967296 ltac:(lia));
    Z.div_mod_to_equations; lia.
Qed.

Lemma le_u16le v : (0 <= v < 65536)%Z -> le (u16le v) = v.
Proof.
  intros H. unfold le, u16le. simpl. rewrite (Z.mod_small v 65536) by lia.
  Z.div_mod_to_equations. lia.
Qed.

Lemma le_u32le v : (0 <= v < 4294967296)%Z -> le (u32le v) = v.
Proof.
  intros H. unfold le, u32le. simpl. rewrite (Z.mod_small v 4294967296) by lia.
  Z.div_mod_to_equations. lia.
Qed.

Lemma int16_u16le v : (-32768 <= v <= 32767)%Z -> int16 (le (u16le v)) = v.
Proof.
  intros H. unfold le, u16le, int16. simpl.
  destruct (Z_lt_le_dec v 0).
  - assert (v mod 65536 = v + 65536)%Z as ->.
    { symmetry. apply (Z.mod_unique _ _ (-1)); lia. }
    destruct (Z.ltb_spec ((v + 65536) mod 256 + 256 * ((v + 65536) / 256 + 256 * 0)) 32768);
      Z.div_mod_to_equations; lia.
  - rewrite (Z.mod_small v 65536) by lia.
    destruct (Z.ltb_spec (v mod 256 + 256 * (v / 256 + 256 * 0)) 32768);
      Z.div_mod_to_equations; lia.
Qed.

Lemma writeWav_unfold samples sampleRate :
  writeWav samples sampleRate =
    [82; 73; 70; 70]%Z ++ u32le (36 + Z.of_nat (length samples) * 2)
    ++ [87; 65; 86; 69; 102; 109; 116; 32]%Z ++ u32le 16 ++ u16le 1 ++ u16le 1
    ++ u32le sampleRate ++ u32le (sampleRate * 1 * 2) ++ u16le (1 * 2) ++ u16le 16
    ++ [100; 97; 116; 97]%Z ++ u32le (Z.of_nat (length samples) * 2)
    ++ flat_map (fun x => u16le (encodeSample x)) samples.
Proof. reflexivity. Qed.

Lemma flat_map_u16le_bytes samples :
  Forall is_byte (flat_map (fun x => u16le (encodeSample x)) samples).
Proof.
  induction samples as [|x xs IH]; [constructor|].
  cbn [flat_map]. apply Forall_app. split; [apply u16le_bytes | done].
Qed.

(** X4: the buffer [writeWav] builds has 44 + 2n bytes for n samples, every
    element is a byte, and read back little-endian the header says: RIFF,
    WAVE, a 16-byte fmt chunk, PCM, one channel, 16 bits, block align 2, the
    sample rate and twice the sample rate as byte rate (for a rate below
    2^31), and the sizes 36 + 2n and 2n (while they fit 32 bits). *)
Theorem writeWav_header (samples : list number) (sampleRate : Z) :
  let buffer := writeWav samples sampleRate in
  let n := Z.of_nat (length samples) in
  length buffer = 44 + 2 * length samples /\
  Forall is_byte buffer /\
  field 0 4 buffer = writeString "RIFF" /\
  field 8 8 buffer = writeString "WAVEfmt " /\
  field 36 4 buffer = writeString "data" /\
  le (field 16 4 buffer) = 16%Z /\
  le (field 20 2 buffer) = 1%Z /\
  le (field 22 2 buffer) = 1%Z /\
  le (field 32 2 buffer) = 2%Z /\
  le (field 34 2 buffer) = 16%Z /\
  ((0 <= sampleRate < 2147483648)%Z ->
   le (field 24 4 buffer) = sampleRate /\
   le (field 28 4 buffer) = (2 * sampleRate)%Z) /\
  ((36 + 2 * n < 4294967296)%Z ->
   le (field 4 4 buffer) = (36 + 2 * n)%Z /\
   le (field 40 4 buffer) = (2 * n)%Z).
Proof.
  intros buffer n. split; [apply length_writeWav|]. subst buffer.
  split.
  { rewrite writeWav_unfold. repeat (apply Forall_app; split);
      try apply u32le_bytes; try apply u16le_bytes; try apply flat_map_u16le_bytes.
    all: unfold is_byte; repeat constructor; lia. }
  rewrite writeWav_unfold. unfold field, u32le, u16le.
  cbn [app take drop].
  repeat (split; [reflexivity|]).
  split.
  - intros Hr. change (le ?l) with (le l).
    split.
    + apply (le_u32le sampleRate). lia.
    + replace (2 * sampleRate)%Z with (sampleRate * 1 * 2)%Z by lia.
      apply (le_u32le (sampleRate * 1 * 2)). lia.
  - intros Hn. split.
    + replace (36 + 2 * n)%Z with (36 + n * 2)%Z by lia.
      apply (le_u32le (36 + n * 2)). subst n. lia.
    + replace (2 * n)%Z with (n * 2)%Z by lia.
      apply (le_u32le (n * 2)). subst n. lia.
Qed.

Lemma writeWav_header_witness :
  le (field 24 4 (writeWav [Fin (1 # 2); NaN] 24000)) = 24000%Z /\
  le (field 40 4 (writeWav [Fin (1 # 2); NaN] 24000)) = 4%Z.
Proof.
  pose proof (writeWav_header [Fin (1 # 2); NaN] 24000) as H. cbv zeta in H.
  destruct H as (_ & _ & _ & _ & _ & _ & _ & _ & _ & _ & Hr & Hn).
  split.
  - apply Hr. lia.
  - apply Hn. simpl. lia.
Defined.

Lemma encodeSample_range x : (-32768 <= encodeSample x <= 32767)%Z.
Proof.
  unfold encodeSample, ToInt16. destruct (scaled x); try lia. apply wrap16_range.
Qed.

Lemma field_flat_map (f : number -> list Z) samples i x :
  (forall y, length (f y) = 2) -> samples !! i = Some x ->
  take 2 (drop (2 * i) (flat_map f samples)) = f x.
Proof.
  intros Hf. revert i. induction samples as [|y ys IH]; intros i Hi; [done|].
  cbn [flat_map]. destruct i as [|i].
  - injection Hi as ->. change (2 * 0) with 0. rewrite drop_0.
    rewrite take_app_length'; [done | by rewrite Hf].
  - replace (2 * S i) with (length (f y) + 2 * i) by (rewrite Hf; lia).
    rewrite drop_app_add. by apply IH.
Qed.

(** X5: the two bytes stored for sample number i, read back as a signed
    little-endian 16-bit number, are the value the sample was encoded to. *)
Theorem writeWav_sample_reads_back (samples : list number) (sampleRate : Z)
    (i : nat) (x : number) :
  samples !! i = Some x ->
  int16 (le (field (44 + 2 * i) 2 (writeWav samples sampleRate))) = encodeSample x.
Proof.
  intros Hi. rewrite writeWav_unfold. unfold field.
  repeat rewrite app_assoc.
  match goal with |- context [drop _ (?h ++ flat_map ?f samples)] =>
    assert (length h = 44) as Hh by reflexivity;
    replace (44 + 2 * i) with (length h + 2 * i) by (rewrite Hh; lia);
    rewrite (drop_app_add h)
  end.
  rewrite (field_flat_map _ samples i x); [|done|done].
  apply int16_u16le, encodeSample_range.
Qed.

Lemma writeWav_sample_reads_back_witness :
  int16 (le (field (44 + 2 * 1) 2 (writeWav [Fin (1 # 2); Fin (-3 # 2)] 24000)))
  = (-32768)%Z.
Proof.
  apply (writeWav_sample_reads_back [Fin (1 # 2); Fin (-3 # 2)] 24000 1 (Fin (-3 # 2))).
  reflexivity.
Defined.

(** *** The encoding as a function of the sample *)

Definition clampQ (q : Q) : Q :=
  if Qltb q (inject_Z 1)
  then (if Qltb (inject_Z (-1)) q then q else inject_Z (-1))
  else inject_Z 1.

Definition scaleQ (s : Q) : Q :=
  if Qltb s (inject_Z 0) then (s * inject_Z 32768)%Q else (s * inject_Z 32767)%Q.

Lemma clamp_Fin q : clamp (Fin q) = Fin (clampQ q).
Proof.
  unfold clamp, clampQ. cbn [Math_min lt].
  destruct (Qltb q (inject_Z 1)); cbn [Math_max lt]; [|reflexivity].
  by destruct (Qltb (inject_Z (-1)) q).
Qed.

Lemma scaled_Fin q : scaled (Fin q) = Fin (scaleQ (clampQ q)).
Proof.
  unfold scaled. rewrite clamp_Fin. unfold scaleQ. cbn [lt].
  by destruct (Qltb (clampQ q) (inject_Z 0)).
Qed.

Lemma clampQ_range q : (inject_Z (-1) <= clampQ q <= inject_Z 1)%Q.
Proof.
  unfold clampQ. destruct (Qltb q (inject_Z 1)) eqn:E1.
  - destruct (Qltb (inject_Z (-1)) q) eqn:E2.
    + apply Qltb_lt in E1, E2. split; by apply Qlt_le_weak.
    + split; [apply Qle_refl | done].
  - split; [done | apply Qle_refl].
Qed.

Lemma clampQ_mono p q : (p <= q)%Q -> (clampQ p <= clampQ q)%Q.
Proof.
  intros H. unfold clampQ.
  destruct (Qltb p (inject_Z 1)) eqn:P1, (Qltb q (inject_Z 1)) eqn:Q1;
    try destruct (Qltb (inject_Z (-1)) p) eqn:P2;
    try destruct (Qltb (inject_Z (-1)) q) eqn:Q2;
    repeat match goal with
           | H : Qltb _ _ = true |- _ => apply Qltb_lt in H
           | H : Qltb _ _ = false |- _ => apply Qltb_ge in H
           end;
    unfold inject_Z in *; lra.
Qed.

Lemma scaleQ_mono s t :
  (inject_Z (-1) <= s)%Q -> (s <= t)%Q -> (scaleQ s <= scaleQ t)%Q.
Proof.
  intros Hs H. unfold scaleQ.
  destruct (Qltb s (inject_Z 0)) eqn:S0, (Qltb t (inject_Z 0)) eqn:T0;
    repeat match goal with
           | H : Qltb _ _ = true |- _ => apply Qltb_lt in H
           | H : Qltb _ _ = false |- _ => apply Qltb_ge in H
           end;
    unfold inject_Z in *; lra.
Qed.

Lemma Qtrunc_mono x y : (x <= y)%Q -> (Qtrunc x <= Qtrunc y)%Z.
Proof.
  intros H. unfold Qtrunc.
  destruct (Qltb x 0) eqn:X0, (Qltb y 0) eqn:Y0;
    repeat match goal with
           | H : Qltb _ _ = true |- _ => apply Qltb_lt in H
           | H : Qltb _ _ = false |- _ => apply Qltb_ge in H
           end.
  - by apply Qceiling_resp_le.
  - etrans; [apply (Qceiling_resp_le x 0); by apply Qlt_le_weak|].
    etrans; [|apply (Qfloor_resp_le 0 y Y0)]. done.
  - exfalso. lra.
  - by apply Qfloor_resp_le.
Qed.

Lemma scaleQ_range s :
  (inject_Z (-1) <= s <= inject_Z 1)%Q ->
  (inject_Z (-32768) <= scaleQ s <= inject_Z 32767)%Q.
Proof.
  intros [H1 H2]. unfold scaleQ.
  destruct (Qltb s (inject_Z 0)) eqn:S0;
    [apply Qltb_lt in S0 | apply Qltb_ge in S0]; unfold inject_Z in *; split; lra.
Qed.

Lemma encodeSample_Fin q : encodeSample (Fin q) = Qtrunc (scaleQ (clampQ q)).
Proof.
  unfold encodeSample. rewrite scaled_Fin. cbn [ToInt16].
  apply wrap16_small, Qtrunc_range, scaleQ_range, clampQ_range.
Qed.

Lemma Qtrunc_Z c : Qtrunc (inject_Z c) = c.
Proof. unfold Qtrunc. destruct (Qltb _ _); [apply Qceiling_Z | apply Qfloor_Z]. Qed.

Lemma Qtrunc_eq v c : (v <= inject_Z c)%Q -> (inject_Z c <= v)%Q -> Qtrunc v = c.
Proof.
  intros H1 H2. apply Z.le_antisymm.
  - apply Z.le_trans with (Qtrunc (inject_Z c)); [by apply Qtrunc_mono|].
    rewrite Qtrunc_Z. lia.
  - apply Z.le_trans with (Qtrunc (inject_Z c)); [|by apply Qtrunc_mono].
    rewrite Qtrunc_Z. lia.
Qed.

Ltac by_cases_Q :=
  unfold scaleQ, clampQ;
  repeat match goal with
         | |- context [Qltb ?a ?b] =>
             let E := fresh in destruct (Qltb a b) eqn:E;
             [apply Qltb_lt in E | apply Qltb_ge in E]
         end; unfold inject_Z in *; lra.

(** X6: on finite samples the encoding is monotone (a louder sample never
    gets a smaller value), keeps 0 at 0, and saturates: everything at or
    below -1 is stored as -32768, everything at or above 1 as 32767. *)
Theorem encodeSample_monotone (p q : Q) :
  ((p <= q)%Q -> (encodeSample (Fin p) <= encodeSample (Fin q))%Z) /\
  ((q == 0)%Q -> encodeSample (Fin q) = 0%Z) /\
  ((q <= inject_Z (-1))%Q -> encodeSample (Fin q) = (-32768)%Z) /\
  ((inject_Z 1 <= q)%Q -> encodeSample (Fin q) = 32767%Z).
Proof.
  rewrite !encodeSample_Fin. split; [|split; [|split]].
  - intros H. apply Qtrunc_mono, scaleQ_mono; [apply clampQ_range|].
    by apply clampQ_mono.
  - intros H. apply Qtrunc_eq; by_cases_Q.
  - intros H. apply Qtrunc_eq; by_cases_Q.
  - intros H. apply Qtrunc_eq; by_cases_Q.
Qed.

Lemma encodeSample_monotone_witness :
  (encodeSample (Fin (-1 # 4)) <= encodeSample (Fin (1 # 3)))%Z.
Proof.
  apply (proj1 (encodeSample_monotone (-1 # 4) (1 # 3))). done.
Defined.

End WavFacts.

(** ** SampleClamp: what [writeWav] stores for a sample *)
Module WavClamp.
Import Wav WavFacts.

(** The two bytes [view.setInt16(44 + i * 2, ..., true)] writes. *)
Lemma writeWav_sample_field (samples : list number) (sampleRate : Z) (i : nat)
    (x : number) :
  samples !! i = Some x ->
  field (44 + 2 * i) 2 (writeWav samples sampleRate) = u16le (encodeSample x).
Proof.
  intros Hi. rewrite writeWav_unfold. unfold field.
  repeat rewrite app_assoc.
  match goal with |- context [drop _ (?h ++ flat_map ?f samples)] =>
    assert (length h = 44) as Hh by reflexivity;
    replace (44 + 2 * i) with (length h + 2 * i) by (rewrite Hh; lia);
    rewrite (drop_app_add h)
  end.
  by rewrite (field_flat_map _ samples i x).
Qed.

(** C8, as stated, fails for one sample: [Math.min] and [Math.max] return
    NaN when an argument is NaN, so a NaN sample is not clamped to [-1, 1]:
    it is NaN after the clamp and after the scaling, and [setInt16] stores
    0 for it. *)
Lemma writeWav_NaN_not_clamped :
  [NaN] !! 0 = Some NaN /\
  clamp NaN = NaN /\ (forall s, clamp NaN <> Fin s) /\
  scaled NaN = NaN /\
  int16 (le (field (44 + 2 * 0) 2 (writeWav [NaN] 24000))) = 0%Z.
Proof. split; [done|]. split; [done|]. split; [discriminate|]. by split. Qed.

(** C8, amended: every sample but NaN is clamped to [-1, 1] before the
    integer conversion: a finite sample inside the interval is kept, one
    below becomes -1 and one above 1, the infinities included.  The clamped
    value is multiplied by 32768 when negative and by 32767 otherwise, the
    product lies in [-32768, 32767], and the two bytes written for the
    sample hold its truncation: nothing overflows or wraps around.  A NaN
    sample stays NaN and is stored as 0.  So each written value lies in
    [-32768, 32767]. *)
Theorem writeWav_sample_clamped (samples : list number) (sampleRate : Z)
    (i : nat) (x : number) :
  samples !! i = Some x ->
  let stored := int16 (le (field (44 + 2 * i) 2 (writeWav samples sampleRate))) in
  field (44 + 2 * i) 2 (writeWav samples sampleRate) = u16le stored /\
  (-32768 <= stored <= 32767)%Z /\
  match x with
  | NaN => clamp x = NaN /\ stored = 0%Z
  | Inf negative =>
      clamp x = Fin (inject_Z (if negative then -1 else 1)) /\
      stored = (if negative then -32768 else 32767)%Z
  | Fin q =>
      exists s v,
        clamp x = Fin s /\
        (inject_Z (-1) <= s <= inject_Z 1)%Q /\
        ((inject_Z (-1) < q)%Q -> (q < inject_Z 1)%Q -> s = q) /\
        ((q <= inject_Z (-1))%Q -> s = inject_Z (-1)) /\
        ((inject_Z 1 <= q)%Q -> s = inject_Z 1) /\
        scaled x = Fin v /\
        ((s < 0)%Q -> v = (s * inject_Z 32768)%Q) /\
        ((0 <= s)%Q -> v = (s * inject_Z 32767)%Q) /\
        (inject_Z (-32768) <= v <= inject_Z 32767)%Q /\
        stored = Qtrunc v
  end.
Proof.
  intros Hi stored.
  assert (stored = encodeSample x) as Hs.
  { subst stored. rewrite (writeWav_sample_field _ _ _ _ Hi).
    apply int16_u16le, encodeSample_range. }
  split; [by rewrite (writeWav_sample_field _ _ _ _ Hi), Hs|].
  split; [rewrite Hs; apply encodeSample_range|].
  rewrite Hs. clear Hs stored Hi.
  destruct x as [|[]|q]; [done|done|done|].
  exists (clampQ q), (scaleQ (clampQ q)).
  split; [apply clamp_Fin|]. split; [apply clampQ_range|].
  split; [|split; [|split]].
  - intros H1%Qltb_lt H2%Qltb_lt. unfold clampQ. by rewrite H1, H2.
  - intros H. unfold clampQ.
    assert (Qltb q (inject_Z 1) = true) as ->.
    { apply Qltb_lt. unfold inject_Z in *. lra. }
    apply Qltb_ge in H. by rewrite H.
  - intros H%Qltb_ge. unfold clampQ. by rewrite H.
  - split; [apply scaled_Fin|].
    split; [|split; [|split]].
    + intros H%Qltb_lt. unfold scaleQ. change (inject_Z 0) with 0%Q. by rewrite H.
    + intros H%Qltb_ge. unfold scaleQ. change (inject_Z 0) with 0%Q. by rewrite H.
    + apply scaleQ_range, clampQ_range.
    + apply encodeSample_Fin.
Qed.

Lemma writeWav_sample_clamped_witness :
  int16 (le (field (44 + 2 * 1) 2 (writeWav [Fin (1 # 2); Fin (-3 # 2); NaN] 24000)))
  = Qtrunc (inject_Z (-1) * inject_Z 32768).
Proof.
  destruct (writeWav_sample_clamped [Fin (1 # 2); Fin (-3 # 2); NaN] 24000 1
              (Fin (-3 # 2)) eq_refl)
    as (_ & _ & s & v & _ & _ & _ & Hlow & _ & _ & Hneg & _ & _ & Hst).
  rewrite Hst, Hneg; rewrite Hlow; done.
Defined.

End WavClamp.

(** ** More on [cleanupFiles]: the order of the deletions *)
Module CleanupFacts.
Import Async TempFiles.

(** X7: what [cleanupFiles] leaves on disk depends only on the set of paths
    it is given: neither their order nor repetitions matter, and one call on
    two lists put together does what two calls, one after the other, do.
    The unlinks [Promise.all] runs side by side may thus finish in any
    order. *)
Theorem cleanupFiles_order_irrelevant (files files' : list string) (d : disk) :
  ((forall p, p ∈ files <-> p ∈ files') ->
   cleanupFiles files d = cleanupFiles files' d) /\
  cleanupFiles (files ++ files') d
  = cleanupFiles files' (cleanupFiles files d).1.
Proof.
  assert (forall fs1 fs2 d1 d2,
            present d1 ∖ (list_to_set fs1 ∖ locked d1)
            = present d2 ∖ (list_to_set fs2 ∖ locked d2) ->
            locked d1 = locked d2 ->
            cleanupFiles fs1 d1 = cleanupFiles fs2 d2) as Heq.
  { intros fs1 fs2 d1 d2 Hp Hl.
    pose proof (cleanupFiles_disk fs1 d1) as [P1 L1].
    pose proof (cleanupFiles_disk fs2 d2) as [P2 L2].
    pose proof (cleanupFiles_resolves fs1 d1) as R1.
    pose proof (cleanupFiles_resolves fs2 d2) as R2.
    destruct (cleanupFiles fs1 d1) as [e1 r1], (cleanupFiles fs2 d2) as [e2 r2].
    simpl in *. subst r1 r2. f_equal. apply disk_eq; congruence. }
  split.
  - intros Hsame. apply Heq; [|done]. f_equal. f_equal.
    apply set_eq. intros p. rewrite !elem_of_list_to_set. apply Hsame.
  - pose proof (cleanupFiles_disk files d) as [P1 L1].
    apply Heq; [|by rewrite L1]. rewrite P1, L1.
    apply set_eq. intros p. rewrite list_to_set_app_L. set_unfold. naive_solver.
Qed.

Lemma cleanupFiles_order_irrelevant_witness :
  cleanupFiles ["/tmp/a.wav"; "/tmp/b.wav"] {| present := {["/tmp/a.wav"]}; locked := ∅ |}
  = cleanupFiles ["/tmp/b.wav"; "/tmp/a.wav"; "/tmp/b.wav"]
      {| present := {["/tmp/a.wav"]}; locked := ∅ |}.
Proof.
  apply (proj1 (cleanupFiles_order_irrelevant ["/tmp/a.wav"; "/tmp/b.wav"]
                  ["/tmp/b.wav"; "/tmp/a.wav"; "/tmp/b.wav"] _)).
  intros p. rewrite !elem_of_cons, !elem_of_nil. tauto.
Defined.

End CleanupFacts.

(** ** More on the player cascade of audio.ts *)
Module PlayerFacts.
Import Async Player.

(** The message of the error [tryPlayers] throws once every candidate has
    exited non-zero. *)
Definition aggregate (players : list player) : exn :=
  Error ("All audio players failed: " +:+ String.concat ", " (map name players)).

(** The command of the cache-hit block, if it runs one. *)
Definition cached_cmd (players : list player) (st : audio) : list (list string) :=
  match cached_player players st with
  | Some cached => [cmd cached]
  | None => []
  end.

Section Engine.
Variable world : nat -> outcome.

Lemma showToast_toasts client message st :
  toasts (showToast client message st).1
  = toasts st ++ match client with Some _ => [message] | None => [] end.
Proof. destruct client as [[]|]; cbn; by rewrite ?app_nil_r. Qed.

Lemma showToast_rest client message st :
  lastWorkingPlayer (showToast client message st).1 = lastWorkingPlayer st /\
  attempts (showToast client message st).1 = attempts st.
Proof. by destruct client as [[]|]. Qed.

Lemma tryInOrder_throws players errors st st' e :
  tryInOrder world players errors st = (st', Thrown e) -> e = Error "spawn failed".
Proof.
  revert errors st. induction players as [|p ps IH]; intros errors st; [done|].
  cbn [tryInOrder]. unfold bind at 1, runCommand.
  destruct (world (length (attempts st))) as [code|].
  - destruct (code =? 0)%Z; [done|]. apply IH.
  - by intros [= _ <-].
Qed.

(** The loop leaves the toasts alone and runs a prefix of the candidates'
    commands; it comes to its end exactly with [Some] of all the names. *)
Lemma tryInOrder_run players st :
  let r := tryInOrder world players [] st in
  toasts r.1 = toasts st /\
  exists tried, tried `prefix_of` map cmd players /\
    attempts r.1 = attempts st ++ tried /\
    match r.2 with
    | Returned (Some errs) => errs = map name players /\ tried = map cmd players
    | Returned None => tried <> []
    | Thrown e => e = Error "spawn failed" /\ tried <> []
    end.
Proof.
  intros r. subst r. pose proof (tryInOrder_spec world players [] st) as H.
  destruct (tryInOrder world players [] st) as [st' [[errs|]|e]] eqn:E; cbn [fst snd].
  - destruct H as (_ & -> & ->). split; [done|]. by exists (map cmd players).
  - destruct H as (pre & p & post & -> & _ & _ & ->). split; [done|].
    exists (map cmd (pre ++ [p])). split; [|split; [done|]].
    + exists (map cmd post). rewrite <- map_app, <- app_assoc. done.
    + rewrite map_app. by destruct (map cmd pre).
  - destruct H as (pre & p & post & -> & _ & Hp & ->). split; [done|].
    exists (map cmd (pre ++ [p])). split; [|split; [done|split]].
    + exists (map cmd post). rewrite <- map_app, <- app_assoc. done.
    + by apply (tryInOrder_throws _ _ _ _ _ E).
    + rewrite map_app. by destruct (map cmd pre).
Qed.

Lemma tryCached_run players st :
  let r := tryCached world players st in
  toasts r.1 = toasts st /\
  attempts r.1 = attempts st ++ cached_cmd players st /\
  match r.2 with
  | Returned true => cached_cmd players st <> []
  | Returned false => True
  | Thrown e => e = Error "spawn failed" /\ cached_cmd players st <> []
  end.
Proof.
  intros r. subst r. unfold cached_cmd.
  destruct (cached_player players st) as [cached|] eqn:Ec.
  - rewrite (tryCached_warm _ _ _ _ Ec).
    destruct (world _) as [code|]; [destruct (code =? 0)%Z|]; simpl; done.
  - rewrite (tryCached_cold _ _ _ Ec). simpl. by rewrite app_nil_r.
Qed.

(** One call as a whole. *)
Lemma tryPlayers_run players platform client st :
  let r := tryPlayers world players platform client st in
  exists tried, tried `prefix_of` map cmd players /\
    attempts r.1 = attempts st ++ cached_cmd players st ++ tried /\
    match r.2 with
    | Returned _ =>
        cached_cmd players st ++ tried <> [] /\ toasts r.1 = toasts st
    | Thrown e =>
        (e = Error "spawn failed" /\ cached_cmd players st ++ tried <> [] /\
         toasts r.1 = toasts st) \/
        (e = aggregate players /\ tried = map cmd players /\
         toasts r.1 = toasts st ++
           match client with
           | Some _ => [getInstallHelp platform (map name players)]
           | None => []
           end)
    end.
Proof.
  intros r. subst r. rewrite tryPlayers_unfold.
  pose proof (tryCached_run players st) as (Ht & Ha & Hr).
  destruct (tryCached world players st) as [st1 [[]|e]]; cbn [fst snd] in *.
  - exists []. split; [apply prefix_nil|]. rewrite app_nil_r. done.
  - pose proof (tryInOrder_run players st1) as (Ht2 & tried & Hpre & Ha2 & Hr2).
    exists tried. split; [done|].
    destruct (tryInOrder world players [] st1) as [st2 [[errs|]|e]];
      cbn [fst snd finish] in *.
    + destruct Hr2 as [-> ->].
      destruct (showToast_rest client (getInstallHelp platform (map name players)) st2)
        as [_ Hsa].
      rewrite Hsa, Ha2, Ha, app_assoc. split; [done|]. right.
      split; [done|]. split; [done|]. by rewrite showToast_toasts, Ht2, Ht.
    + rewrite Ha2, Ha, app_assoc. split; [done|]. split; [|congruence].
      intros [_ ?]%app_eq_nil. done.
    + destruct Hr2 as [-> Hne]. rewrite Ha2, Ha, app_assoc. split; [done|]. left.
      split; [done|]. split; [|congruence]. intros [_ ?]%app_eq_nil. done.
  - destruct Hr as [-> Hne]. exists []. split; [apply prefix_nil|].
    rewrite app_nil_r. split; [done|]. by left.
Qed.

End Engine.

Lemma cached_cmd_spec players st :
  length (cached_cmd players st) <= 1 /\
  Forall (fun c => c ∈ map cmd players) (cached_cmd players st).
Proof.
  unfold cached_cmd, cached_player.
  destruct (lastWorkingPlayer st) as [last|]; [|by split; [simpl; lia|]].
  destruct (truthy last); [|by split; [simpl; lia|]].
  destruct (find _ players) as [cached|] eqn:Ef; [|by split; [simpl; lia|]].
  split; [simpl; lia|]. constructor; [|done].
  apply find_some in Ef as [Hin _]. apply list_elem_of_In, in_map, Hin.
Qed.

(** X8: one call of [tryPlayers] runs at most one command more than there
    are candidates, and only commands of candidates: the cached one first, if
    the cache names a candidate, then the candidates from the first on, in
    declared order and without a gap.  A call that returns has run at least
    one command, and the last one it ran exited with code 0. *)
Theorem tryPlayers_runs_candidates_only (world : nat -> outcome)
    (players : list player) (platform : string) (client : option bool)
    (st : audio) :
  let r := tryPlayers world players platform client st in
  exists ran,
    attempts r.1 = attempts st ++ ran /\
    length ran <= S (length players) /\
    Forall (fun c => c ∈ map cmd players) ran /\
    (exists tried, tried `prefix_of` map cmd players /\
       ran = cached_cmd players st ++ tried) /\
    (r.2 = Returned tt ->
     ran <> [] /\ world (length (attempts st ++ ran) - 1) = Exited 0).
Proof.
  intros r.
  destruct (tryPlayers_run world players platform client st)
    as (tried & Hpre & Ha & Hr). fold r in Ha, Hr.
  destruct (cached_cmd_spec players st) as [Hlen Hall].
  exists (cached_cmd players st ++ tried). split; [done|]. split; [|split; [|split]].
  - rewrite length_app. apply prefix_length in Hpre. rewrite length_map in Hpre. lia.
  - apply Forall_app. split; [done|]. apply Forall_forall. intros c Hc.
    destruct Hpre as [post ->]. apply elem_of_app. by left.
  - by exists tried.
  - intros Hok. rewrite Hok in Hr. destruct Hr as [Hne _]. split; [done|].
    destruct (r.1) as [lw att ts] eqn:E1. destruct r as [r1 r2] eqn:Er.
    simpl in Hok, E1. subst r1 r2.
    destruct (tryPlayers_success world players platform client st _ Er)
      as (x & _ & _ & _ & n & Hn & Hw).
    rewrite <- Ha. rewrite <- Hn. simpl. by rewrite Nat.sub_0_r.
Qed.

(** X9: the toast.  A call shows a toast only when it is given a client and
    every candidate has exited non-zero, and then shows one, with the install
    help for the platform and the names of all the candidates.  Whether there
    is a client, and whether its [showToast] rejects, changes neither how the
    call ends nor the cache nor the commands run. *)
Theorem tryPlayers_toast (world : nat -> outcome) (players : list player)
    (platform : string) (client : option bool) (st : audio) :
  let r := tryPlayers world players platform client st in
  let quiet := tryPlayers world players platform None st in
  r.2 = quiet.2 /\
  lastWorkingPlayer r.1 = lastWorkingPlayer quiet.1 /\
  attempts r.1 = attempts quiet.1 /\
  toasts quiet.1 = toasts st /\
  (client <> None -> r.2 = Thrown (aggregate players) ->
   toasts r.1 = toasts st ++ [getInstallHelp platform (map name players)]) /\
  (client = None \/ r.2 <> Thrown (aggregate players) -> toasts r.1 = toasts st).
Proof.
  intros r quiet.
  assert (r.2 = quiet.2 /\ lastWorkingPlayer r.1 = lastWorkingPlayer quiet.1 /\
          attempts r.1 = attempts quiet.1) as (H2 & Hl & Ha).
  { subst r quiet. rewrite !tryPlayers_unfold.
    destruct (tryCached world players st) as [st1 [[]|e]]; [done| |done].
    destruct (tryInOrder world players [] st1) as [st2 [[errs|]|e]];
      cbn [finish fst snd]; [|done|done].
    split; [done|].
    destruct (showToast_rest client (getInstallHelp platform errs) st2) as [-> ->].
    done. }
  split; [done|]. split; [done|]. split; [done|].
  destruct (tryPlayers_run world players platform None st) as (tq & _ & _ & Hq).
  destruct (tryPlayers_run world players platform client st) as (tr & _ & _ & Hr).
  fold r in Hr. fold quiet in Hq. clearbody r quiet. split; [|split].
  - destruct (quiet.2); [tauto|]. destruct Hq as [(_ & _ & ?)|(_ & _ & ?)]; [done|].
    by rewrite app_nil_r in *.
  - intros Hc He. rewrite He in Hr.
    destruct Hr as [([=] & _)|(_ & _ & Ht)]. rewrite Ht. by destruct client.
  - intros Hc. destruct (r.2) as [[]|e]; [tauto|].
    destruct Hr as [(_ & _ & Ht)|(-> & _ & Ht)]; [done|].
    destruct Hc as [->|Hc]; [|done]. by rewrite app_nil_r in Ht.
Qed.

(** The one message [playAudio] can show on a platform. *)
Definition help_shown (platform : string) : string :=
  if String.eqb platform "darwin"
  then "TTS audio failed. Install ffmpeg: brew install ffmpeg"
  else if String.eqb platform "win32"
  then "TTS audio failed. Install ffmpeg: winget install ffmpeg"
  else if String.eqb platform "linux"
  then "TTS audio failed. Install: sudo apt install pulseaudio-utils alsa-utils"
  else "TTS audio playback failed. Install ffmpeg or a system audio player".

Lemma getInstallHelp_all platform filePath :
  getInstallHelp platform (map name (players_for platform filePath))
  = help_shown platform.
Proof.
  unfold getInstallHelp, help_shown, players_for.
  destruct (String.eqb platform "darwin"); [done|].
  destruct (String.eqb platform "win32"); [done|].
  by destruct (String.eqb platform "linux").
Qed.

(** X10: [getInstallHelp] is only ever called with the names of all the
    candidates of the platform, so of its eight messages [playAudio] can
    show four, one per platform: the two that begin with
    [TTS audio playback failed. Try:] and, on Linux, the two that name
    ffmpeg are never shown.  A call shows at most one toast, and only when
    it has a client and raises. *)
Theorem playAudio_help_shown (world : nat -> outcome) (platform filePath : string)
    (client : option bool) (st : audio) :
  let r := playAudio world platform filePath client st in
  toasts r.1 = toasts st \/
  (toasts r.1 = toasts st ++ [help_shown platform] /\
   client <> None /\ exists e, r.2 = Thrown e).
Proof.
  intros r. subst r. unfold playAudio.
  destruct (tryPlayers_run world (players_for platform filePath) platform client st)
    as (tried & _ & _ & Hr).
  destruct ((tryPlayers world (players_for platform filePath) platform client st).2)
    as [[]|e] eqn:E2.
  - left. tauto.
  - destruct Hr as [(_ & _ & Ht)|(_ & _ & Ht)]; [by left|].
    destruct client as [ok|].
    + right. rewrite Ht, getInstallHelp_all. split; [done|]. split; [done|]. eauto.
    + left. by rewrite Ht, app_nil_r.
Qed.

End PlayerFacts.

(** ** The tracked player process: [currentProcess], [runCommand] and
    [cancelAudioPlayback] of audio.ts

    [runCommand] is suspended at [await proc.exited] while the player runs,
    and other code of the process runs in between: another [runCommand],
    or [cancelAudioPlayback].  Processes are numbered in the order they are
    spawned. *)
Module Tracking.

Record procs := {
  currentProcess : option nat;
  running : gset nat;       (* spawned, [proc.exited] not yet resolved *)
  killed : list nat;        (* the calls of [kill()], in order *)
  spawned : nat }.          (* how many processes were spawned *)

Inductive event :=
| Spawn             (* [runCommand] from its start to [await proc.exited] *)
| Exited (p : nat)  (* [proc.exited] resolves; [runCommand] runs to its end *)
| CancelPlayback.   (* [cancelAudioPlayback()] *)

Definition init : procs :=
  {| currentProcess := None; running := ∅; killed := []; spawned := 0 |}.

Definition cancelAudioPlayback (st : procs) : procs :=
  match currentProcess st with
  | None => st
  | Some p =>
      {| currentProcess := None; running := running st;
         killed := killed st ++ [p]; spawned := spawned st |}
  end.

Definition runCommand_spawn (st : procs) : procs :=
  let proc := spawned st in
  {| currentProcess := Some proc; running := running st ∪ {[proc]};
     killed := killed st; spawned := S (spawned st) |}.

Definition runCommand_resume (proc : nat) (st : procs) : procs :=
  {| currentProcess :=
       if bool_decide (currentProcess st = Some proc) then None
       else currentProcess st;
     running := running st ∖ {[proc]};
     killed := killed st; spawned := spawned st |}.

(** A process exits once, and only if it runs. *)
Definition react (st : procs) (e : event) : procs :=
  match e with
  | Spawn => runCommand_spawn st
  | Exited p => if bool_decide (p ∈ running st) then runCommand_resume p st else st
  | CancelPlayback => cancelAudioPlayback st
  end.

Definition run (es : list event) : procs := fold_left react es init.

(** No player is started while another one plays: each [runCommand] begins
    when every process spawned before has exited or was killed. *)
Fixpoint one_at_a_time (st : procs) (es : list event) : Prop :=
  match es with
  | [] => True
  | e :: rest =>
      (e = Spawn -> forall p, p ∈ running st -> p ∈ killed st) /\
      one_at_a_time (react st e) rest
  end.

Definition inv (st : procs) : Prop :=
  (forall p, currentProcess st = Some p -> p ∈ running st /\ S p = spawned st) /\
  (forall p, p ∈ running st -> p < spawned st) /\
  (forall p, p ∈ killed st -> p < spawned st) /\
  NoDup (killed st) /\
  (forall p, currentProcess st = Some p -> p ∉ killed st).

Lemma inv_init : inv init.
Proof.
  unfold inv, init; simpl. split; [done|]. split; [set_solver|].
  split; [set_solver|]. split; [constructor | done].
Qed.

Lemma react_inv st e : inv st -> inv (react st e).
Proof.
  intros (Hc & Hr & Hk & Hnd & Hck). destruct e as [|p|]; simpl.
  - unfold runCommand_spawn, inv; simpl. split; [|split; [|split; [|split]]].
    + intros p [= <-]. split; [set_solver | done].
    + intros p [H| ->%elem_of_singleton]%elem_of_union; [|lia].
      specialize (Hr p H). lia.
    + intros p H. specialize (Hk p H). lia.
    + done.
    + intros p [= <-] H. specialize (Hk _ H). lia.
  - case_bool_decide as Hp; [|done].
    unfold runCommand_resume, inv; simpl. split; [|split; [|split; [|split]]].
    + intros q. case_bool_decide as Hq; [done|]. intros Hcq.
      destruct (Hc q Hcq) as [H1 H2]. split; [|done].
      apply elem_of_difference. split; [done|].
      intros ->%elem_of_singleton. done.
    + intros q [H _]%elem_of_difference. by apply Hr.
    + done.
    + done.
    + intros q. case_bool_decide; [done|]. apply Hck.
  - unfold cancelAudioPlayback. destruct (currentProcess st) as [p|] eqn:E.
    + unfold inv; simpl. split; [done|]. split; [done|]. split; [|split; [|done]].
      * intros q [H| ->%list_elem_of_singleton]%elem_of_app; [by apply Hk|].
        destruct (Hc p eq_refl). lia.
      * apply NoDup_app. split; [done|]. split; [|apply NoDup_singleton].
        intros q Hq ->%list_elem_of_singleton. by apply (Hck p).
    + unfold inv. rewrite E. done.
Qed.

Lemma track_run_snoc es e : run (es ++ [e]) = react (run es) e.
Proof. unfold run. by rewrite fold_left_app. Qed.

Lemma run_inv es : inv (run es).
Proof.
  induction es as [|e es IH] using rev_ind; [apply inv_init|].
  rewrite track_run_snoc. by apply react_inv.
Qed.

(** All that runs is the tracked process or a process that was killed and
    has not exited yet. *)
Definition reachable (st : procs) : Prop :=
  forall p, p ∈ running st -> currentProcess st = Some p \/ p ∈ killed st.

Lemma react_reachable st e :
  (e = Spawn -> forall p, p ∈ running st -> p ∈ killed st) ->
  reachable st -> reachable (react st e).
Proof.
  intros Hone Hr. destruct e as [|p|]; simpl.
  - intros p [Hp| ->%elem_of_singleton]%elem_of_union; [right|by left].
    by apply Hone.
  - case_bool_decide as Hp; [|done]. intros q [H Hne]%elem_of_difference.
    simpl. destruct (Hr q H) as [Hq|Hq]; [|by right]. left.
    case_bool_decide as Hq'; [|done]. rewrite Hq in Hq'.
    injection Hq' as ->. set_solver.
  - unfold cancelAudioPlayback.
    destruct (currentProcess st) as [p|] eqn:E; [|done].
    intros q Hq. right. simpl in *.
    destruct (Hr q Hq) as [Hc|H]; apply elem_of_app; [right|by left].
    rewrite E in Hc. injection Hc as ->. by apply list_elem_of_singleton.
Qed.

Lemma fold_reachable es st :
  one_at_a_time st es -> reachable st -> reachable (fold_left react es st).
Proof.
  revert st. induction es as [|e es IH]; intros st Hone Hr; [done|].
  destruct Hone as [H1 H2]. simpl. apply IH; [done|]. by apply react_reachable.
Qed.

(** X11: whatever the order in which players are started, exit and are
    cancelled, [currentProcess] is null or the process spawned last, and
    that process still runs and was never killed.  So [kill()] is called on
    running processes only, never twice on the same one.  The end of a
    [runCommand] untracks its own process and no other: when an earlier
    process exits, the later process that is tracked stays tracked. *)
Theorem currentProcess_runs (es : list event) :
  let st := run es in
  (forall p, currentProcess st = Some p ->
     p ∈ running st /\ S p = spawned st /\ p ∉ killed st) /\
  NoDup (killed st) /\
  (forall p, p ∈ killed st \/ p ∈ running st -> p < spawned st) /\
  (forall p q, currentProcess st = Some q -> p <> q ->
     currentProcess (react st (Exited p)) = Some q) /\
  (forall q, currentProcess st = Some q ->
     currentProcess (react st (Exited q)) = None).
Proof.
  intros st. destruct (run_inv es) as (Hc & Hr & Hk & Hnd & Hck). fold st in Hc, Hr, Hk, Hnd, Hck.
  split; [|split; [done|split; [|split]]].
  - intros p Hp. destruct (Hc p Hp). split; [done|]. split; [done|]. by apply Hck.
  - intros p [H|H]; auto.
  - intros p q Hq Hne. simpl. case_bool_decide; [|done]. simpl.
    case_bool_decide as H'; [|done]. rewrite Hq in H'. by injection H' as ->.
  - intros q Hq. simpl. destruct (Hc q Hq) as [Hrun _].
    rewrite bool_decide_true by done. simpl. by rewrite bool_decide_true.
Qed.

(** Two players at once: process 0 exits while process 1 is tracked, and
    process 1 stays tracked. *)
Example earlier_exit_keeps_later_tracked :
  currentProcess (run [Spawn; Spawn]) = Some 1 /\
  currentProcess (run [Spawn; Spawn; Exited 0]) = Some 1 /\
  currentProcess (run [Spawn; Spawn; Exited 0; Exited 1]) = None.
Proof. vm_compute. by repeat split. Qed.

(** X12: as long as no player is started while another one plays, which is
    how one call of [speakLocal] plays its chunks, every process that still
    runs is the tracked one or has been killed already: after
    [cancelAudioPlayback] nothing runs that was not killed. *)
Theorem cancelAudioPlayback_reaches_all (es : list event) :
  one_at_a_time init es ->
  let st := run es in
  (forall p, p ∈ running st -> currentProcess st = Some p \/ p ∈ killed st) /\
  (forall p, p ∈ running (cancelAudioPlayback st) -> p ∈ killed (cancelAudioPlayback st)).
Proof.
  intros Hone st.
  assert (reachable st) as Hr by (apply fold_reachable; [done|]; intros p; set_solver).
  split; [done|].
  assert (CancelPlayback = Spawn -> forall p, p ∈ running st -> p ∈ killed st)
    as H0 by done.
  pose proof (react_reachable st CancelPlayback H0 Hr) as H.
  intros p Hp.
  destruct (H p Hp) as [Hc|Hk]; [|done]. simpl in Hc. clear -Hc. clearbody st.
  unfold cancelAudioPlayback in Hc. destruct (currentProcess st) eqn:E; simpl in Hc; congruence.
Qed.

Lemma cancelAudioPlayback_reaches_all_witness :
  1 ∈ killed (cancelAudioPlayback
                (run [Spawn; Exited 0; Spawn; CancelPlayback; Spawn])).
Proof.
  refine (proj2 (cancelAudioPlayback_reaches_all
                   [Spawn; Exited 0; Spawn; CancelPlayback; Spawn] _) 1 _).
  - cbn [one_at_a_time]. repeat split; try discriminate; intros _ p.
    replace (react (react (react (react init Spawn) (Exited 0)) Spawn) CancelPlayback)
      with {| currentProcess := None; running := {[1]}; killed := [1]; spawned := 2 |}
      by (vm_compute; reflexivity).
    simpl. intros ->%elem_of_singleton. by apply list_elem_of_singleton.
  - replace (cancelAudioPlayback (run [Spawn; Exited 0; Spawn; CancelPlayback; Spawn]))
      with {| currentProcess := None; running := {[1; 2]}; killed := [1; 2];
              spawned := 3 |}
      by (vm_compute; reflexivity).
    simpl. set_solver.
Defined.

(** With two players at once the property is lost: process 0 still runs
    when process 1 has exited, but nothing tracks it and no cancel kills
    it. *)
Example untracked_player :
  let st := run [Spawn; Spawn; Exited 1] in
  0 ∈ running st /\ currentProcess st = None /\
  killed (cancelAudioPlayback st) = [].
Proof. split; [|done]. vm_compute. set_solver. Qed.

End Tracking.

(** ** More on the HTTP backend: what a call does to the outside *)
Module HttpFacts.
Import Async JsString Types Http.

(** The commands [playAudio] of engine-http.ts has for a platform. *)
Definition commands (platform filePath : string) : list string :=
  if String.eqb platform "darwin" then ["afplay " +:+ filePath]
  else if String.eqb platform "win32" then
    ["powershell -c " +:+ dquote +:+ "(New-Object Media.SoundPlayer '"
       +:+ filePath +:+ "').PlaySync()" +:+ dquote]
  else ["paplay " +:+ filePath; "aplay " +:+ filePath; "mpv --no-video " +:+ filePath].

(** The commands run when they are tried in turn up to the first that
    succeeds. *)
Fixpoint until_success (ok : string -> bool) (cs : list string) : list string :=
  match cs with
  | [] => []
  | c :: rest => c :: if ok c then [] else until_success ok rest
  end.

(** The file [speakHttp] writes: [join(tmpdir(), name)], the name being made
    of the clock and of the extension. *)
Definition audioPath (w : world) (config : TtsConfig) : string :=
  join w (tmpdir w)
    ("opencode-tts-" +:+ now w +:+ "."
       +:+ match httpFormat config with mp3 => "mp3" | _ => "wav" end).

Definition skipped (text : jsstring) (config : TtsConfig) : bool :=
  negb (enabled config) || falsy text || (length (trim text) =? 0).

Lemma playAudio_run w filePath log :
  playAudio w filePath log
  = (log ++ map Shell (until_success (shell_ok w) (commands (platform w) filePath)),
     Returned tt).
Proof.
  unfold playAudio, commands, try_catch, shell, step, ret.
  destruct (String.eqb (platform w) "darwin").
  { simpl. by destruct (shell_ok w _). }
  destruct (String.eqb (platform w) "win32").
  { simpl. by destruct (shell_ok w _). }
  simpl.
  destruct (shell_ok w ("paplay " +:+ filePath)); [done|].
  destruct (shell_ok w ("aplay " +:+ filePath)); [by rewrite <- app_assoc|].
  destruct (shell_ok w ("mpv --no-video " +:+ filePath)); by rewrite <- !app_assoc.
Qed.

(** What one call adds to the log. *)
Definition trace (w : world) (text : jsstring) (config : TtsConfig) : list effect :=
  if skipped text config then []
  else
    Fetch (httpUrl config +:+ "/v1/audio/speech") ::
    match fetch_response w with
    | Some true =>
        ReadBody ::
        if body_ok w then
          WriteFile (audioPath w config) ::
          if write_ok w then
            map Shell (until_success (shell_ok w)
                         (commands (platform w) (audioPath w config)))
          else []
        else []
    | _ => []
    end.

Lemma speakHttp_run w text config log :
  speakHttp w text config log = (log ++ trace w text config, Returned tt).
Proof.
  unfold speakHttp, trace. fold (skipped text config).
  destruct (skipped text config); [by rewrite app_nil_r|].
  unfold try_catch, bind at 1, fetch.
  destruct (fetch_response w) as [[]|]; [|done|done]. simpl.
  unfold bind at 1, step at 1. destruct (body_ok w); [|by rewrite <- app_assoc].
  unfold bind at 1, step at 1. fold (audioPath w config).
  destruct (write_ok w); [|by rewrite <- !app_assoc].
  rewrite playAudio_run. by rewrite <- !app_assoc.
Qed.

Lemma until_success_spec ok cs :
  exists rest, cs = until_success ok cs ++ rest /\
    (forall c, c ∈ until_success ok cs -> ok c = true -> last (until_success ok cs) = Some c) /\
    (rest <> [] -> exists c, last (until_success ok cs) = Some c /\ ok c = true).
Proof.
  induction cs as [|c cs (rest & Hcs & Hall & Hlast)]; simpl.
  - exists []. split; [done|]. split; [by intros c ?%elem_of_nil | done].
  - destruct (ok c) eqn:E.
    + exists cs. split; [done|]. split.
      * by intros x ->%list_elem_of_singleton _.
      * intros _. by exists c.
    + exists rest. split; [by f_equal|]. split.
      * intros x [->|Hx]%elem_of_cons Hok; [congruence|].
        specialize (Hall x Hx Hok). destruct (until_success ok cs); [done|].
        by rewrite last_cons, Hall.
      * intros Hne. destruct (Hlast Hne) as (x & Hx & Hok). exists x.
        split; [|done]. destruct (until_success ok cs); [done|].
        by rewrite last_cons, Hx.
Qed.

(** X13: the order of the players of the HTTP backend.  [playAudio] runs
    the commands of the platform in their order, one after the other, and
    stops after the first that succeeds: it runs one command on macOS and on
    Windows and at most three elsewhere (paplay, aplay, mpv), a command that
    succeeded is the last one run, commands are skipped only after a
    success, and the promise resolves however they end. *)
Theorem playAudio_http_order (w : world) (filePath : string) (log : list effect) :
  exists ran skipped_,
    playAudio w filePath log = (log ++ map Shell ran, Returned tt) /\
    commands (platform w) filePath = ran ++ skipped_ /\
    1 <= length ran <= 3 /\
    (forall c, c ∈ ran -> shell_ok w c = true -> last ran = Some c) /\
    (skipped_ <> [] -> exists c, last ran = Some c /\ shell_ok w c = true).
Proof.
  destruct (until_success_spec (shell_ok w) (commands (platform w) filePath))
    as (rest & Hcs & Hall & Hlast).
  exists (until_success (shell_ok w) (commands (platform w) filePath)), rest.
  split; [apply playAudio_run|]. split; [done|]. split; [|done].
  unfold commands.
  destruct (String.eqb (platform w) "darwin"), (String.eqb (platform w) "win32");
    cbn [until_success]; repeat (destruct (shell_ok w _)); simpl; lia.
Qed.

(** X14: what a call of [speakHttp] does, in order.  Nothing at all when
    the config is disabled or the text blank; otherwise one request to
    [/v1/audio/speech] comes first.  The body is read only from an OK
    response, a file is written only once the body was read, and then it is
    one file, the path [path.join] makes of the temporary directory and of a
    name made of the clock and of the extension, mp3 for the format mp3 and
    wav for wav and for pcm alike; a player is run only once the file was
    written, and on that file. *)
Theorem speakHttp_effects (w : world) (text : jsstring) (config : TtsConfig)
    (log : list effect) :
  exists done_,
    (speakHttp w text config log).1 = log ++ done_ /\
    (done_ = [] <-> skipped text config = true) /\
    (done_ <> [] ->
     exists rest, done_ = Fetch (httpUrl config +:+ "/v1/audio/speech") :: rest /\
       forall url, Fetch url ∉ rest) /\
    (ReadBody ∈ done_ -> fetch_response w = Some true) /\
    (forall path, WriteFile path ∈ done_ ->
       path = audioPath w config /\ ReadBody ∈ done_ /\ body_ok w = true /\
       length (List.filter (fun e => match e with WriteFile _ => true | _ => false end) done_) = 1) /\
    (forall c, Shell c ∈ done_ ->
       c ∈ commands (platform w) (audioPath w config) /\
       WriteFile (audioPath w config) ∈ done_ /\ write_ok w = true).
Proof.
  exists (trace w text config). rewrite speakHttp_run. split; [done|].
  unfold trace.
  set (ran := until_success (shell_ok w) (commands (platform w) (audioPath w config))).
  assert (forall c, Shell c ∈ map Shell ran -> c ∈ commands (platform w) (audioPath w config))
    as Hran.
  { intros c (x & [= <-] & Hx)%list_elem_of_fmap.
    destruct (until_success_spec (shell_ok w) (commands (platform w) (audioPath w config)))
      as (rest & -> & _). apply elem_of_app. by left. }
  assert (forall e, e ∈ map Shell ran -> exists c, e = Shell c) as Hshell.
  { intros e (x & -> & _)%list_elem_of_fmap. eauto. }
  assert (List.filter (fun e => match e with WriteFile _ => true | _ => false end)
            (map Shell ran) = []) as Hnw.
  { clear. induction ran as [|c cs IH]; [done|]. simpl. done. }
  destruct (skipped text config).
  { split; [done|]. split; [done|]. split; [by intros ?%elem_of_nil|].
    split; by intros ? ?%elem_of_nil. }
  split; [split; discriminate|]. split.
  { intros _. eexists. split; [done|]. intros url Hin.
    destruct (fetch_response w) as [[]|]; [|by apply elem_of_nil in Hin..].
    apply elem_of_cons in Hin as [?|Hin]; [done|].
    destruct (body_ok w); [|by apply elem_of_nil in Hin].
    apply elem_of_cons in Hin as [?|Hin]; [done|].
    destruct (write_ok w); [|by apply elem_of_nil in Hin].
    by destruct (Hshell _ Hin). }
  destruct (fetch_response w) as [[]|].
  2,3: split; [intros [?|?%elem_of_nil]%elem_of_cons; done|];
       split; intros ? [?|?%elem_of_nil]%elem_of_cons; done.
  split; [done|].
  destruct (body_ok w).
  2: { split; intros ? [?|[?|?%elem_of_nil]%elem_of_cons]%elem_of_cons; done. }
  destruct (write_ok w).
  2: { split.
       - intros path [?|[?|[[= ->]|?%elem_of_nil]%elem_of_cons]%elem_of_cons]%elem_of_cons;
           try done.
         split; [done|]. split; [set_solver|]. done.
       - intros c [?|[?|[?|?%elem_of_nil]%elem_of_cons]%elem_of_cons]%elem_of_cons; done. }
  split.
  - intros path [?|[?|[[= ->]|Hin]%elem_of_cons]%elem_of_cons]%elem_of_cons; try done.
    + split; [done|]. split; [set_solver|]. split; [done|].
      simpl. by rewrite Hnw.
    + by destruct (Hshell _ Hin).
  - intros c [?|[?|[?|Hin]%elem_of_cons]%elem_of_cons]%elem_of_cons; try done.
    split; [by apply Hran|]. split; [set_solver | done].
Qed.

End HttpFacts.

(** ** The server probe: [checkHttpServer], [isHttpReady] and
    [resetHttpCheck] of engine-http.ts

    [checkHttpServer] is suspended at [await fetch(...)]; other calls run in
    between.  The state is the two variables of the module, with the number
    of requests sent and of those not settled yet. *)
Module HttpCheck.

Record probe := {
  serverAvailable : bool;
  serverChecked : bool;
  requests : nat;
  inflight : nat }.

Inductive event :=
| Call                           (* [checkHttpServer] up to [await fetch] *)
| Settle (response : option bool)  (* a request settles: [Some ok], or it rejects *)
| Reset.                         (* [resetHttpCheck()] *)

Definition init : probe :=
  {| serverAvailable := false; serverChecked := false; requests := 0; inflight := 0 |}.

Definition isHttpReady (st : probe) : bool := serverAvailable st.

Definition resetHttpCheck (st : probe) : probe :=
  {| serverAvailable := false; serverChecked := false;
     requests := requests st; inflight := inflight st |}.

(** The start of a call: [Some b] when it returns [b] at once, [None] when
    it sends a request and waits. *)
Definition checkHttpServer_start (st : probe) : probe * option bool :=
  if serverChecked st then (st, Some (serverAvailable st))
  else ({| serverAvailable := serverAvailable st; serverChecked := serverChecked st;
           requests := S (requests st); inflight := S (inflight st) |}, None).

(** The rest of a call, from the settling of its request; it returns the new
    [serverAvailable]. *)
Definition checkHttpServer_resume (response : option bool) (st : probe) : probe :=
  {| serverAvailable := match response with Some ok => ok | None => false end;
     serverChecked := true;
     requests := requests st; inflight := pred (inflight st) |}.

Definition react (st : probe) (e : event) : probe :=
  match e with
  | Call => (checkHttpServer_start st).1
  | Settle response =>
      if inflight st =? 0 then st else checkHttpServer_resume response st
  | Reset => resetHttpCheck st
  end.

Definition run (es : list event) : probe := fold_left react es init.

Definition is_reset (e : event) : bool :=
  match e with Reset => true | _ => false end.

Lemma probe_run_snoc es e : run (es ++ [e]) = react (run es) e.
Proof. unfold run. by rewrite fold_left_app. Qed.

Lemma react_ready st e :
  (serverAvailable st = true -> serverChecked st = true) ->
  serverAvailable (react st e) = true -> serverChecked (react st e) = true.
Proof.
  intros H. destruct e as [|r|]; simpl.
  - unfold checkHttpServer_start. destruct (serverChecked st) eqn:E; simpl; [done|].
    intros Ha. specialize (H Ha). congruence.
  - destruct (inflight st =? 0); [done|]. done.
  - done.
Qed.

Lemma react_cached st e :
  serverChecked st = true -> inflight st = 0 -> is_reset e = false ->
  react st e = st.
Proof.
  intros Hc Hi He. destruct e as [|r|]; simpl; [| |done].
  - unfold checkHttpServer_start. by rewrite Hc.
  - by rewrite Hi.
Qed.

Lemma fold_cached es st :
  serverChecked st = true -> inflight st = 0 -> forallb (fun e => negb (is_reset e)) es = true ->
  fold_left react es st = st.
Proof.
  intros Hc Hi. induction es as [|e es IH]; [done|]. simpl.
  intros [He Hes]%andb_prop. apply negb_true_iff in He.
  rewrite (react_cached st e Hc Hi He). by apply IH.
Qed.

(** X15: the probe is made once.  After any history, once a probe has
    settled and no request is pending, and as long as [resetHttpCheck] is
    not called (nothing in the plugin calls it), no call of
    [checkHttpServer] sends a request any more, each returns the verdict
    already held, and [isHttpReady] keeps that verdict: a server that was
    down at the first probe stays unavailable to the plugin, and one that
    was up stays available. *)
Theorem checkHttpServer_probes_once (before after : list event) :
  serverChecked (run before) = true ->
  inflight (run before) = 0 ->
  forallb (fun e => negb (is_reset e)) after = true ->
  run (before ++ after) = run before /\
  checkHttpServer_start (run (before ++ after))
  = (run before, Some (isHttpReady (run before))).
Proof.
  intros Hc Hi Hafter.
  assert (run (before ++ after) = run before) as ->.
  { unfold run. rewrite fold_left_app. by apply fold_cached. }
  split; [done|]. unfold checkHttpServer_start. by rewrite Hc.
Qed.

Lemma checkHttpServer_probes_once_witness :
  run ([Call; Settle None] ++ [Call; Settle (Some true); Call])
  = run [Call; Settle None] /\
  checkHttpServer_start (run ([Call; Settle None] ++ [Call; Settle (Some true); Call]))
  = (run [Call; Settle None], Some false).
Proof.
  exact (checkHttpServer_probes_once [Call; Settle None]
           [Call; Settle (Some true); Call] eq_refl eq_refl eq_refl).
Defined.

(** X16: whatever the calls, the settlings and the resets, and in whatever
    order, [isHttpReady()] is true only when a probe has completed since the
    last reset, and every request that was sent was sent by a call that found
    no completed probe: there are never more requests than calls, nor more
    pending requests than requests. *)
Theorem isHttpReady_checked (es : list event) :
  (isHttpReady (run es) = true -> serverChecked (run es) = true) /\
  inflight (run es) <= requests (run es) /\
  requests (run es) <= length (List.filter (fun e => match e with Call => true | _ => false end) es).
Proof.
  induction es as [|e es (IH1 & IH2 & IH3)] using rev_ind.
  - split; [done|]. simpl. lia.
  - rewrite probe_run_snoc, List.filter_app, length_app. split; [|split].
    + by apply react_ready.
    + destruct e as [|r|]; simpl.
      * unfold checkHttpServer_start. destruct (serverChecked (run es)); simpl; lia.
      * destruct (inflight (run es) =? 0); simpl; lia.
      * lia.
    + destruct e as [|r|]; simpl.
      * unfold checkHttpServer_start. destruct (serverChecked (run es)); simpl; lia.
      * destruct (inflight (run es) =? 0); simpl; lia.
      * lia.
Qed.

End HttpCheck.

(** ** More on [speakLocal]: disabling, failures, files *)
Module LocalFacts.
Import Async JsString TextChunker TempFiles Types Local.

Section Step.
Variables (trimmed : jsstring) (maxWorkers : Z) (token : nat).

Local Abbreviation react := (Local.react trimmed maxWorkers token) (only parsing).

Definition enables (e : event) : bool :=
  match e with SetEnabled true => true | _ => false end.

Lemma plays_add_end i ok st : plays (add_log (PlayEnd i ok) st) = plays st.
Proof. unfold plays. simpl. rewrite omap_app. simpl. apply app_nil_r. Qed.

(** Once [config.enabled] is false, nothing more is played until it is set
    again. *)
Lemma react_disabled st e :
  enabled st = false -> enables e = false ->
  enabled (react st e) = false /\ plays (react st e) = plays st.
Proof.
  intros He Hne.
  assert (forall st', enabled st' = false -> stopped token st' = true) as Hstop.
  { intros st' E. unfold stopped. by rewrite E. }
  assert (forall r st', enabled st' = false -> plays st' = plays st ->
            enabled (leave r st') = false /\ plays (leave r st') = plays st) as Hleave.
  { intros r st' E1 E2. rewrite leave_spec. simpl. by rewrite E1, <- E2. }
  assert (forall m i r st', enabled st' = false -> plays st' = plays st ->
            enabled (on_result token m i r st') = false /\
            plays (on_result token m i r st') = plays st) as Hres.
  { intros m i r st' E1 E2. unfold on_result. destruct r as [path|].
    - rewrite (Hstop (push_file path st')) by done. by apply Hleave.
    - by apply Hleave. }
  assert (forall m i st', enabled st' = false -> plays st' = plays st ->
            enabled (loop_head trimmed token m i st') = false /\
            plays (loop_head trimmed token m i st') = plays st) as Hhead.
  { intros m i st' E1 E2. unfold loop_head.
    destruct (i <? _); [|by apply Hleave].
    rewrite (Hstop st') by done. by apply Hleave. }
  unfold Local.react.
  destruct (pc st) as [|m i|m i|r] eqn:Epc; [| | |done].
  - destruct e as [ready| | | |[]|]; try done.
    unfold after_init.
    assert (forall st', enabled st' = false -> plays st' = plays st ->
              enabled (set_pc (Done (Returned tt)) st') = false /\
              plays (set_pc (Done (Returned tt)) st') = plays st) as Hd by done.
    destruct (negb ready); [by apply Hd|].
    destruct (negb (_ =? _)); [by apply Hd|].
    destruct (_ =? 0); [by apply Hd|].
    destruct (_ && _); [by apply Hhead|].
    destruct (_ || _); [by apply Hd | by apply Hhead].
  - destruct m, e as [?|j r|?| |[]|]; try done.
    + destruct (j =? i); [|done]. apply Hres; by destruct r.
    + destruct (pending trimmed j st); [|done].
      destruct (j =? i); [apply Hres; by destruct r|]. by destruct r.
  - destruct m, e as [?|j r|ok| |[]|]; try done.
    + destruct ok; [apply Hhead | apply Hleave]; try done; apply plays_add_end.
    + destruct (pending trimmed j st); [|done]. by destruct r.
    + destruct ok; [apply Hhead | apply Hleave]; try done; apply plays_add_end.
Qed.

Lemma steps_disabled evs st :
  enabled st = false -> forallb (fun e => negb (enables e)) evs = true ->
  plays (fold_left react evs st) = plays st.
Proof.
  revert st. induction evs as [|e evs IH]; intros st He Hall; [done|].
  simpl in Hall. apply andb_prop in Hall as [H1 H2]. apply negb_true_iff in H1.
  destruct (react_disabled st e He H1) as [He' Hp]. simpl. by rewrite IH.
Qed.

(** A generation or a playback that fails. *)
Definition failure (e : event) : bool :=
  match e with
  | TaskSettled _ Failed | PlayExited false => true
  | _ => false
  end.

(** No awaited promise has rejected: the call has not rejected and no task
    of the pool has failed. *)
Definition sound (st : state) : Prop :=
  (forall j, settled st !! j <> Some Failed) /\ forall e, pc st <> Done (Thrown e).

Lemma react_sound st e : failure e = false -> sound st -> sound (react st e).
Proof.
  intros Hf [Hs Hst].
  assert (forall st', settled st' = settled st -> sound (leave (Returned tt) st'))
    as Hleave.
  { intros st' E. rewrite leave_spec. split; [by simpl; rewrite E | by intros x]. }
  assert (forall m i path st', (forall j, settled st' !! j <> Some Failed) ->
            sound (on_result token m i (Generated path) st')) as Hres.
  { intros m i path st' E. unfold on_result.
    destruct (stopped _ _).
    - rewrite leave_spec. split; [done | by intros x].
    - split; [done | by intros x]. }
  assert (forall st', settled st' = settled st ->
            forall m i, sound (loop_head trimmed token m i st')) as Hhead.
  { intros st' E m i. unfold loop_head.
    destruct (i <? _); [|by apply Hleave].
    destruct (stopped _ _); [by apply Hleave|].
    destruct m; [split; [by simpl; rewrite E | by intros x]|].
    destruct (settled st' !! i) as [[path|]|] eqn:Ei.
    - apply Hres. by rewrite E.
    - rewrite E in Ei. by destruct (Hs i).
    - split; [by simpl; rewrite E | by intros x]. }
  assert (forall st', settled st' = settled st -> (forall x, pc st' <> Done (Thrown x)) ->
            sound st') as Hsame.
  { intros st' E Hp. split; [by rewrite E | done]. }
  assert (forall j path, forall k,
            <[j := Generated path]> (settled st) !! k <> Some Failed) as Hins.
  { intros j path k. destruct (decide (j = k)) as [->|Hne].
    - by rewrite lookup_insert_eq.
    - rewrite lookup_insert_ne by done. apply Hs. }
  assert (sound st) as Hsound by (by split).
  unfold Local.react.
  destruct (pc st) as [|m i|m i|r] eqn:Epc; [| | |done].
  - destruct e as [ready| | | |b|]; try (apply Hsame; simpl; [done | by rewrite Epc]).
    unfold after_init.
    assert (forall st', settled st' = settled st ->
              sound (set_pc (Done (Returned tt)) st')) as Hd.
    { intros st' E. by apply Hsame. }
    destruct (negb ready); [by apply Hd|].
    destruct (negb (_ =? _)); [by apply Hd|].
    destruct (_ =? 0); [by apply Hd|].
    destruct (_ && _); [by apply Hhead|].
    destruct (_ || _); [by apply Hd | by apply Hhead].
  - destruct m, e as [?|j [path|]|?| |b|]; try done;
      try (apply Hsame; simpl; [done | by rewrite Epc]).
    + destruct (j =? i); [|done]. by apply Hres.
    + destruct (pending trimmed j st); [|done].
      destruct (j =? i); [apply Hres; apply Hins|].
      split; [apply Hins | by simpl; rewrite Epc].
  - destruct m, e as [?|j [path|]|[]| |b|]; try done;
      try (apply Hsame; simpl; [done | by rewrite Epc]).
    + by apply Hhead.
    + destruct (pending trimmed j st); [|done].
      split; [apply Hins | by simpl; rewrite Epc].
    + by apply Hhead.
Qed.

Lemma steps_sound evs st :
  existsb failure evs = false -> sound st -> sound (fold_left react evs st).
Proof.
  revert st. induction evs as [|e evs IH]; intros st Hall Hst; [done|].
  simpl in Hall. apply orb_false_elim in Hall as [H1 H2].
  simpl. apply IH; [done|]. by apply react_sound.
Qed.

(** *** The files of a call *)

(** [d] is the disk when the call began.  The call has left alone what it
    does not hold in [files], and every chunk played was played from the file
    at its index in [files]. *)
Definition kept (d : disk) (st : state) : Prop :=
  locked (fs st) = locked d /\
  (forall p, p ∈ present d -> p ∉ files st -> p ∈ present (fs st)) /\
  (forall j path, PlayStart j path ∈ log st -> files st !! j = Some path).

(** [files] has one entry for each chunk awaited so far. *)
Definition counted (st : state) : Prop :=
  match pc st with
  | AwaitInit => files st = []
  | AwaitTask _ i => length (files st) = i
  | AwaitPlay _ i => length (files st) = S i
  | Done _ => True
  end.

Lemma kept_same d st st' :
  fs st' = fs st -> files st' = files st ->
  (forall j path, PlayStart j path ∈ log st' -> PlayStart j path ∈ log st) ->
  kept d st -> kept d st'.
Proof.
  intros E1 E2 E3 (Hl & Hp & Hlog). unfold kept. rewrite E1, E2.
  split; [done|]. split; [done|]. intros j path H. by apply Hlog, E3.
Qed.

Lemma kept_end d i ok st : kept d st -> kept d (add_log (PlayEnd i ok) st).
Proof.
  apply kept_same; [done | done |]. simpl.
  intros j path [H|H%list_elem_of_singleton]%elem_of_app; done.
Qed.

Lemma kept_written d r st : kept d st -> kept d (written r st).
Proof.
  intros (Hl & Hp & Hlog). destruct r as [path|]; [|done].
  split; [done|]. split; [|done]. simpl. intros p Hin Hnf.
  apply elem_of_union. left. by apply Hp.
Qed.

Lemma kept_push d path st : kept d st -> kept d (push_file path st).
Proof.
  intros (Hl & Hp & Hlog). split; [done|]. split; simpl.
  - intros p Hin Hnf. apply Hp; [done|]. intros H. apply Hnf, elem_of_app. by left.
  - intros j p H. apply lookup_app_l_Some. by apply Hlog.
Qed.

Lemma kept_leave d r st : kept d st -> kept d (leave r st).
Proof.
  intros (Hl & Hp & Hlog). rewrite leave_spec.
  pose proof (cleanupFiles_disk (files st) (fs st)) as [D1 D2].
  split; [|split]; simpl.
  - by rewrite D2.
  - intros p Hin Hnf. rewrite D1. apply elem_of_difference. split; [by apply Hp|].
    intros [H _]%elem_of_difference. by apply elem_of_list_to_set in H.
  - done.
Qed.

Lemma counted_leave r st : counted (leave r st).
Proof. by rewrite leave_spec. Qed.

Lemma on_result_kept d m i r st :
  kept d st -> length (files st) = i ->
  kept d (on_result token m i r st) /\ counted (on_result token m i r st).
Proof.
  intros Hk Hi. unfold on_result. destruct r as [path|].
  - destruct (stopped _ _).
    + split; [by apply kept_leave, kept_push | apply counted_leave].
    + split.
      * destruct (kept_push d path st Hk) as (Hl & Hp & Hlog).
        split; [done|]. split; [done|]. simpl.
        intros j p [H|[= -> ->]%list_elem_of_singleton]%elem_of_app.
        -- by apply Hlog.
        -- rewrite <- Hi. apply list_lookup_middle. done.
      * unfold counted. simpl. rewrite length_app. simpl. lia.
  - split; [by apply kept_leave | apply counted_leave].
Qed.

Lemma loop_head_kept d m i st :
  kept d st -> length (files st) = i ->
  kept d (loop_head trimmed token m i st) /\ counted (loop_head trimmed token m i st).
Proof.
  intros Hk Hi. unfold loop_head.
  destruct (i <? _); [|split; [by apply kept_leave | apply counted_leave]].
  destruct (stopped _ _); [split; [by apply kept_leave | apply counted_leave]|].
  destruct m; [by split|].
  destruct (settled st !! i) as [r|]; [by apply on_result_kept | by split].
Qed.

Lemma react_kept d st e :
  kept d st /\ counted st -> kept d (react st e) /\ counted (react st e).
Proof.
  intros [Hk Hc]. unfold Local.react.
  destruct (pc st) as [|m i|m i|r] eqn:Epc; [| | |by split];
    unfold counted in Hc; rewrite Epc in Hc.
  - assert (forall st', fs st' = fs st -> files st' = files st -> log st' = log st ->
              pc st' = AwaitInit \/ (exists r, pc st' = Done r) ->
              kept d st' /\ counted st') as Hsame.
    { intros st' E1 E2 E3 Hpc. split.
      - revert Hk. apply kept_same; [done | done | by rewrite E3].
      - unfold counted. destruct Hpc as [->|[r ->]]; [by rewrite E2 | done]. }
    destruct e as [ready| | | |b|]; try (apply Hsame; try done; left; exact Epc).
    unfold after_init.
    assert (kept d (initLocalTts maxWorkers ready st)) as Hk'.
    { revert Hk. by apply kept_same. }
    assert (length (files (initLocalTts maxWorkers ready st)) = 0) as H0.
    { simpl. by rewrite Hc. }
    assert (kept d (set_pc (Done (Returned tt)) (initLocalTts maxWorkers ready st)) /\
            counted (set_pc (Done (Returned tt)) (initLocalTts maxWorkers ready st)))
      as Hd by (apply Hsame; eauto).
    destruct (negb ready); [done|].
    destruct (negb (_ =? _)); [done|].
    destruct (_ =? 0); [done|].
    destruct (_ && _); [by apply loop_head_kept|].
    destruct (_ || _); [done | by apply loop_head_kept].
  - assert (forall st', fs st' = fs st -> files st' = files st -> log st' = log st ->
              pc st' = pc st -> kept d st' /\ counted st') as Hsame.
    { intros st' E1 E2 E3 E4. split.
      - revert Hk. apply kept_same; [done | done | by rewrite E3].
      - unfold counted. by rewrite E4, Epc, E2. }
    assert (forall r, kept d (written r st) /\ length (files (written r st)) = i) as Hw.
    { intros r. split; [by apply kept_written | by destruct r]. }
    destruct m, e as [?|j r|?| |b|]; try (by apply Hsame).
    + destruct (j =? i); [|by apply Hsame]. apply on_result_kept; apply Hw.
    + destruct (pending trimmed j st); [|by apply Hsame].
      destruct (j =? i).
      * apply on_result_kept; [|apply (Hw r)].
        generalize (proj1 (Hw r)). by apply kept_same.
      * split.
        -- generalize (proj1 (Hw r)). by apply kept_same.
        -- unfold counted. destruct r; simpl; by rewrite Epc.
  - assert (forall st', fs st' = fs st -> files st' = files st -> log st' = log st ->
              pc st' = pc st -> kept d st' /\ counted st') as Hsame.
    { intros st' E1 E2 E3 E4. split.
      - revert Hk. apply kept_same; [done | done | by rewrite E3].
      - unfold counted. by rewrite E4, Epc, E2. }
    assert (forall ok,
              kept d (if ok : bool
                      then loop_head trimmed token m (S i) (add_log (PlayEnd i ok) st)
                      else leave (Thrown (Error "All audio players failed"))
                             (add_log (PlayEnd i ok) st)) /\
              counted (if ok : bool
                      then loop_head trimmed token m (S i) (add_log (PlayEnd i ok) st)
                      else leave (Thrown (Error "All audio players failed"))
                             (add_log (PlayEnd i ok) st))) as Hexit.
    { intros [].
      - apply loop_head_kept; [by apply kept_end | done].
      - split; [by apply kept_leave, kept_end | apply counted_leave]. }
    destruct m, e as [?|j r|ok| |b|]; try (by apply Hsame); try apply Hexit.
    destruct (pending trimmed j st); [|by apply Hsame].
    split.
    + generalize (kept_written d r st Hk). by apply kept_same.
    + unfold counted. destruct r; simpl; by rewrite Epc.
Qed.

(** *** A call without workers, from start to end *)

(** The events of the chunks from [a] on, [n] of them, each generated into
    the file [path i] and then played. *)
Definition direct_events (path : nat -> string) (a n : nat) : list event :=
  flat_map (fun i => [TaskSettled i (Generated (path i)); PlayExited true]) (seq a n).

Lemma direct_step p i st :
  pc st = AwaitTask Direct i -> enabled st = true -> cancelToken st = token ->
  react (react st (TaskSettled i (Generated p))) (PlayExited true)
  = loop_head trimmed token Direct (S i)
      (add_log (PlayEnd i true)
         (set_pc (AwaitPlay Direct i)
            (add_log (PlayStart i p) (push_file p (written (Generated p) st))))).
Proof.
  intros Hpc He Hc.
  assert (react st (TaskSettled i (Generated p))
          = set_pc (AwaitPlay Direct i)
              (add_log (PlayStart i p) (push_file p (written (Generated p) st)))) as ->.
  { unfold Local.react. rewrite Hpc, Nat.eqb_refl.
    unfold on_result. by rewrite going_not_stopped by done. }
  done.
Qed.

Lemma direct_events_S path a n :
  direct_events path a (S n)
  = TaskSettled a (Generated (path a)) :: PlayExited true
      :: direct_events path (S a) n.
Proof. done. Qed.

Lemma direct_through path k i st :
  pc st = AwaitTask Direct i -> i + S k = length (chunks trimmed) ->
  enabled st = true -> cancelToken st = token ->
  pc (fold_left react (direct_events path i (S k)) st) = Done (Returned tt) /\
  files (fold_left react (direct_events path i (S k)) st)
  = files st ++ map path (seq i (S k)).
Proof.
  revert i st. induction k as [|k IH]; intros i st Hpc Hi He Hc;
    rewrite direct_events_S; cbn [fold_left];
    rewrite (direct_step _ _ _ Hpc He Hc); unfold loop_head.
  - destruct (Nat.ltb_spec (S i) (length (chunks trimmed))) as [?|_]; [lia|].
    by rewrite leave_spec.
  - destruct (Nat.ltb_spec (S i) (length (chunks trimmed))) as [_|?]; [|lia].
    rewrite going_not_stopped by done.
    match goal with |- context [fold_left _ _ ?s] =>
      destruct (IH (S i) s) as [H1 H2]; [done | lia | done | done |]
    end.
    split; [exact H1|].
    rewrite H2. simpl. by rewrite <- app_assoc.
Qed.

Lemma after_init_direct st :
  enabled st = true -> cancelToken st = token ->
  (maxWorkers <= 0)%Z -> length (chunks trimmed) <> 0 ->
  after_init trimmed maxWorkers token true st
  = set_pc (AwaitTask Direct 0) (initLocalTts maxWorkers true st).
Proof.
  intros He Hc Hw HN. unfold after_init. cbn [negb].
  change (cancelToken (initLocalTts maxWorkers true st)) with (cancelToken st).
  rewrite Hc, Nat.eqb_refl. cbn [negb].
  destruct (Nat.eqb_spec (length (chunks trimmed)) 0) as [?|_]; [done|].
  change (localModel (initLocalTts maxWorkers true st))
    with (if (maxWorkers <=? 0)%Z then true else localModel st).
  assert ((maxWorkers <=? 0)%Z = true) as -> by (by apply Z.leb_le).
  cbn [andb]. unfold loop_head.
  destruct (Nat.ltb_spec 0 (length (chunks trimmed))) as [_|?]; [|lia].
  by rewrite going_not_stopped by done.
Qed.

End Step.

Lemma direct_events_benign path a n : Forall benign (direct_events path a n).
Proof.
  unfold direct_events. revert a. induction n as [|n IH]; intros a; [constructor|].
  simpl. constructor; [done|]. constructor; [done|]. apply IH.
Qed.

Lemma speakLocal_kept text config tok d :
  kept d (speakLocal text config tok d) /\ counted (speakLocal text config tok d).
Proof.
  unfold speakLocal.
  destruct (negb _); [|destruct (falsy _)].
  all: split; [split; [done|]; split; [done|]; by intros j p ?%elem_of_nil | done].
Qed.

Lemma run_kept text config tok d evs :
  kept d (run text config tok d evs) /\ counted (run text config tok d evs).
Proof.
  unfold run. generalize (speakLocal_kept text config tok d).
  generalize (speakLocal text config tok d).
  induction evs as [|e evs IH]; intros st H; [done|].
  simpl. apply IH. by apply react_kept.
Qed.

(** X17: disabling stops playback.  Once [config.enabled] has been set to
    false, and as long as it is not set to true again, the call starts no
    further chunk, whatever completes afterwards: the plays are those made
    before.  (The chunk that is playing is not interrupted by this.) *)
Theorem disable_stops_playback (text : jsstring) (config : TtsConfig) (tok : nat)
    (d : disk) (pre post : list event) :
  forallb (fun e => negb (enables e)) post = true ->
  plays (run text config tok d (pre ++ SetEnabled false :: post))
  = plays (run text config tok d pre).
Proof.
  intros Hpost. unfold run. rewrite fold_left_app. cbn [fold_left].
  set (s := fold_left _ pre _).
  destruct (pc s) as [|m i|m i|r] eqn:Epc.
  4: { assert (react (trim text) (Types.maxWorkers config) tok s (SetEnabled false) = s)
         as -> by (unfold react; by rewrite Epc).
       by rewrite (steps_done text config tok post s r). }
  all: assert (react (trim text) (Types.maxWorkers config) tok s (SetEnabled false)
               = set_enabled false s) as ->
    by (unfold react; rewrite Epc;
        repeat match goal with x : mode |- _ => destruct x end; done).
  all: by rewrite steps_disabled.
Qed.

Lemma disable_stops_playback_witness :
  plays (run (of_string "Hello. World!") two_workers 0 empty_disk
           ([InitDone true; TaskSettled 0 (Generated "/tmp/chunk-0.wav")]
            ++ SetEnabled false ::
            [TaskSettled 1 (Generated "/tmp/chunk-1.wav"); PlayExited true]))
  = [0].
Proof.
  exact (disable_stops_playback (of_string "Hello. World!") two_workers 0 empty_disk
           [InitDone true; TaskSettled 0 (Generated "/tmp/chunk-0.wav")]
           [TaskSettled 1 (Generated "/tmp/chunk-1.wav"); PlayExited true] eq_refl).
Defined.

(** X18: a call rejects only when something it awaited failed.  If the
    promise of [speakLocal] is rejected, then a generation or a playback has
    failed among the events: cancelling, disabling and re-enabling, a backend
    that does not get ready, and completions in any order never make the
    call reject. *)
Theorem speakLocal_rejects_only_on_failure (text : jsstring) (config : TtsConfig)
    (tok : nat) (d : disk) (evs : list event) (e : exn) :
  pc (run text config tok d evs) = Done (Thrown e) ->
  existsb failure evs = true.
Proof.
  intros Hpc. destruct (existsb failure evs) eqn:E; [done|]. exfalso.
  assert (sound (speakLocal text config tok d)) as H0.
  { unfold speakLocal. destruct (negb _); [|destruct (falsy _)].
    all: split; [intros j; simpl; by rewrite lookup_empty | done]. }
  destruct (steps_sound (trim text) (Types.maxWorkers config) tok evs _ E H0)
    as [_ H]. by apply (H e).
Qed.

Lemma speakLocal_rejects_only_on_failure_witness :
  existsb failure [InitDone true; Cancel; TaskSettled 0 Failed] = true.
Proof.
  exact (speakLocal_rejects_only_on_failure (of_string "Hello. World!") no_workers 0
           empty_disk [InitDone true; Cancel; TaskSettled 0 Failed]
           (Error "generation failed") eq_refl).
Defined.

(** X19: without workers a call runs to its end.  With [maxWorkers <= 0],
    once the model is loaded, each chunk in turn generated into a file and
    played, the call resolves, having played every chunk in order, chunk [i]
    from its own file, and every one of these files is gone from the disk
    afterwards unless the system refuses to remove it. *)
Theorem speakLocal_direct_completes (text : jsstring) (config : TtsConfig)
    (tok : nat) (d : disk) (path : nat -> string) :
  Types.enabled config = true -> (Types.maxWorkers config <= 0)%Z ->
  let n := length (splitText (trim text)) in
  let st := run text config tok d (InitDone true :: direct_events path 0 n) in
  pc st = Done (Returned tt) /\
  plays st = seq 0 n /\
  files st = map path (seq 0 n) /\
  forall i, i < n -> path i ∉ locked d -> path i ∉ present (fs st).
Proof.
  intros He Hw n st.
  assert (pc st = Done (Returned tt) /\ files st = map path (seq 0 n)) as [Hpc Hfiles].
  { subst st. unfold run. cbn [fold_left]. unfold speakLocal. rewrite He. cbn [negb].
    destruct (falsy (trim text)) eqn:Ef.
    { assert (n = 0) as ->.
      { subst n. apply falsy_spec in Ef. by rewrite Ef. }
      done. }
    assert ((Types.maxWorkers config <=? 0)%Z = true) as -> by lia. cbn [negb].
    set (s0 := {| pc := AwaitInit; enabled := true; cancelToken := tok;
                  localModel := false; pool := false; settled := ∅; files := [];
                  fs := d; produced := []; log := [] |}).
    assert (react (trim text) (Types.maxWorkers config) tok s0 (InitDone true)
            = after_init (trim text) (Types.maxWorkers config) tok true s0) as -> by done.
    destruct (Nat.eq_dec n 0) as [H0|H0].
    { rewrite H0. unfold after_init. cbn [negb cancelToken initLocalTts s0].
      rewrite Nat.eqb_refl. cbn [negb]. unfold chunks. fold n. by rewrite H0. }
    rewrite after_init_direct by done.
    destruct n as [|k] eqn:En; [done|].
    by apply (direct_through (trim text) (Types.maxWorkers config) tok path k 0). }
  split; [done|]. split; [|split; [done|]].
  - destruct (steps_healthy text config tok (InitDone true :: direct_events path 0 n)
                (speakLocal text config tok d)) as (_ & _ & _ & Hd & _);
      [apply speakLocal_in_order | by apply speakLocal_healthy
       | constructor; [done | apply direct_events_benign] |].
    destruct (Hd _ Hpc) as [_ Hl]. rewrite plays_starts.
    change (map shape (log st) = turns 0 n) in Hl. rewrite Hl. apply starts_turns.
  - intros i Hi Hnl.
    pose proof (steps_tidy text config tok (InitDone true :: direct_events path 0 n) _
                  (speakLocal_tidy text config tok d)) as (Hd & _).
    destruct (run_kept text config tok d (InitDone true :: direct_events path 0 n))
      as [(Hl & _) _].
    apply (Hd _ Hpc).
    + fold (run text config tok d (InitDone true :: direct_events path 0 n)).
      fold st. rewrite Hfiles. apply list_elem_of_fmap. exists i. split; [done|].
      apply elem_of_seq. lia.
    + fold (run text config tok d (InitDone true :: direct_events path 0 n)).
      by rewrite Hl.
Qed.

Lemma speakLocal_direct_completes_witness :
  plays (run (of_string "Hello. World!") no_workers 0 empty_disk
           (InitDone true :: direct_events (fun _ => "/tmp/chunk.wav") 0 2))
  = [0; 1].
Proof.
  exact (proj1 (proj2 (speakLocal_direct_completes (of_string "Hello. World!")
                         no_workers 0 empty_disk (fun _ => "/tmp/chunk.wav")
                         eq_refl ltac:(done)))).
Defined.

(** X20: the files a call touches.  Whatever happens, every chunk that was
    played was played from the file at its own index in [files], the file the
    call received for that chunk; and of the files that were on the disk when
    the call began, the call has removed none but those it holds in [files]:
    cleanup deletes nothing else. *)
Theorem speakLocal_files (text : jsstring) (config : TtsConfig) (tok : nat)
    (d : disk) (evs : list event) :
  let st := run text config tok d evs in
  (forall i path, PlayStart i path ∈ log st -> files st !! i = Some path) /\
  (forall p, p ∈ present d -> p ∉ files st -> p ∈ present (fs st)) /\
  locked (fs st) = locked d.
Proof.
  intros st. destruct (run_kept text config tok d evs) as [(Hl & Hp & Hlog) _].
  done.
Qed.

End LocalFacts.

(** ** The local backend across calls: [initLocalTts], [isLocalReady] and
    [cancelLocalSpeak] of speak.ts

    The variables of the module, and what the calls and the callbacks of the
    two initialisations do to them.  Pools are numbered in the order they are
    created; the promise [poolInit] made for pool [n] is known by that
    number. *)
Module Backend.

Record vars := {
  pool : option nat;
  poolReady : bool;
  poolInit : option nat;
  localModel : bool;           (* [localModel] is not null *)
  localInit : bool;            (* [localInit] is not null *)
  cancelToken : nat;
  pools : nat;                 (* pools created so far *)
  loads : nat;                 (* calls of [initLocalModel] so far *)
  shutdowns : list nat;        (* the calls of [pool.shutdown()] *)
  started : gmap nat bool;     (* what the [poolInit] of a pool resolved to *)
  loaded : option bool }.      (* what [localInit] resolved to *)

Inductive event :=
| Init (maxWorkers : Z)            (* [initLocalTts(config)], up to its return *)
| ModelSettled (model : bool)      (* [initLocalModel()] resolves, with a model or null *)
| PoolSettled (n : nat) (ok : bool)  (* [pool.ready] of pool [n] resolves or rejects *)
| Cancel.                          (* [cancelLocalSpeak()] *)

(** What [initLocalTts] returns: [true], or one of the two promises. *)
Inductive answer := Now | LocalInit | PoolInit (n : nat).

Definition init : vars :=
  {| pool := None; poolReady := false; poolInit := None; localModel := false;
     localInit := false; cancelToken := 0; pools := 0; loads := 0;
     shutdowns := []; started := ∅; loaded := None |}.

Definition initLocalTts (maxWorkers : Z) (st : vars) : vars * answer :=
  if (maxWorkers <=? 0)%Z then
    if localModel st then (st, Now)
    else if localInit st then (st, LocalInit)
    else
      ({| pool := pool st; poolReady := poolReady st; poolInit := poolInit st;
          localModel := localModel st; localInit := true;
          cancelToken := cancelToken st; pools := pools st; loads := S (loads st);
          shutdowns := shutdowns st; started := started st; loaded := loaded st |},
       LocalInit)
  else
    if poolReady st && bool_decide (pool st <> None) then (st, Now)
    else
      match poolInit st with
      | Some n => (st, PoolInit n)
      | None =>
          ({| pool := Some (pools st); poolReady := poolReady st;
              poolInit := Some (pools st);
              localModel := localModel st; localInit := localInit st;
              cancelToken := cancelToken st; pools := S (pools st);
              loads := loads st; shutdowns := shutdowns st;
              started := started st; loaded := loaded st |},
           PoolInit (pools st))
      end.

(** [(model) => { localModel = model; return model !== null }] *)
Definition model_then (model : bool) (st : vars) : vars :=
  {| pool := pool st; poolReady := poolReady st; poolInit := poolInit st;
     localModel := model; localInit := localInit st;
     cancelToken := cancelToken st; pools := pools st; loads := loads st;
     shutdowns := shutdowns st; started := started st; loaded := Some model |}.

(** The [then] and the [catch] put on [pool.ready] of pool [n]. *)
Definition ready_then (n : nat) (ok : bool) (st : vars) : vars :=
  {| pool := if ok then pool st else None;
     poolReady := ok; poolInit := poolInit st;
     localModel := localModel st; localInit := localInit st;
     cancelToken := cancelToken st; pools := pools st; loads := loads st;
     shutdowns := shutdowns st; started := <[n := ok]> (started st);
     loaded := loaded st |}.

Definition isLocalReady (st : vars) : bool :=
  if localModel st then true else poolReady st.

Definition bump (st : vars) : vars :=
  {| pool := pool st; poolReady := poolReady st; poolInit := poolInit st;
     localModel := localModel st; localInit := localInit st;
     cancelToken := cancelToken st + 1; pools := pools st; loads := loads st;
     shutdowns := shutdowns st; started := started st; loaded := loaded st |}.

Definition cancelLocalSpeak (st : vars) : vars :=
  let st := bump st in
  match pool st with
  | Some n =>
      {| pool := None; poolReady := false; poolInit := None;
         localModel := localModel st; localInit := localInit st;
         cancelToken := cancelToken st; pools := pools st; loads := loads st;
         shutdowns := shutdowns st ++ [n]; started := started st;
         loaded := loaded st |}
  | None => st
  end.

(** A promise settles once: the model's when a load is under way, a pool's
    when the pool was created. *)
Definition react (st : vars) (e : event) : vars :=
  match e with
  | Init maxWorkers => (initLocalTts maxWorkers st).1
  | ModelSettled model =>
      if localInit st && bool_decide (loaded st = None) then model_then model st
      else st
  | PoolSettled n ok =>
      if (n <? pools st) && bool_decide (started st !! n = None)
      then ready_then n ok st else st
  | Cancel => cancelLocalSpeak st
  end.

Definition run (es : list event) : vars := fold_left react es init.

(** What the promise returned by [initLocalTts] has resolved to, if it has
    settled. *)
Definition resolved (a : answer) (st : vars) : option bool :=
  match a with
  | Now => Some true
  | LocalInit => loaded st
  | PoolInit n => started st !! n
  end.

Lemma backend_run_snoc es e : run (es ++ [e]) = react (run es) e.
Proof. unfold run. by rewrite fold_left_app. Qed.

(** *** The model is loaded once *)

Definition model_inv (st : vars) : Prop :=
  loads st = (if localInit st then 1 else 0) /\
  (localModel st = true -> loaded st = Some true) /\
  (loaded st <> None -> localInit st = true) /\
  (loaded st = Some false -> localModel st = false).

Lemma react_model_inv st e : model_inv st -> model_inv (react st e).
Proof.
  intros Hinv. pose proof Hinv as (H1 & H2 & H3 & H4).
  destruct e as [w|model|n ok|]; simpl.
  - unfold initLocalTts. destruct (w <=? 0)%Z.
    + destruct (localModel st) eqn:Em; [done|].
      destruct (localInit st) eqn:Ei; [done|].
      split; [simpl; lia|]. simpl. split; [done|]. split; [done|]. exact H4.
    + destruct (_ && _); [done|]. by destruct (poolInit st).
  - destruct (localInit st) eqn:Ei; [|done]. simpl.
    case_bool_decide as El; [|done].
    split; [by simpl; rewrite Ei|]. simpl. split; [by intros ->|].
    split; [done|]. by intros [= ->].
  - destruct (_ && _); done.
  - unfold cancelLocalSpeak. simpl. by destruct (pool st).
Qed.

Lemma run_model_inv es : model_inv (run es).
Proof.
  induction es as [|e es IH] using rev_ind.
  - split; [done|]. split; [done|]. split; done.
  - rewrite backend_run_snoc. by apply react_model_inv.
Qed.

Lemma react_model_failed st e :
  model_inv st -> loaded st = Some false ->
  loaded (react st e) = Some false /\ loads (react st e) = loads st.
Proof.
  intros (H1 & H2 & H3 & H4) Hl. destruct e as [w|model|n ok|]; simpl.
  - unfold initLocalTts. destruct (w <=? 0)%Z.
    + rewrite (H4 Hl), H3 by congruence. done.
    + destruct (_ && _); [done|]. by destruct (poolInit st).
  - rewrite Hl. rewrite bool_decide_eq_false_2 by done. by rewrite andb_false_r.
  - by destruct (_ && _).
  - unfold cancelLocalSpeak. simpl. by destruct (pool st).
Qed.

Lemma fold_model_failed es st :
  model_inv st -> loaded st = Some false ->
  loaded (fold_left react es st) = Some false /\
  loads (fold_left react es st) = loads st /\
  model_inv (fold_left react es st).
Proof.
  revert st. induction es as [|e es IH]; intros st Hi Hl; [done|].
  destruct (react_model_failed st e Hi Hl) as [H1 H2]. simpl.
  destruct (IH (react st e)) as (G1 & G2 & G3); [by apply react_model_inv | done |].
  split; [done|]. split; [congruence | done].
Qed.

(** X21: the model is loaded in the main thread at most once.  Whatever the
    calls, [initLocalModel] runs at most once in the life of the process, and
    [localModel] is set only by a load that produced a model.  If the load
    failed, it is never tried again: from then on, whatever happens, every
    [initLocalTts] with [maxWorkers <= 0] returns the promise that has
    resolved to false, and the model stays unset. *)
Theorem initLocalTts_loads_once (before after : list event) :
  loads (run (before ++ after)) <= 1 /\
  (localModel (run before) = true -> loaded (run before) = Some true) /\
  (loaded (run before) = Some false ->
   forall maxWorkers, (maxWorkers <= 0)%Z ->
     let r := initLocalTts maxWorkers (run (before ++ after)) in
     r.1 = run (before ++ after) /\ resolved r.2 r.1 = Some false /\
     localModel r.1 = false /\ loads r.1 = loads (run before)).
Proof.
  split; [|split].
  - destruct (run_model_inv (before ++ after)) as (H1 & _). rewrite H1.
    destruct (localInit _); lia.
  - by destruct (run_model_inv before) as (_ & H2 & _).
  - intros Hl w Hw r. subst r.
    destruct (fold_model_failed after (run before) (run_model_inv before) Hl)
      as (G1 & G2 & G3 & G4 & G5 & G6).
    assert (run (before ++ after) = fold_left react after (run before)) as ->.
    { unfold run. by rewrite fold_left_app. }
    unfold initLocalTts. apply Z.leb_le in Hw. rewrite Hw.
    rewrite (G6 G1), G5 by congruence. cbn [fst snd resolved].
    split; [done|]. split; [done|]. split; [by apply G6 | done].
Qed.

Lemma initLocalTts_loads_once_witness :
  let r := initLocalTts 0 (run ([Init 0; ModelSettled false] ++ [Cancel; Init 0])) in
  r.1 = run ([Init 0; ModelSettled false] ++ [Cancel; Init 0]) /\
  resolved r.2 r.1 = Some false /\
  localModel r.1 = false /\ loads r.1 = loads (run [Init 0; ModelSettled false]).
Proof.
  exact (proj2 (proj2 (initLocalTts_loads_once [Init 0; ModelSettled false]
                         [Cancel; Init 0])) eq_refl 0%Z ltac:(done)).
Defined.

(** *** The pools *)

Definition pool_inv (st : vars) : Prop :=
  (forall n, pool st = Some n -> poolInit st = Some n) /\
  (forall n, poolInit st = Some n -> S n = pools st /\ n ∉ shutdowns st) /\
  (forall n, n < pools st -> n ∈ shutdowns st \/ poolInit st = Some n) /\
  (forall n, n ∈ shutdowns st -> n < pools st) /\
  NoDup (shutdowns st).

Lemma react_pool_inv st e : pool_inv st -> pool_inv (react st e).
Proof.
  intros Hinv. pose proof Hinv as (H1 & H2 & H3 & H4 & H5).
  destruct e as [w|model|n ok|]; simpl.
  - unfold initLocalTts. destruct (w <=? 0)%Z.
    + destruct (localModel st); [done|]. by destruct (localInit st).
    + destruct (_ && _); [done|].
      destruct (poolInit st) as [n|] eqn:Ei; [done|]. simpl.
      split; [done|]. split; [|split; [|split; [|done]]]; simpl.
      * intros n [= <-]. split; [done|]. intros Hn. specialize (H4 _ Hn). lia.
      * intros n Hn. destruct (decide (n = pools st)) as [->|Hne]; [by right|].
        left. destruct (H3 n) as [?|?]; [lia | done | done].
      * intros n Hn. specialize (H4 _ Hn). lia.
  - by destruct (_ && _).
  - destruct (_ && _); [|done]. split; [|done]. simpl.
    intros m. destruct ok; [apply H1 | done].
  - unfold cancelLocalSpeak. simpl. destruct (pool st) as [n|] eqn:Ep; [|done].
    pose proof (H1 n eq_refl) as Hi. destruct (H2 n Hi) as [Hn Hns].
    split; [done|]. split; [done|]. simpl. split; [|split].
    + intros m Hm. left. apply elem_of_app.
      destruct (H3 m Hm) as [?|Hmi]; [by left|]. right.
      rewrite Hi in Hmi. injection Hmi as ->. by apply list_elem_of_singleton.
    + intros m [Hm| ->%list_elem_of_singleton]%elem_of_app; [by apply H4 | lia].
    + apply NoDup_app. split; [done|]. split; [|apply NoDup_singleton].
      by intros m Hm ->%list_elem_of_singleton.
Qed.

Lemma run_pool_inv es : pool_inv (run es).
Proof.
  induction es as [|e es IH] using rev_ind.
  - split; [done|]. split; [done|]. split; [simpl; lia|].
    split; [by intros n ?%elem_of_nil | constructor].
  - rewrite backend_run_snoc. by apply react_pool_inv.
Qed.

Lemma pools_count st :
  pool_inv st ->
  pools st = length (shutdowns st)
             + match poolInit st with Some _ => 1 | None => 0 end.
Proof.
  intros (H1 & H2 & H3 & H4 & H5).
  assert (forall k l, NoDup l -> (forall n, n ∈ l <-> n < k) -> length l = k) as Hcount.
  { intros k l Hnd Hl. transitivity (length (seq 0 k)); [|apply length_seq].
    apply Permutation_length.
    apply NoDup_Permutation; [done | apply NoDup_seq|].
    intros n. rewrite Hl, elem_of_seq. lia. }
  destruct (poolInit st) as [n|] eqn:Ei.
  - destruct (H2 n eq_refl) as [Hn Hns]. rewrite <- Hn.
    rewrite (Hcount n (shutdowns st)); [lia | done |].
    intros m. split.
    + intros Hm. specialize (H4 _ Hm). destruct (decide (m = n)) as [->|]; [done | lia].
    + intros Hm. destruct (H3 m) as [?|[= ->]]; [lia | done | lia].
  - rewrite (Hcount (pools st) (shutdowns st)); [lia | done |].
    intros m. split; [apply H4|]. intros Hm. by destruct (H3 m Hm).
Qed.

Definition is_cancel (e : event) : bool :=
  match e with Cancel => true | _ => false end.

Lemma shutdowns_count es :
  length (shutdowns (run es)) <= length (List.filter is_cancel es).
Proof.
  induction es as [|e es IH] using rev_ind; [done|].
  rewrite backend_run_snoc, List.filter_app, length_app.
  destruct e as [w|model|n ok|]; simpl.
  - unfold initLocalTts. destruct (w <=? 0)%Z.
    + destruct (localModel _); [simpl; lia|]. destruct (localInit _); simpl; lia.
    + destruct (_ && _); [simpl; lia|]. destruct (poolInit _); simpl; lia.
  - destruct (_ && _); simpl; lia.
  - destruct (_ && _); simpl; lia.
  - unfold cancelLocalSpeak. simpl. destruct (pool _); simpl; [|lia].
    rewrite length_app. simpl. lia.
Qed.

(** X22: the worker pools.  Whatever the calls, the cancellations and the
    settlings, at most one pool is created beyond one per cancellation; the
    pool held in [pool] is always the one created last, it is the one
    [poolInit] was made for, and it was not shut down; every pool created
    before the one [poolInit] stands for was shut down, and no pool is shut
    down twice. *)
Theorem pools_bounded (es : list event) :
  let st := run es in
  pools st <= 1 + length (List.filter is_cancel es) /\
  (forall n, pool st = Some n ->
     poolInit st = Some n /\ S n = pools st /\ n ∉ shutdowns st) /\
  (forall n, n < pools st -> n ∈ shutdowns st \/ poolInit st = Some n) /\
  NoDup (shutdowns st).
Proof.
  intros st. pose proof (run_pool_inv es) as Hinv.
  pose proof (pools_count _ Hinv) as Hc. pose proof (shutdowns_count es) as Hs.
  destruct Hinv as (H1 & H2 & H3 & H4 & H5). fold st in H1, H2, H3, H4, H5, Hc, Hs.
  split; [|split; [|split; [exact H3 | exact H5]]].
  - rewrite Hc. destruct (poolInit st); lia.
  - intros n Hn. pose proof (H1 n Hn) as Hi. destruct (H2 n Hi). done.
Qed.

(** Once [pool] is null while [poolInit] is set, they stay so. *)
Definition given_up (st : vars) : Prop := pool st = None /\ poolInit st <> None.

Lemma react_given_up st e :
  given_up st ->
  given_up (react st e) /\ pools (react st e) = pools st /\
  poolInit (react st e) = poolInit st /\ shutdowns (react st e) = shutdowns st.
Proof.
  intros Hg. pose proof Hg as [Hp Hi]. destruct e as [w|model|n ok|]; simpl.
  - unfold initLocalTts. destruct (w <=? 0)%Z.
    + destruct (localModel st); [done|]. by destruct (localInit st).
    + rewrite Hp. rewrite ?bool_decide_eq_false_2 by (by intros ?).
      rewrite andb_false_r. by destruct (poolInit st) eqn:E.
  - by destruct (_ && _).
  - destruct (_ && _); [|done]. split; [|done]. split; [|done]. simpl.
    by destruct ok.
  - unfold cancelLocalSpeak. simpl. by rewrite Hp.
Qed.

Lemma fold_given_up es st :
  given_up st ->
  given_up (fold_left react es st) /\ pools (fold_left react es st) = pools st /\
  poolInit (fold_left react es st) = poolInit st /\
  shutdowns (fold_left react es st) = shutdowns st.
Proof.
  revert st. induction es as [|e es IH]; intros st H; [done|].
  destruct (react_given_up st e H) as (G1 & G2 & G3 & G4). simpl.
  destruct (IH _ G1) as (I1 & I2 & I3 & I4). split; [done|].
  split; [congruence|]. split; congruence.
Qed.

(** X23: a pool that failed to start is never replaced.  When the startup
    of a pool has rejected, [pool] is null while [poolInit] still holds the
    old promise; [cancelLocalSpeak] resets [poolInit] only when there is a
    pool.  So from then on, whatever is called and in whatever order: no
    pool is created, none is shut down, [pool] stays null, and every
    [initLocalTts] with workers returns that same old promise without
    changing anything. *)
Theorem failed_pool_is_final (before after : list event) (n : nat) (maxWorkers : Z) :
  pool (run before) = None -> poolInit (run before) = Some n ->
  (0 < maxWorkers)%Z ->
  let st := run (before ++ after) in
  pool st = None /\ pools st = pools (run before) /\
  shutdowns st = shutdowns (run before) /\
  initLocalTts maxWorkers st = (st, PoolInit n).
Proof.
  intros Hp Hi Hw st.
  assert (st = fold_left react after (run before)) as Hst.
  { subst st. unfold run. by rewrite fold_left_app. }
  destruct (fold_given_up after (run before)) as ([G0 G1] & G2 & G3 & G4).
  { split; [done | by rewrite Hi]. }
  rewrite <- Hst in G0, G1, G2, G3, G4. clearbody st.
  split; [done|]. split; [done|]. split; [done|].
  unfold initLocalTts. assert ((maxWorkers <=? 0)%Z = false) as -> by (apply Z.leb_gt; lia).
  rewrite G0. rewrite ?bool_decide_eq_false_2 by (by intros ?).
  rewrite andb_false_r. by rewrite G3, Hi.
Qed.

Lemma failed_pool_is_final_witness :
  let st := run ([Init 2; PoolSettled 0 false] ++ [Cancel; Init 2; Init 2]) in
  pool st = None /\ pools st = pools (run [Init 2; PoolSettled 0 false]) /\
  shutdowns st = shutdowns (run [Init 2; PoolSettled 0 false]) /\
  initLocalTts 2 st = (st, PoolInit 0).
Proof.
  exact (failed_pool_is_final [Init 2; PoolSettled 0 false] [Cancel; Init 2; Init 2]
           0 2 eq_refl eq_refl ltac:(done)).
Defined.

(** The callbacks of a pool outlive its cancellation: if the [ready] of a
    pool that was shut down while it started resolves after that,
    [isLocalReady()] is true although there is no pool. *)
Example ready_without_pool :
  let st := run [Init 2; Cancel; PoolSettled 0 true] in
  isLocalReady st = true /\ pool st = None.
Proof. done. Qed.

End Backend.

(** ** The plugin: the string helpers and [speakText] of index.ts *)
Module Plugin.
Import JsString ChunkerFacts.

(** [s.startsWith(prefix)] *)
Fixpoint startsWith (s prefix : jsstring) {struct prefix} : bool :=
  match prefix, s with
  | [], _ => true
  | p :: ps, c :: r => (c =? p)%N && startsWith r ps
  | _ :: _, [] => false
  end.

(** [s.indexOf(needle)]; [None] stands for -1. *)
Fixpoint indexOf (s needle : jsstring) : option nat :=
  if startsWith s needle then Some 0
  else match s with
       | [] => None
       | _ :: r => S <$> indexOf r needle
       end.

(** [parseTtsCommand]; [None] stands for [null]. *)
Definition parseTtsCommand (text : jsstring) : option jsstring :=
  let trimmed := trim text in
  if negb (startsWith trimmed (of_string "/tts")) then None
  else
    let tail := trim (drop 4 trimmed) in
    if startsWith tail (of_string ":") then Some (trim (drop 1 tail))
    else Some tail.

(** [extractNotice]: the text after a front matter between two lines of
    three dashes, if there is one. *)
Definition extractNotice (raw : jsstring) : jsstring :=
  if falsy raw then []
  else if startsWith raw (of_string "---") then
    match indexOf (drop 3 raw) (LF :: of_string "---") with
    | Some j => let end_ := 3 + j in trim (drop (end_ + 4) raw)
    | None => trim raw
    end
  else trim raw.

Definition fence : jsstring := of_string "```".
Definition placeholder : jsstring := of_string " code block ".

Lemma indexOf_cons c r needle :
  indexOf (c :: r) needle
  = if startsWith (c :: r) needle then Some 0 else S <$> indexOf r needle.
Proof. done. Qed.

Lemma startsWith_length s prefix :
  startsWith s prefix = true -> length prefix <= length s.
Proof.
  revert s. induction prefix as [|p ps IH]; intros s; simpl; [lia|].
  destruct s as [|c r]; [done|]. intros [_ H]%andb_prop. specialize (IH _ H).
  simpl. lia.
Qed.

Lemma indexOf_bound s needle j :
  indexOf s needle = Some j -> j + length needle <= length s.
Proof.
  revert j. induction s as [|c r IH]; intros j.
  - destruct needle; [|done]. intros [= <-]. simpl. lia.
  - rewrite indexOf_cons. destruct (startsWith (c :: r) needle) eqn:E.
    + intros [= <-]. by apply startsWith_length.
    + destruct (indexOf r needle) as [k|]; [|done]. intros [= <-].
      specialize (IH k eq_refl). simpl. lia.
Qed.

(** [text.replace(/```[\s\S]*?```/g, " code block ")]: at a fence the lazy
    body runs up to the first fence that follows; with no fence after it
    there is no match there and the scan moves one code unit on. *)
Equations? replaceBlocks (s : jsstring) : jsstring by wf (length s) lt :=
  replaceBlocks [] := [];
  replaceBlocks (c :: r) with startsWith (c :: r) fence => {
    | true with indexOf (drop 3 (c :: r)) fence => {
        | Some j := placeholder ++ replaceBlocks (drop (3 + j + 3) (c :: r));
        | None := c :: replaceBlocks r };
    | false := c :: replaceBlocks r }.
Proof.
  all: try (simpl; lia).
  rewrite length_drop. simpl. lia.
Qed.

(** The class [[#*_`]]. *)
Definition is_markup (c : char16) : bool :=
  ((c =? 35) || (c =? 42) || (c =? 95) || (c =? 96))%N.

Definition strip_markup (s : jsstring) : jsstring :=
  List.filter (fun c => negb (is_markup c)) s.

(** [cleanText] of [speakText]. *)
Definition cleanText (text : jsstring) : jsstring :=
  trim (strip_markup (replaceBlocks text)).

(** *** Trimming *)

Lemma dropW_blank_app l s : blank l -> dropW is_space (l ++ s) = dropW is_space s.
Proof. induction 1 as [|c l Hc _ IH]; simpl; [done|]. by rewrite Hc. Qed.

Lemma blank_rev l : blank l -> blank (rev l).
Proof.
  intros H. apply Forall_forall. intros x Hx. unfold blank in H.
  rewrite Forall_forall in H. apply H. apply list_elem_of_In, in_rev.
  by apply list_elem_of_In.
Qed.

Lemma blank_takeW s : blank (takeW is_space s).
Proof.
  induction s as [|c r IH]; simpl; [constructor|].
  destruct (is_space c) eqn:E; by constructor.
Qed.

(** A string with no whitespace at its ends, padded with whitespace, is
    what [trim] gives back. *)
Lemma trim_unique l c r : blank l -> blank r -> edge_ok c -> trim (l ++ c ++ r) = c.
Proof.
  intros Hl Hr [H1 H2]. unfold trim. rewrite dropW_blank_app by done.
  destruct c as [|x c'].
  - simpl. by rewrite (blank_dropW r Hr).
  - simpl in H1. cbn [app dropW]. rewrite H1.
    change (x :: c' ++ r) with ((x :: c') ++ r). rewrite rev_app_distr.
    rewrite dropW_blank_app by (by apply blank_rev).
    by rewrite (dropW_clean _ H2), rev_involutive.
Qed.

Lemma trim_core l c r s :
  blank l -> blank r -> edge_ok c -> s = l ++ c ++ r -> trim s = c.
Proof. intros Hl Hr Hc ->. by apply trim_unique. Qed.

Lemma trim_decompose s : exists l r, blank l /\ blank r /\ s = l ++ trim s ++ r.
Proof.
  exists (takeW is_space s), (rev (takeW is_space (rev (dropW is_space s)))).
  split; [apply blank_takeW|]. split; [apply blank_rev, blank_takeW|].
  unfold trim. rewrite <- rev_app_distr, takeW_dropW, rev_involutive.
  by rewrite takeW_dropW.
Qed.

Lemma trim_pad l s r : blank l -> blank r -> trim (l ++ s ++ r) = trim s.
Proof.
  intros Hl Hr. destruct (trim_decompose s) as (l' & r' & Hl' & Hr' & E).
  rewrite E at 1.
  replace (l ++ (l' ++ trim s ++ r') ++ r) with ((l ++ l') ++ trim s ++ (r' ++ r))
    by (by rewrite <- !app_assoc).
  apply trim_unique; [by apply Forall_app | by apply Forall_app | apply trim_edge_ok].
Qed.

Lemma trim_trim s : trim (trim s) = trim s.
Proof. apply edge_ok_trim, trim_edge_ok. Qed.

Lemma trim_blank_l l s : blank l -> trim (l ++ s) = trim s.
Proof.
  intros Hl. rewrite <- (app_nil_r s) at 1. apply trim_pad; [done | constructor].
Qed.

Lemma startsWith_app p s : startsWith (p ++ s) p = true.
Proof. induction p as [|c p IH]; simpl; [done|]. rewrite N.eqb_refl. exact IH. Qed.

(** *** [parseTtsCommand] *)

Local Ltac step_prefix :=
  rewrite startsWith_app; cbn [negb];
  match goal with
  | |- context [drop ?n (?p ++ ?s)] =>
      change (drop n (p ++ s)) with (drop (length p) (p ++ s));
      rewrite drop_app_length
  end.

(** X24: [parseTtsCommand] answers null exactly when the text, trimmed, does
    not begin with [/tts]; otherwise its answer is trimmed.  Whitespace
    around the text does not matter. *)
Theorem parseTtsCommand_trimmed (text : jsstring) :
  (parseTtsCommand text = None
   <-> startsWith (trim text) (of_string "/tts") = false) /\
  (forall args, parseTtsCommand text = Some args -> trim args = args) /\
  (forall l r, blank l -> blank r ->
     parseTtsCommand (l ++ text ++ r) = parseTtsCommand text).
Proof.
  split; [|split].
  - unfold parseTtsCommand.
    destruct (startsWith (trim text) (of_string "/tts")); cbn [negb].
    + split; [|done].
      by destruct (startsWith (trim (drop 4 (trim text))) (of_string ":")).
    + done.
  - intros args. unfold parseTtsCommand.
    destruct (startsWith (trim text) (of_string "/tts")); cbn [negb]; [|done].
    destruct (startsWith (trim (drop 4 (trim text))) (of_string ":"));
      intros [= <-]; apply trim_trim.
  - intros l r Hl Hr. unfold parseTtsCommand. by rewrite trim_pad.
Qed.

Lemma edge_ok_snoc (s t : jsstring) :
  s <> [] -> t <> [] -> starts_clean s -> starts_clean (rev t) -> edge_ok (s ++ t).
Proof.
  intros Hs Ht H1 H2. split; [by apply starts_clean_app|].
  rewrite rev_app_distr. apply starts_clean_app; [by apply rev_nonempty | done].
Qed.

(** X25: the two ways to write a command.  For arguments without
    whitespace at their ends, [/tts], optional whitespace, a colon, optional
    whitespace and the arguments parse to the arguments; so does the form
    without the colon, [/tts], optional whitespace and the arguments, as long
    as the arguments do not begin with a colon themselves. *)
Theorem parseTtsCommand_forms (args ws1 ws2 : jsstring) :
  trim args = args -> blank ws1 -> blank ws2 ->
  parseTtsCommand (of_string "/tts" ++ ws1 ++ of_string ":" ++ ws2 ++ args)
  = Some args /\
  (startsWith args (of_string ":") = false ->
   parseTtsCommand (of_string "/tts" ++ ws1 ++ args) = Some args).
Proof.
  intros Hargs H1 H2.
  assert (edge_ok args) as Hedge by (rewrite <- Hargs; apply trim_edge_ok).
  assert (blank []) as Hnil by constructor.
  unfold parseTtsCommand. destruct args as [|x args'] eqn:Ea.
  - split.
    + rewrite (trim_core [] (of_string "/tts" ++ ws1 ++ of_string ":") ws2);
        [|done|done| |by rewrite <- !app_assoc, ?app_nil_r].
      2: { split; [done|]. rewrite !rev_app_distr. done. }
      step_prefix.
      rewrite (trim_core ws1 (of_string ":") []); [done..|].
      by rewrite app_nil_r.
    + intros _. rewrite app_nil_r.
      by rewrite (trim_core [] (of_string "/tts") ws1).
  - rewrite <- Ea in *. assert (args <> []) as Hne by (by rewrite Ea).
    destruct Hedge as [He1 He2]. split.
    + rewrite (trim_core [] (of_string "/tts" ++ ws1 ++ of_string ":" ++ ws2 ++ args) []);
        [|done|done| |by rewrite ?app_nil_r].
      2: { replace (of_string "/tts" ++ ws1 ++ of_string ":" ++ ws2 ++ args)
             with ((of_string "/tts" ++ ws1 ++ of_string ":" ++ ws2) ++ args)
             by (by rewrite <- !app_assoc).
           by apply edge_ok_snoc. }
      step_prefix.
      rewrite (trim_core ws1 (of_string ":" ++ ws2 ++ args) []);
        [|done|done| |by rewrite ?app_nil_r].
      2: { replace (of_string ":" ++ ws2 ++ args) with ((of_string ":" ++ ws2) ++ args)
             by (by rewrite <- !app_assoc).
           by apply edge_ok_snoc. }
      step_prefix.
      by rewrite (trim_core ws2 args []); [|done|done|split|by rewrite app_nil_r].
    + intros Hcolon.
      rewrite (trim_core [] (of_string "/tts" ++ ws1 ++ args) []);
        [|done|done| |by rewrite ?app_nil_r].
      2: { replace (of_string "/tts" ++ ws1 ++ args)
             with ((of_string "/tts" ++ ws1) ++ args) by (by rewrite <- !app_assoc).
           by apply edge_ok_snoc. }
      step_prefix.
      rewrite (trim_core ws1 args []); [|done|done|by split|by rewrite app_nil_r].
      by rewrite Hcolon.
Qed.

Lemma parseTtsCommand_forms_witness :
  parseTtsCommand (of_string "/tts" ++ of_string " " ++ of_string ":" ++ of_string "  "
                     ++ of_string "on")
  = Some (of_string "on") /\
  (startsWith (of_string "on") (of_string ":") = false ->
   parseTtsCommand (of_string "/tts" ++ of_string " " ++ of_string "on")
   = Some (of_string "on")).
Proof.
  apply (parseTtsCommand_forms (of_string "on") (of_string " ") (of_string "  ")).
  - reflexivity.
  - repeat constructor.
  - repeat constructor.
Defined.

(** *** [cleanText] *)

(** No backtick in the string. *)
Definition plain (s : jsstring) : Prop := Forall (fun c => c <> 96%N) s.

Lemma replaceBlocks_cons c r :
  replaceBlocks (c :: r)
  = if startsWith (c :: r) fence then
      match indexOf (drop 3 (c :: r)) fence with
      | Some j => placeholder ++ replaceBlocks (drop (3 + j + 3) (c :: r))
      | None => c :: replaceBlocks r
      end
    else c :: replaceBlocks r.
Proof.
  simp replaceBlocks. destruct (startsWith (c :: r) fence); simpl; [|done].
  by destruct (indexOf (drop 3 (c :: r)) fence).
Qed.

Lemma fence_eq : fence = [96; 96; 96]%N.
Proof. reflexivity. Qed.

Lemma startsWith_plain c r : c <> 96%N -> startsWith (c :: r) fence = false.
Proof.
  intros H. rewrite fence_eq. cbn [startsWith]. apply N.eqb_neq in H. by rewrite H.
Qed.

Lemma replaceBlocks_plain_app a s :
  plain a -> replaceBlocks (a ++ s) = a ++ replaceBlocks s.
Proof.
  induction 1 as [|c a Hc _ IH]; [done|].
  cbn [app]. rewrite replaceBlocks_cons, (startsWith_plain _ _ Hc). by rewrite IH.
Qed.

Lemma replaceBlocks_plain a : plain a -> replaceBlocks a = a.
Proof.
  intros H. rewrite <- (app_nil_r a) at 1. rewrite replaceBlocks_plain_app by done.
  simp replaceBlocks. by rewrite app_nil_r.
Qed.

Lemma indexOf_plain code s :
  plain code -> indexOf (code ++ fence ++ s) fence = Some (length code).
Proof.
  induction 1 as [|c code Hc _ IH].
  - cbn [app length]. destruct (fence ++ s) eqn:E; [done|].
    rewrite indexOf_cons, <- E, startsWith_app. done.
  - cbn [app]. rewrite indexOf_cons, (startsWith_plain _ _ Hc), IH. done.
Qed.

Lemma indexOf_plain_none code : plain code -> indexOf code fence = None.
Proof.
  induction 1 as [|c code Hc _ IH]; [done|].
  by rewrite indexOf_cons, (startsWith_plain _ _ Hc), IH.
Qed.

Lemma replaceBlocks_block code b :
  plain code ->
  replaceBlocks (fence ++ code ++ fence ++ b) = placeholder ++ replaceBlocks b.
Proof.
  intros Hc.
  change (fence ++ code ++ fence ++ b) with (96%N :: 96%N :: 96%N :: code ++ fence ++ b).
  rewrite replaceBlocks_cons.
  change (startsWith (96%N :: 96%N :: 96%N :: code ++ fence ++ b) fence) with true.
  change (drop 3 (96%N :: 96%N :: 96%N :: code ++ fence ++ b)) with (code ++ fence ++ b).
  rewrite (indexOf_plain code b Hc).
  change (drop (3 + length code + 3) (96%N :: 96%N :: 96%N :: code ++ fence ++ b))
    with (drop (length code + 3) (code ++ fence ++ b)).
  rewrite drop_app_add. by change (drop 3 (fence ++ b)) with b.
Qed.

Lemma replaceBlocks_open code : plain code -> replaceBlocks (fence ++ code) = fence ++ code.
Proof.
  intros Hc.
  change (fence ++ code) with (96%N :: 96%N :: 96%N :: code).
  rewrite replaceBlocks_cons.
  change (startsWith (96%N :: 96%N :: 96%N :: code) fence) with true.
  change (drop 3 (96%N :: 96%N :: 96%N :: code)) with code.
  rewrite (indexOf_plain_none code Hc). f_equal.
  assert (startsWith (96%N :: 96%N :: code) fence = false) as E1.
  { rewrite fence_eq. destruct Hc as [|c code Hc _]; [done|]. cbn [startsWith].
    apply N.eqb_neq in Hc. by rewrite Hc, !andb_false_r. }
  rewrite replaceBlocks_cons, E1. f_equal.
  assert (startsWith (96%N :: code) fence = false) as E2.
  { rewrite fence_eq. destruct Hc as [|c code Hc _]; [done|]. cbn [startsWith].
    apply N.eqb_neq in Hc. by rewrite Hc, !andb_false_r. }
  rewrite replaceBlocks_cons, E2. f_equal. by apply replaceBlocks_plain.
Qed.

Lemma strip_markup_app s t : strip_markup (s ++ t) = strip_markup s ++ strip_markup t.
Proof. apply List.filter_app. Qed.

Lemma strip_markup_clean s : Forall (fun c => is_markup c = false) (strip_markup s).
Proof.
  apply Forall_forall. intros c Hc. apply list_elem_of_In, filter_In in Hc as [_ H].
  by apply negb_true_iff.
Qed.

Lemma strip_markup_id s : Forall (fun c => is_markup c = false) s -> strip_markup s = s.
Proof.
  induction 1 as [|c s Hc _ IH]; [done|]. unfold strip_markup in *. simpl.
  by rewrite Hc, IH.
Qed.

Lemma clean_plain s : Forall (fun c => is_markup c = false) s -> plain s.
Proof.
  intros H. eapply Forall_impl; [exact H|]. intros c Hc ->. done.
Qed.

Lemma Forall_trim (P : N -> Prop) s : Forall P s -> Forall P (trim s).
Proof.
  intros H. unfold trim. apply Forall_rev, Forall_dropW, Forall_rev.
  by apply Forall_dropW.
Qed.

Lemma cleanText_markup_free text :
  Forall (fun c => is_markup c = false) (cleanText text).
Proof. apply Forall_trim, strip_markup_clean. Qed.

Lemma cleanText_again text : cleanText (cleanText text) = cleanText text.
Proof.
  pose proof (cleanText_markup_free text) as H. unfold cleanText at 1.
  rewrite (replaceBlocks_plain _ (clean_plain _ H)), (strip_markup_id _ H).
  apply trim_trim.
Qed.

(** X26: what [cleanText] hands to the speech engine holds none of the
    characters #, *, _ and backtick and has no whitespace at its ends;
    cleaning it again changes nothing. *)
Theorem cleanText_clean (text : jsstring) :
  Forall (fun c => is_markup c = false) (cleanText text) /\
  trim (cleanText text) = cleanText text /\
  cleanText (cleanText text) = cleanText text.
Proof.
  split; [apply cleanText_markup_free|].
  split; [apply trim_trim | apply cleanText_again].
Qed.

(** X27: fenced code is not read aloud.  When the text before a fence and
    the code after it hold no backtick, everything from the fence to the
    closing fence is replaced by the words "code block", whatever the code
    is, and cleaning goes on after the closing fence.  A fence that is never
    closed is no code block: its backticks are dropped and the code after it
    is read like the rest. *)
Theorem cleanText_code_block (before code after : jsstring) :
  plain before -> plain code ->
  cleanText (before ++ fence ++ code ++ fence ++ after)
  = trim (strip_markup before ++ placeholder
            ++ strip_markup (replaceBlocks after)) /\
  cleanText (before ++ fence ++ code) = trim (strip_markup (before ++ code)).
Proof.
  intros Hb Hc. unfold cleanText. split.
  - rewrite (replaceBlocks_plain_app _ _ Hb), (replaceBlocks_block _ _ Hc).
    by rewrite !strip_markup_app.
  - rewrite (replaceBlocks_plain_app _ _ Hb), (replaceBlocks_open _ Hc).
    by rewrite !strip_markup_app.
Qed.

Lemma cleanText_code_block_witness :
  cleanText (of_string "Run " ++ fence ++ of_string "x = 1" ++ fence ++ of_string " now.")
  = of_string "Run  code block  now." /\
  cleanText (of_string "Run " ++ fence ++ of_string "x = 1") = of_string "Run x = 1".
Proof.
  apply (cleanText_code_block (of_string "Run ") (of_string "x = 1") (of_string " now.")).
  - repeat constructor; discriminate.
  - repeat constructor; discriminate.
Defined.

(** *** [extractNotice] *)

Definition rule : jsstring := LF :: of_string "---".

Lemma rule_eq : rule = [10; 45; 45; 45]%N.
Proof. reflexivity. Qed.

(** The first line of three dashes after a front matter that holds none is
    the one right after it. *)
Lemma indexOf_rule fm body :
  indexOf fm rule = None -> indexOf (fm ++ rule ++ body) rule = Some (length fm).
Proof.
  induction fm as [|c fm IH].
  - intros _. cbn [app length]. change (rule ++ body) with (10%N :: of_string "---" ++ body).
    rewrite indexOf_cons. change (10%N :: of_string "---" ++ body) with (rule ++ body).
    by rewrite startsWith_app.
  - rewrite indexOf_cons. destruct (startsWith (c :: fm) rule) eqn:E; [done|].
    destruct (indexOf fm rule) eqn:Ei; [done|]. intros _.
    cbn [app]. rewrite indexOf_cons, (IH eq_refl).
    assert (startsWith (c :: fm ++ rule ++ body) rule = false) as ->; [|done].
    revert E. rewrite rule_eq. clear.
    destruct fm as [|x [|y [|z rest]]]; cbn [app startsWith]; intros E.
    + by rewrite andb_false_r.
    + by rewrite !andb_false_r.
    + by rewrite !andb_false_r.
    + done.
Qed.

(** X28: [extractNotice] drops a front matter.  Its answer has no
    whitespace at its ends.  A text that does not begin with three dashes is
    returned trimmed; from a text that begins with three dashes, a front
    matter holding no line that begins with three dashes, and such a line,
    what follows that line's dashes is returned, trimmed. *)
Theorem extractNotice_front_matter (raw fm body : jsstring) :
  trim (extractNotice raw) = extractNotice raw /\
  (startsWith raw (of_string "---") = false -> extractNotice raw = trim raw) /\
  (indexOf fm rule = None ->
   extractNotice (of_string "---" ++ fm ++ rule ++ body) = trim body).
Proof.
  split; [|split].
  - unfold extractNotice. destruct (falsy raw); [done|].
    destruct (startsWith raw _); [|apply trim_trim].
    destruct (indexOf _ _); apply trim_trim.
  - intros H. unfold extractNotice. rewrite H. destruct raw; [done|]. done.
  - intros H. unfold extractNotice.
    change (falsy (of_string "---" ++ fm ++ rule ++ body)) with false.
    rewrite startsWith_app. cbv iota.
    change (drop 3 (of_string "---" ++ fm ++ rule ++ body)) with (fm ++ rule ++ body).
    fold rule. rewrite (indexOf_rule fm body H). cbv zeta.
    change (drop (3 + length fm + 4) (of_string "---" ++ fm ++ rule ++ body))
      with (drop (length fm + 4) (fm ++ rule ++ body)).
    rewrite drop_app_add. done.
Qed.

(** *** [speakText] *)

(** The variables [speakText] reads and writes, with what it has handed to
    [speak] and how often it has called [cancelTts]. *)
Record session := {
  enabled : bool;                        (* [config.enabled] *)
  ready : bool;                          (* what [isReady(config)] answers *)
  lastSpokenMessageID : option string;
  spoken : list (string * jsstring);
  cancels : nat }.

(** [speakText], up to its call of [speak]. *)
Definition speakText (messageID : string) (text : jsstring) (st : session) : session :=
  if bool_decide (lastSpokenMessageID st = Some messageID) then st
  else if negb (enabled st) then
    {| enabled := enabled st; ready := ready st;
       lastSpokenMessageID := lastSpokenMessageID st;
       spoken := spoken st; cancels := S (cancels st) |}
  else if negb (ready st) then st
  else
    let clean := cleanText text in
    {| enabled := enabled st; ready := ready st;
       lastSpokenMessageID := Some messageID;
       spoken := if length clean =? 0 then spoken st
                 else spoken st ++ [(messageID, clean)];
       cancels := cancels st |}.

Inductive event :=
| SpeakText (messageID : string) (text : jsstring)
| SetEnabled (b : bool)
| SetReady (b : bool).

Definition react (st : session) (e : event) : session :=
  match e with
  | SpeakText messageID text => speakText messageID text st
  | SetEnabled b =>
      {| enabled := b; ready := ready st;
         lastSpokenMessageID := lastSpokenMessageID st;
         spoken := spoken st; cancels := cancels st |}
  | SetReady b =>
      {| enabled := enabled st; ready := b;
         lastSpokenMessageID := lastSpokenMessageID st;
         spoken := spoken st; cancels := cancels st |}
  end.

(** Every [speakText] among the events is for the message [messageID]. *)
Definition only_for (messageID : string) (e : event) : Prop :=
  match e with SpeakText m _ => m = messageID | _ => True end.

Definition said (messageID : string) (st0 st : session) : Prop :=
  spoken st = spoken st0 \/
  exists clean, spoken st = spoken st0 ++ [(messageID, clean)] /\
    lastSpokenMessageID st = Some messageID /\
    clean <> [] /\ cleanText clean = clean.

Lemma react_said messageID st0 st e :
  only_for messageID e -> said messageID st0 st -> said messageID st0 (react st e).
Proof.
  intros He Hst. destruct e as [m text|b|b]; simpl in *.
  - subst m. unfold speakText. case_bool_decide as Hl; [done|].
    destruct (enabled st); cbn [negb]; [|done].
    destruct (ready st); cbn [negb]; [|done].
    destruct Hst as [Hs|(c & _ & Hc & _)]; [|done].
    destruct (Nat.eqb_spec (length (cleanText text)) 0) as [H0|H0]; [by left|].
    right. exists (cleanText text). simpl. rewrite Hs. split; [done|].
    split; [done|]. split; [by destruct (cleanText text)|].
    apply cleanText_again.
  - destruct Hst as [?|(c & ? & ? & ?)]; [by left | right; by exists c].
  - destruct Hst as [?|(c & ? & ? & ?)]; [by left | right; by exists c].
Qed.

(** X29: a message is read once.  However often [speakText] is called for
    the same message, and whatever enabling, disabling and readiness changes
    come in between, [speak] is called at most once for it, with a text that
    is cleaned and not empty. *)
Theorem speakText_once (messageID : string) (evs : list event) (st : session) :
  Forall (only_for messageID) evs ->
  exists new,
    spoken (fold_left react evs st) = spoken st ++ new /\
    length new <= 1 /\
    Forall (fun p => p.1 = messageID /\ p.2 <> [] /\ cleanText p.2 = p.2) new.
Proof.
  intros Hevs.
  assert (said messageID st (fold_left react evs st)) as H.
  { assert (said messageID st st) as H0 by (by left).
    revert H0. generalize st at 2 4. induction Hevs as [|e evs He _ IH]; intros s Hs.
    - done.
    - simpl. apply IH. by apply react_said. }
  destruct H as [H|(c & H & _ & Hc1 & Hc2)].
  - exists []. rewrite app_nil_r. split; [done|]. split; [simpl; lia | constructor].
  - exists [(messageID, c)]. split; [done|]. split; [simpl; lia|].
    constructor; [done | constructor].
Qed.

Lemma speakText_once_witness :
  exists new,
    spoken (fold_left react
              [SpeakText "m1" (of_string "# Hello"); SetEnabled false;
               SpeakText "m1" (of_string "# Hello again"); SetEnabled true;
               SpeakText "m1" (of_string "# Hello again")]
              {| enabled := true; ready := true; lastSpokenMessageID := None;
                 spoken := []; cancels := 0 |})
    = [] ++ new /\
    length new <= 1 /\
    Forall (fun p => p.1 = "m1" /\ p.2 <> [] /\ cleanText p.2 = p.2) new.
Proof.
  apply (speakText_once "m1"). repeat constructor.
Defined.

End Plugin.

(** ** TextChunker: the words of the chunks *)
Module ChunkerWords.
Import JsString TextChunker ChunkerFacts Plugin.

(** The words of a string, as the inner loop of [splitText] takes them: the
    pieces of [split(/\s+/)] that are not empty. *)
Definition words (s : jsstring) : list jsstring :=
  List.filter (fun w => negb (falsy w)) (split_ws s).

(** The words of a list of strings, one string after the other. *)
Definition all_words (l : list jsstring) : list jsstring := flat_map words l.

(** A terminator directly followed by a non-terminator is where the regex
    ends one match and begins the next; the pair is harmless when one of the
    two is whitespace (the terminator is a newline, or whitespace follows). *)
Definition ok_pair (t d : char16) : bool :=
  negb (is_term t && nonterm d) || is_space t || is_space d.

(** No match of the regex ends inside a word. *)
Fixpoint spaced (s : jsstring) : bool :=
  match s with
  | [] => true
  | t :: r => match r with [] => true | d :: _ => ok_pair t d end && spaced r
  end.

(** The same words, by one scan: [cur] is the word being read, reversed. *)
Fixpoint words_go (cur : jsstring) (s : jsstring) : list jsstring :=
  match s with
  | [] => if falsy cur then [] else [rev cur]
  | c :: r =>
      if is_space c
      then (if falsy cur then words_go [] r else rev cur :: words_go [] r)
      else words_go (c :: cur) r
  end.

Lemma falsy_rev (s : jsstring) : falsy (rev s) = falsy s.
Proof.
  destruct s as [|c r]; [done|]. simpl. by destruct (rev r).
Qed.

Lemma split_go_words_go cur sep s :
  (sep = true -> cur = []) ->
  List.filter (fun w => negb (falsy w)) (split_go cur sep s) = words_go cur s.
Proof.
  revert cur sep. induction s as [|c r IH]; intros cur sep Hsep; simpl.
  - rewrite falsy_rev. by destruct (falsy cur).
  - destruct (is_space c).
    + destruct sep.
      * rewrite (Hsep eq_refl). by apply IH.
      * simpl. rewrite falsy_rev, (IH [] true) by done. by destruct (falsy cur).
    + apply IH. discriminate.
Qed.

Lemma words_eq s : words s = words_go [] s.
Proof. apply split_go_words_go. done. Qed.

Lemma words_go_app_space cur a c b :
  is_space c = true -> words_go cur (a ++ c :: b) = words_go cur a ++ words_go [] b.
Proof.
  intros Hc. revert cur. induction a as [|x a IH]; intros cur; simpl.
  - rewrite Hc. by destruct (falsy cur).
  - destruct (is_space x).
    + rewrite IH. by destruct (falsy cur).
    + apply IH.
Qed.

Lemma words_app_space a c b :
  is_space c = true -> words (a ++ c :: b) = words a ++ words b.
Proof. intros Hc. rewrite !words_eq. by apply words_go_app_space. Qed.

Lemma words_nil : words [] = [].
Proof. done. Qed.

Lemma words_cons_space c b : is_space c = true -> words (c :: b) = words b.
Proof. intros Hc. apply (words_app_space [] c b Hc). Qed.

Lemma words_snoc_space a c : is_space c = true -> words (a ++ [c]) = words a.
Proof. intros Hc. by rewrite (words_app_space a c [] Hc), words_nil, app_nil_r. Qed.

Lemma words_blank_l l s : blank l -> words (l ++ s) = words s.
Proof.
  induction 1 as [|c l Hc _ IH]; [done|]. simpl. by rewrite words_cons_space.
Qed.

Lemma words_blank_r s r : blank r -> words (s ++ r) = words s.
Proof.
  intros Hr. revert s. induction Hr as [|c r Hc _ IH]; intros s.
  - by rewrite app_nil_r.
  - pose proof (IH []) as H. simpl in H.
    by rewrite (words_app_space s c r Hc), H, words_nil, app_nil_r.
Qed.

Lemma words_trim s : words (trim s) = words s.
Proof.
  destruct (trim_decompose s) as (l & r & Hl & Hr & E).
  rewrite E at 2. by rewrite words_blank_l, words_blank_r.
Qed.

Lemma words_go_word cur w :
  is_word w ->
  words_go cur w = if falsy (rev cur ++ w) then [] else [rev cur ++ w].
Proof.
  intros Hw. revert cur. induction Hw as [|c w Hc _ IH]; intros cur; simpl.
  - rewrite app_nil_r, falsy_rev. done.
  - rewrite Hc, IH. simpl. by rewrite <- app_assoc.
Qed.

Lemma words_word w : is_word w -> words w = if falsy w then [] else [w].
Proof. intros Hw. rewrite words_eq. by rewrite words_go_word. Qed.

(** *** The packing loop keeps the words *)

Definition gathered (st : list jsstring * jsstring) : list jsstring :=
  all_words st.1 ++ words st.2.

Lemma all_words_app l l' : all_words (l ++ l') = all_words l ++ all_words l'.
Proof. apply flat_map_app. Qed.

Lemma all_words_one c : all_words [c] = words c.
Proof. unfold all_words. simpl. apply app_nil_r. Qed.

Lemma pushWord_words st w :
  is_word w -> gathered (pushWord st w) = gathered st ++ words w.
Proof.
  intros Hw. destruct st as [chunks current]. unfold pushWord, gathered.
  rewrite (words_word w Hw).
  destruct (falsy w) eqn:Ew; [by rewrite app_nil_r|].
  destruct (falsy current) eqn:Ec; cbn [fst snd].
  - apply falsy_spec in Ec. subst current. rewrite words_nil, app_nil_r.
    by rewrite (words_word w Hw), Ew.
  - destruct (Nat.leb _ maxLength); cbn [fst snd].
    + rewrite (words_app_space current SP w eq_refl), (words_word w Hw), Ew.
      by rewrite app_assoc.
    + by rewrite all_words_app, all_words_one, (words_word w Hw), Ew.
Qed.

Lemma fold_pushWord_words ws st :
  Forall is_word ws ->
  gathered (fold_left pushWord ws st)
  = gathered st ++ List.filter (fun w => negb (falsy w)) ws.
Proof.
  intros Hws. revert st. induction Hws as [|w ws Hw _ IH]; intros st; simpl.
  - by rewrite app_nil_r.
  - rewrite IH, (pushWord_words st w Hw), (words_word w Hw), <- app_assoc.
    by destruct (falsy w).
Qed.

Lemma splitPart_words chunks part :
  all_words (splitPart chunks part) = all_words chunks ++ words part.
Proof.
  unfold splitPart. rewrite <- (words_trim part).
  destruct (falsy (trim part)) eqn:Ef.
  - apply falsy_spec in Ef. rewrite Ef, words_nil. by rewrite app_nil_r.
  - destruct (length (trim part) <=? maxLength).
    + by rewrite all_words_app, all_words_one.
    + pose proof (fold_pushWord_words (split_ws (trim part)) (chunks, [])
                    (split_ws_words _)) as H.
      destruct (fold_left pushWord _ _) as [chunks' current].
      unfold gathered in H. cbn [fst snd] in H. rewrite words_nil, app_nil_r in H.
      fold (words (trim part)) in H. rewrite <- H.
      destruct current as [|d current]; cbn [falsy].
      * by rewrite words_nil, app_nil_r.
      * by rewrite all_words_app, all_words_one.
Qed.

Lemma fold_splitPart_words ps chunks :
  all_words (fold_left splitPart ps chunks) = all_words chunks ++ all_words ps.
Proof.
  revert chunks. induction ps as [|p ps IH]; intros chunks; simpl.
  - by rewrite app_nil_r.
  - rewrite IH, splitPart_words, <- app_assoc. done.
Qed.


(** *** The segmenting regex and the words *)

Lemma takeW_holds p s : Forall (fun c => p c = true) (takeW p s).
Proof.
  induction s as [|c r IH]; simpl; [constructor|].
  destruct (p c) eqn:E; by constructor.
Qed.

Lemma spaced_app a t d b :
  spaced (a ++ t :: d :: b) = spaced (a ++ [t]) && ok_pair t d && spaced (d :: b).
Proof.
  induction a as [|x a IH].
  - reflexivity.
  - change (spaced ((x :: a) ++ t :: d :: b))
      with (match a ++ t :: d :: b with [] => true | y :: _ => ok_pair x y end
            && spaced (a ++ t :: d :: b)).
    change (spaced ((x :: a) ++ [t]))
      with (match a ++ [t] with [] => true | y :: _ => ok_pair x y end
            && spaced (a ++ [t])).
    rewrite IH. destruct a; cbn [app]; by rewrite !andb_assoc.
Qed.

Lemma spaced_suffix a b : spaced (a ++ b) = true -> spaced b = true.
Proof.
  induction a as [|x a IH]; [done|]. cbn [app spaced].
  intros [_ H]%andb_prop. by apply IH.
Qed.

(** Inside one match no terminator is followed by a non-terminator. *)
Lemma spaced_match ns ts :
  Forall (fun c => nonterm c = true) ns -> Forall (fun c => is_term c = true) ts ->
  spaced (ns ++ ts) = true.
Proof.
  intros Hns Hts. induction Hns as [|n ns Hn _ IH].
  - simpl. induction Hts as [|t ts Ht Hts' IH]; [done|]. cbn [spaced].
    rewrite IH, andb_true_r. destruct Hts' as [|t' ts' Ht' _]; [done|].
    unfold ok_pair, nonterm. rewrite Ht, Ht'. reflexivity.
  - cbn [app spaced]. rewrite IH, andb_true_r.
    destruct (ns ++ ts) as [|d r]; [done|].
    unfold ok_pair. unfold nonterm in Hn. apply negb_true_iff in Hn.
    rewrite Hn. reflexivity.
Qed.

(** The boundary between a string that ends with [t] and one that begins
    with [d] is whitespace on one side. *)
Lemma words_app_boundary a t d b :
  is_space t || is_space d = true ->
  words ((a ++ [t]) ++ d :: b) = words (a ++ [t]) ++ words (d :: b).
Proof.
  intros [Ht|Hd]%orb_prop.
  - rewrite <- app_assoc. cbn [app].
    by rewrite (words_app_space a t (d :: b) Ht), (words_snoc_space a t Ht).
  - by rewrite (words_app_space (a ++ [t]) d b Hd), (words_cons_space d b Hd).
Qed.

Lemma length_words_go_cur cur cur' s :
  cur <> [] -> cur' <> [] ->
  length (words_go cur s) = length (words_go cur' s).
Proof.
  revert cur cur'. induction s as [|c r IH]; intros cur cur' H H'; simpl.
  - by destruct cur, cur'.
  - destruct (is_space c); [by destruct cur, cur'|]. by apply IH.
Qed.

Lemma length_words_go_le cur s :
  length (words_go cur s) <= 1 + length (words_go [] s).
Proof.
  destruct cur as [|x cur]; [lia|]. destruct s as [|c r]; simpl; [lia|].
  destruct (is_space c); simpl; [lia|].
  rewrite (length_words_go_cur (c :: x :: cur) [c]) by done. lia.
Qed.

Lemma length_words_go_app cur a b :
  length (words_go cur (a ++ b)) <= length (words_go cur a) + length (words_go [] b).
Proof.
  revert cur. induction a as [|x a IH]; intros cur; simpl.
  - pose proof (length_words_go_le cur b). destruct cur; simpl in *; lia.
  - destruct (is_space x); [|apply IH].
    specialize (IH []). destruct (falsy cur); simpl; lia.
Qed.

Lemma length_words_app a b :
  length (words (a ++ b)) <= length (words a) + length (words b).
Proof. rewrite !words_eq. apply length_words_go_app. Qed.

(** Cut between two code units that are no whitespace, a word becomes
    two. *)
Lemma length_words_go_cut cur a t d b :
  is_space t = false -> is_space d = false ->
  length (words_go cur (a ++ t :: d :: b)) + 1
  = length (words_go cur (a ++ [t])) + length (words_go [] (d :: b)).
Proof.
  intros Ht Hd. revert cur. induction a as [|x a IH]; intros cur; simpl.
  - rewrite Ht, Hd. simpl.
    rewrite (length_words_go_cur (d :: t :: cur) [d]) by done. lia.
  - destruct (is_space x); [|apply IH].
    specialize (IH []). simpl in IH. rewrite Hd in IH.
    destruct (falsy cur); simpl; rewrite Hd; lia.
Qed.

Lemma length_words_cut a t d b :
  is_space t = false -> is_space d = false ->
  length (words ((a ++ [t]) ++ d :: b)) + 1
  = length (words (a ++ [t])) + length (words (d :: b)).
Proof.
  intros Ht Hd. rewrite <- app_assoc. cbn [app]. rewrite !words_eq.
  by apply length_words_go_cut.
Qed.

(** A match that is followed by another ends with a terminator, and the
    next one begins with a non-terminator. *)
Lemma match_boundary c r :
  let m := c :: takeW nonterm r ++ takeW is_term (dropW nonterm r) in
  let rest := dropW is_term (dropW nonterm r) in
  c :: r = m ++ rest /\
  (nonterm c = true -> spaced m = true) /\
  (rest <> [] ->
   exists a t d b, m = a ++ [t] /\ rest = d :: b /\
     is_term t = true /\ nonterm d = true).
Proof.
  intros m rest. subst m rest. split; [|split].
  - cbn [app]. f_equal. rewrite <- app_assoc, takeW_dropW. symmetry. apply takeW_dropW.
  - intros Hc. apply (spaced_match (c :: takeW nonterm r)); [|apply takeW_holds].
    constructor; [done | apply takeW_holds].
  - intros Hne.
    pose proof (dropW_starts is_term (dropW nonterm r)) as Hd.
    pose proof (dropW_starts nonterm r) as Hx.
    pose proof (takeW_dropW is_term (dropW nonterm r)) as E.
    pose proof (takeW_holds is_term (dropW nonterm r)) as HT.
    destruct (dropW is_term (dropW nonterm r)) as [|d b] eqn:Er; [done|].
    destruct (takeW is_term (dropW nonterm r)) as [|t0 ts] eqn:Et using rev_ind.
    + simpl in E. rewrite <- E in Hx. unfold nonterm in Hx.
      apply negb_false_iff in Hx. congruence.
    + apply Forall_app in HT as [_ HT]. apply Forall_inv in HT.
      exists (c :: takeW nonterm r ++ ts), t0, d, b.
      split; [cbn [app]; by rewrite app_assoc|]. split; [done|]. split; [done|].
      unfold nonterm. by rewrite Hd.
Qed.

Lemma matchAll_words s :
  starts_plain s -> spaced s = true -> all_words (matchAll s) = words s.
Proof.
  funelim (matchAll s); intros Hs Hsp; simpl in Hs; try congruence.
  - done.
  - destruct (match_boundary c r) as (E & _ & Hb). cbv zeta in E, Hb.
    change (all_words (?m :: ?l)) with (words m ++ all_words l).
    rewrite E in Hsp |- *.
    match goal with IH : starts_plain _ -> _ |- _ =>
      rewrite IH; [|apply (dropW_starts is_term)|by apply spaced_suffix in Hsp] end.
    destruct (dropW is_term (dropW nonterm r)) as [|d b] eqn:Er.
    { by rewrite words_nil, !app_nil_r. }
    destruct Hb as (a & t & d' & b' & Em & [= <- <-] & Ht & Hd); [done|].
    rewrite Em in Hsp |- *. rewrite <- app_assoc in Hsp. cbn [app] in Hsp.
    rewrite spaced_app in Hsp. apply andb_prop in Hsp as [[_ Hok]%andb_prop _].
    symmetry. apply words_app_boundary.
    unfold ok_pair in Hok. rewrite Ht, Hd in Hok. simpl in Hok. done.
Qed.

Lemma matchAll_words_cut s :
  starts_plain s ->
  length (words s) <= length (all_words (matchAll s)) /\
  (spaced s = false -> length (words s) < length (all_words (matchAll s))).
Proof.
  funelim (matchAll s); intros Hs; simpl in Hs; try congruence.
  - split; [done | discriminate].
  - destruct (match_boundary c r) as (E & Hm & Hb). cbv zeta in E, Hm, Hb.
    change (all_words (?m :: ?l)) with (words m ++ all_words l).
    rewrite length_app. rewrite E.
    match goal with IH : starts_plain _ -> _ |- _ =>
      destruct IH as [IH1 IH2]; [apply (dropW_starts is_term)|] end.
    pose proof (length_words_app
                  (c :: takeW nonterm r ++ takeW is_term (dropW nonterm r))
                  (dropW is_term (dropW nonterm r))) as Hle.
    split; [lia|]. intros Hsp.
    specialize (Hm ltac:(unfold nonterm; by rewrite Hs)).
    destruct (dropW is_term (dropW nonterm r)) as [|d b] eqn:Er.
    { rewrite app_nil_r in Hsp. congruence. }
    destruct Hb as (a & t & d' & b' & Em & [= <- <-] & Ht & Hd); [done|].
    rewrite Em in Hsp, Hm, Hle |- *. rewrite <- app_assoc in Hsp. cbn [app] in Hsp.
    rewrite spaced_app, Hm in Hsp. cbn [andb] in Hsp.
    destruct (ok_pair t d) eqn:Hok; cbn [andb] in Hsp.
    + specialize (IH2 Hsp). lia.
    + unfold ok_pair in Hok. rewrite Ht, Hd in Hok. simpl in Hok.
      apply orb_false_iff in Hok as [Hst Hsd].
      pose proof (length_words_cut a t d b Hst Hsd). lia.
Qed.

(** *** The chunks put together *)

(** Modelled from the spec: the chunks concatenated in order, with
    whitespace between them. *)
Fixpoint joined (chunks : list jsstring) : jsstring :=
  match chunks with
  | [] => []
  | c :: rest => c ++ SP :: joined rest
  end.

Lemma words_joined chunks : words (joined chunks) = all_words chunks.
Proof.
  induction chunks as [|c rest IH]; [done|]. cbn [joined].
  rewrite (words_app_space c SP (joined rest) eq_refl), IH. done.
Qed.

Lemma parts_words text :
  starts_plain text -> spaced text = true -> all_words (parts text) = words text.
Proof.
  intros Hs Hsp. unfold parts.
  pose proof (matchAll_words text Hs Hsp) as H.
  destruct (matchAll text); [|done].
  unfold all_words. simpl. apply app_nil_r.
Qed.

Lemma parts_words_cut text :
  starts_plain text -> spaced text = false ->
  length (words text) < length (all_words (parts text)).
Proof.
  intros Hs Hsp. unfold parts.
  destruct (matchAll_words_cut text Hs) as [_ H]. specialize (H Hsp).
  destruct (matchAll text); [simpl in H; lia | done].
Qed.

Lemma splitText_words text : all_words (splitText text) = all_words (parts text).
Proof. unfold splitText. by rewrite fold_splitPart_words. Qed.

(** C6, as stated, fails in two ways.  Terminators at the very start of the
    text match neither alternative of the regex and are skipped, so the word
    "..." of "... hi" is in no chunk.  And the regex ends a match after a
    terminator whatever follows, so the one word "Hello.World" comes out as
    the two chunks "Hello." and "World", although no code unit is lost. *)
Lemma splitText_drops_and_cuts_words :
  (splitText (of_string "... hi") = [of_string "hi"] /\
   words (of_string "... hi") = [of_string "..."; of_string "hi"] /\
   words (joined (splitText (of_string "... hi"))) = [of_string "hi"]) /\
  (splitText (of_string "Hello.World") = [of_string "Hello."; of_string "World"] /\
   words (of_string "Hello.World") = [of_string "Hello.World"] /\
   words (joined (splitText (of_string "Hello.World")))
   = [of_string "Hello."; of_string "World"] /\
   strip_ws (concat (splitText (of_string "Hello.World")))
   = strip_ws (of_string "Hello.World")).
Proof. vm_compute. repeat split. Qed.

(** C6, amended: whatever the text, the chunks put together in order hold
    the words of the parts the regex cuts the text into, in their order,
    each once: the packing drops no word and duplicates none.  For a text
    that does not begin with a sentence terminator (. ! ? or newline), these
    are the words of the text, in order, exactly when no terminator is
    directly followed by a non-terminator unless one of the two is
    whitespace, that is when no sentence ends inside a word; and in any case
    the chunks hold, whitespace ignored, exactly the text's content. *)
Theorem splitText_preserves_words (text : jsstring) :
  words (joined (splitText text)) = flat_map words (parts text) /\
  (starts_plain text ->
   (words (joined (splitText text)) = words text <-> spaced text = true)) /\
  (starts_plain text -> strip_ws (concat (splitText text)) = strip_ws text).
Proof.
  rewrite words_joined, splitText_words. split; [done|]. split.
  - intros Hs. split.
    + intros H. destruct (spaced text) eqn:Hsp; [done|].
      pose proof (parts_words_cut text Hs Hsp) as Hlt. rewrite H in Hlt. lia.
    + by apply parts_words.
  - apply splitText_content.
Qed.

Lemma splitText_preserves_words_witness :
  words (joined (splitText (of_string "Wait... what? Hello. World")))
  = words (of_string "Wait... what? Hello. World").
Proof.
  apply (proj1 (proj2 (splitText_preserves_words
                         (of_string "Wait... what? Hello. World")))).
  - reflexivity.
  - reflexivity.
Defined.

End ChunkerWords.

From stdpp Require Import pretty.

(** ** The names of the temp files: [writeTempWav] of audio.ts *)
Module TempPath.

(** The name [writeTempWav] gives its file: [now] is [Date.now()], in
    milliseconds, and numbers are put in a template literal in decimal. *)
Definition fileName (now index : N) : string :=
  "opencode-tts-" +:+ pretty now +:+ "-" +:+ pretty index +:+ ".wav".

(** The path [writeTempWav] writes to, [join] being [path.join] of the
    platform, which puts the separator of the platform between its arguments
    and normalises the result. *)
Definition writeTempWav_path (join : string -> string -> string)
    (tmpdir : string) (now index : N) : string :=
  join tmpdir (fileName now index).

(** The separators of paths: the slash and, on Windows, the backslash. *)
Definition is_sep (a : Ascii.ascii) : bool :=
  let n := Ascii.N_of_ascii a in ((n =? 47) || (n =? 92))%N.

Fixpoint no_sep (s : string) : bool :=
  match s with
  | EmptyString => true
  | String a r => negb (is_sep a) && no_sep r
  end.

(** A single path segment that names a file: no separator in it, and it is
    not empty, [.] or [..], which normalisation removes. *)
Definition segment (s : string) : bool :=
  no_sep s && negb (String.eqb s "") && negb (String.eqb s ".")
  && negb (String.eqb s "..").

Definition is_digit (a : Ascii.ascii) : bool :=
  let n := Ascii.N_of_ascii a in ((48 <=? n) && (n <=? 57))%N.

Fixpoint digits (s : string) : bool :=
  match s with
  | EmptyString => true
  | String a r => is_digit a && digits r
  end.

Lemma pretty_N_char_digit x : is_digit (pretty_N_char x) = true.
Proof. unfold pretty_N_char. by repeat case_match. Qed.

Lemma pretty_N_go_digits x s : digits s = true -> digits (pretty_N_go x s) = true.
Proof.
  revert s. induction (N.lt_wf_0 x) as [x _ IH]; intros s Hs.
  assert (x = 0 \/ 0 < x)%N as [->|Hx] by lia.
  - by rewrite pretty_N_go_0.
  - rewrite pretty_N_go_step by done. apply IH; [by apply N.div_lt|].
    simpl. by rewrite pretty_N_char_digit.
Qed.

Lemma pretty_digits (x : N) : digits (pretty x) = true.
Proof.
  unfold pretty, pretty_N. case_decide; [done|]. by apply pretty_N_go_digits.
Qed.

(** Two strings of digits, each followed by the same character that is no
    digit, are told apart by that character. *)
Lemma digits_split sep d1 d2 r1 r2 :
  is_digit sep = false -> digits d1 = true -> digits d2 = true ->
  d1 +:+ String sep r1 = d2 +:+ String sep r2 -> d1 = d2 /\ r1 = r2.
Proof.
  intros Hsep. revert d2. induction d1 as [|a d1 IH]; intros [|b d2]; simpl.
  - intros _ _ [= ->]. done.
  - intros _ [Hb _]%andb_prop [= <- _]. congruence.
  - intros [Ha _]%andb_prop _ [= -> _]. congruence.
  - intros [_ H1]%andb_prop [_ H2]%andb_prop [= -> H].
    destruct (IH d2 H1 H2 H) as [-> ->]. done.
Qed.

Lemma digits_no_sep s r : digits s = true -> no_sep r = true -> no_sep (s +:+ r) = true.
Proof.
  induction s as [|a s IH]; simpl; [done|]. intros [Ha Hs]%andb_prop Hr.
  rewrite IH by done. rewrite andb_true_r. apply negb_true_iff.
  unfold is_digit in Ha. unfold is_sep. cbv zeta in *.
  apply andb_prop in Ha as [H1%N.leb_le H2%N.leb_le].
  apply orb_false_iff. split; apply N.eqb_neq; lia.
Qed.

Lemma fileName_segment now index : segment (fileName now index) = true.
Proof.
  unfold segment.
  assert (no_sep (fileName now index) = true) as ->.
  { unfold fileName.
    change (no_sep (pretty now +:+ "-" +:+ pretty index +:+ ".wav") = true).
    apply digits_no_sep; [apply pretty_digits|].
    change (no_sep (pretty index +:+ ".wav") = true).
    by apply digits_no_sep; [apply pretty_digits|]. }
  done.
Qed.

Lemma fileName_inj now index now' index' :
  fileName now index = fileName now' index' -> now = now' /\ index = index'.
Proof.
  unfold fileName. intros H.
  apply (inj (String.append "opencode-tts-")) in H.
  change (pretty now +:+ String (Ascii.ascii_of_nat 45) (pretty index +:+ ".wav")
          = pretty now' +:+ String (Ascii.ascii_of_nat 45) (pretty index' +:+ ".wav"))
    in H.
  apply digits_split in H as [Hn Hi]; [|done|apply pretty_digits..].
  change (pretty index +:+ String (Ascii.ascii_of_nat 46) "wav"
          = pretty index' +:+ String (Ascii.ascii_of_nat 46) "wav") in Hi.
  apply digits_split in Hi as [Hi _]; [|done|apply pretty_digits..].
  split; by apply (inj pretty).
Qed.

(** On a POSIX system, for a directory such as [/tmp] that normalisation
    leaves as it is, [path.join] puts a slash between the directory and the
    segment; it tells segments apart. *)
Example posix_join_segments (tmpdir name name' : string) :
  tmpdir +:+ "/" +:+ name = tmpdir +:+ "/" +:+ name' -> name = name'.
Proof.
  intros H. apply (inj (String.append tmpdir)) in H.
  by apply (inj (String.append "/")) in H.
Qed.

(** X30: the temp files of different chunks have different names.  The
    name [writeTempWav] gives a file is a single path segment, and it
    determines the clock reading and the chunk index it was made from.  So,
    [path.join] telling apart the segments it appends to the temporary
    directory, two calls write to the same path only when both are the same:
    within one millisecond the files of different chunks never overwrite each
    other. *)
Theorem writeTempWav_path_inj (join : string -> string -> string)
    (tmpdir : string) (now index now' index' : N) :
  segment (fileName now index) = true /\
  (fileName now index = fileName now' index' <-> now = now' /\ index = index') /\
  ((forall name name', segment name = true -> segment name' = true ->
      join tmpdir name = join tmpdir name' -> name = name') ->
   (writeTempWav_path join tmpdir now index = writeTempWav_path join tmpdir now' index'
    <-> now = now' /\ index = index')).
Proof.
  split; [apply fileName_segment|]. split.
  - split; [apply fileName_inj | by intros [-> ->]].
  - intros Hjoin. split; [|by intros [-> ->]].
    unfold writeTempWav_path. intros H.
    apply fileName_inj, Hjoin; [apply fileName_segment..|done].
Qed.

End TempPath.
